(** * AudioFlow: retry executor, batch pipelines, transcription store,
      streaming session and recognition adapter.

    A shallow embedding of the TypeScript sources of the audio-flow
    service.  Numbers that the code uses as counters, millisecond
    durations and timestamps are integers ([Z]); JavaScript exceptions
    are an explicit completion ([Return] / [Throw]); the environment
    (network, provider, database, timers) is an explicit script or an
    explicit event of a transition system. *)

From Stdlib Require Import ZArith List String Ascii Bool Lia.
From Stdlib Require Import DecimalString Sorting.Sorted Sorting.Permutation.
From Equations Require Import Equations.
Import ListNotations.
Open Scope string_scope.
Open Scope list_scope.
Open Scope Z_scope.

(* ------------------------------------------------------------------ *)
(** ** JavaScript values that the code throws and inspects             *)
(* ------------------------------------------------------------------ *)

Module Js.

(** The classes of [middleware/error-handler.ts], the built-in [Error]
    and [TypeError], and the [ValidationError] of the database library,
    which is not one of the application's classes. *)
Inductive errclass :=
| PlainError | TypeError
| ApplicationError | ValidationError | NotFoundError
| ExternalServiceError | InvalidUrlError | DownloadError
| MongooseValidationError.

Record Error := mkError {
  cls : errclass;
  message : string;
  statusCode : option Z;
  code : option string
}.

(** [new Error(msg)] *)
Definition new_Error (msg : string) : Error :=
  {| cls := PlainError; message := msg; statusCode := None; code := None |}.

(** What a rejected promise or a [throw] can carry. *)
Inductive jsval :=
| JUndefined
| JNull
| JBool (b : bool)
| JNumber (z : Z)
| JString (s : string)
| JErr (e : Error).

Definition Z_to_string (z : Z) : string := NilZero.string_of_int (Z.to_int z).

(** [String(v)] *)
Definition String_ (v : jsval) : string :=
  match v with
  | JUndefined => "undefined"
  | JNull => "null"
  | JBool true => "true"
  | JBool false => "false"
  | JNumber z => Z_to_string z
  | JString s => s
  | JErr e => "Error: " ++ message e
  end.

(** [v instanceof Error] *)
Definition instanceof_Error (v : jsval) : bool :=
  match v with JErr _ => true | _ => false end.

(** How a call completes. *)
Inductive completion (T : Type) :=
| Return (t : T)
| Throw (v : jsval).
Arguments Return {T} t.
Arguments Throw {T} v.

Definition errclass_eqb (a b : errclass) : bool :=
  match a, b with
  | PlainError, PlainError | TypeError, TypeError
  | ApplicationError, ApplicationError | ValidationError, ValidationError
  | NotFoundError, NotFoundError | ExternalServiceError, ExternalServiceError
  | InvalidUrlError, InvalidUrlError | DownloadError, DownloadError
  | MongooseValidationError, MongooseValidationError => true
  | _, _ => false
  end.

End Js.
Import Js.

(* ------------------------------------------------------------------ *)
(** ** utils/retry.ts: [retryWithBackoff]                              *)
(* ------------------------------------------------------------------ *)

Module Retry.

(** An observer is called for its effect only; the model keeps the lines
    it logs. *)
Definition observer := Z -> Error -> list string.

Record RetryOptions := {
  maxAttempts : Z;
  initialDelay : Z;
  maxDelay : Z;
  onRetry : option observer
}.

(** What one invocation of the operation settles to. *)
Inductive settled (T : Type) :=
| Resolve (t : T)
| Reject (v : jsval).
Arguments Resolve {T} t.
Arguments Reject {T} v.

(** Everything [retryWithBackoff] does that is visible from outside, in
    the order it does it. *)
Inductive event :=
| EvCall (attempt : Z) (rejected : option jsval)
| EvLogWarn (attempt : Z) (maxAttempts : Z) (delay : Z) (error : string)
| EvOnRetry (attempt : Z) (e : Error) (logged : list string)
| EvSleep (delay : Z).

Record run (T : Type) := mkRun {
  outcome : completion T;
  calls : nat;
  trace : list event
}.
Arguments mkRun {T}.
Arguments outcome {T}.
Arguments calls {T}.
Arguments trace {T}.

Section Executor.
Context {T : Type}.
(** [fn] is given by what its n-th invocation (n = 1, 2, ...) settles
    to. *)
Variable fn : nat -> settled T.
Variable options : RetryOptions.

(** [lastError = error instanceof Error ? error : new Error(String(error))] *)
Definition normalise (error : jsval) : Error :=
  match error with
  | JErr e => e
  | other => new_Error (String_ other)
  end.

(** [Math.min(initialDelay * Math.pow(2, attempt - 1), maxDelay)] *)
Definition backoff_delay (attempt : Z) : Z :=
  Z.min (initialDelay options * 2 ^ (attempt - 1)) (maxDelay options).

Definition observer_events (attempt : Z) (e : Error) : list event :=
  match onRetry options with
  | Some f => [EvOnRetry attempt e (f attempt e)]
  | None => []
  end.

(** [throw lastError!] with [lastError] possibly never assigned. *)
Definition throw_lastError (lastError : option Error) : jsval :=
  match lastError with
  | Some e => JErr e
  | None => JUndefined
  end.

(** The [for (let attempt = 1; attempt <= maxAttempts; attempt++)]
    loop, entered at [attempt]. *)
Equations attempt_loop (attempt : Z) (lastError : option Error)
          (ncalls : nat) (tr : list event) : run T
  by wf (Z.to_nat (maxAttempts options + 1 - attempt)) lt :=
  attempt_loop attempt lastError ncalls tr
    with Z_le_dec attempt (maxAttempts options) := {
    | right _ => mkRun (Throw (throw_lastError lastError)) ncalls tr
    | left _ with fn (S ncalls) := {
      | Resolve t =>
          mkRun (Return t) (S ncalls) (tr ++ [EvCall attempt None])
      | Reject error with Z.eq_dec attempt (maxAttempts options) := {
        | left _ =>
            mkRun (Throw (JErr (normalise error))) (S ncalls)
                  (tr ++ [EvCall attempt (Some error)])
        | right _ =>
            attempt_loop (attempt + 1) (Some (normalise error)) (S ncalls)
              (tr ++ [EvCall attempt (Some error);
                      EvLogWarn attempt (maxAttempts options)
                                (backoff_delay attempt)
                                (message (normalise error))]
                  ++ observer_events attempt (normalise error)
                  ++ [EvSleep (backoff_delay attempt)]) } } }.
Next Obligation. lia. Qed.

Definition retryWithBackoff : run T := attempt_loop 1 None 0%nat [].

End Executor.

End Retry.


(** The retry rounds as the specification words them. *)
Module RetrySpec.
Import Retry.

Section Rounds.
Context {T : Type}.
Variable fn : nat -> settled T.
Variable options : RetryOptions.

(** The delay inserted before retry attempt [n] (n >= 2):
    min(initialDelay * 2^(n-2), maxDelay). *)
Definition spec_delay_before (n : Z) : Z :=
  Z.min (initialDelay options * 2 ^ (n - 2)) (maxDelay options).

(** The events of attempt [n] when it fails and is not the last one: the
    call, the warning, the observer (when there is one) with the attempt
    number and the error, then the delay that precedes attempt [n + 1]. *)
Definition failed_round (n : nat) : list event :=
  match fn n with
  | Resolve _ => []
  | Reject v =>
      [EvCall (Z.of_nat n) (Some v);
       EvLogWarn (Z.of_nat n) (maxAttempts options)
                 (spec_delay_before (Z.of_nat n + 1)) (message (normalise v))]
      ++ match onRetry options with
         | Some f => [EvOnRetry (Z.of_nat n) (normalise v)
                                (f (Z.of_nat n) (normalise v))]
         | None => []
         end
      ++ [EvSleep (spec_delay_before (Z.of_nat n + 1))]
  end.

(** The rounds of attempts 1 .. [k]. *)
Definition failed_rounds (k : nat) : list event :=
  flat_map failed_round (seq 1 k).

End Rounds.

(** The operation fails on every invocation. *)
Definition always_fails {T : Type} (fn : nat -> settled T) : Prop :=
  forall n, exists v, fn n = Reject v.

(** The operation fails on invocations 1 .. k-1 and succeeds, with [t],
    on invocation [k]. *)
Definition succeeds_on {T : Type} (fn : nat -> settled T) (k : nat) (t : T) : Prop :=
  (forall n, (1 <= n < k)%nat -> exists v, fn n = Reject v) /\ fn k = Resolve t.

(** How many times the trace shows the operation invoked. *)
Definition invocations (tr : list event) : nat :=
  List.length (filter (fun e => match e with EvCall _ _ => true | _ => false end) tr).

(** The delays of a trace, in order. *)
Definition delays (tr : list event) : list Z :=
  flat_map (fun e => match e with EvSleep d => [d] | _ => [] end) tr.

End RetrySpec.

(** Inputs used to exercise the executor. *)
Module RetrySamples.
Import Retry.

Definition policy (m d M : Z) : RetryOptions :=
  {| maxAttempts := m; initialDelay := d; maxDelay := M; onRetry := None |}.

Definition noting_observer : observer :=
  fun attempt e => ["retry " ++ Z_to_string attempt ++ ": " ++ message e]%string.

Definition observed_policy (m d M : Z) : RetryOptions :=
  {| maxAttempts := m; initialDelay := d; maxDelay := M;
     onRetry := Some noting_observer |}.

(** Rejects with a string, every time. *)
Definition rejects_boom : nat -> settled string :=
  fun _ => Reject (JString "boom").

(** Rejects with [new Error('Always fail')], every time. *)
Definition always_fail : nat -> settled string :=
  fun _ => Reject (JErr (new_Error "Always fail")).

(** Fails twice, then resolves. *)
Definition third_time_lucky : nat -> settled string :=
  fun n => match n with
           | 1%nat => Reject (JErr (new_Error "Fail 1"))
           | 2%nat => Reject (JErr (new_Error "Fail 2"))
           | _ => Resolve "success"
           end.

End RetrySamples.

(* ------------------------------------------------------------------ *)
(** ** utils/retry.ts: [isValidUrl], [getFilenameFromUrl]; strings     *)
(* ------------------------------------------------------------------ *)

Module Url.

(** The two fields of the platform's [URL] object that the code reads. *)
Record URL := {
  protocol : string;
  pathname : string
}.

(** [String.prototype.trim], for the ASCII white space characters. *)
Definition is_space (c : ascii) : bool :=
  let n := nat_of_ascii c in
  (n =? 32)%nat || ((9 <=? n)%nat && (n <=? 13)%nat).

Fixpoint trim_start (s : string) : string :=
  match s with
  | String c rest => if is_space c then trim_start rest else s
  | EmptyString => EmptyString
  end.

Fixpoint trim_end (s : string) : string :=
  match s with
  | EmptyString => EmptyString
  | String c rest =>
      match trim_end rest with
      | EmptyString => if is_space c then EmptyString else String c EmptyString
      | kept => String c kept
      end
  end.

Definition trim (s : string) : string := trim_end (trim_start s).

(** [s.lastIndexOf(c)], -1 when [c] does not occur. *)
Fixpoint lastIndexOf_from (c : ascii) (s : string) (i found : Z) : Z :=
  match s with
  | EmptyString => found
  | String a rest =>
      lastIndexOf_from c rest (i + 1) (if Ascii.eqb a c then i else found)
  end.

Definition lastIndexOf (c : ascii) (s : string) : Z := lastIndexOf_from c s 0 (-1).

(** [s.substring(n)] *)
Definition substring_from (n : Z) (s : string) : string :=
  String.substring (Z.to_nat n) (String.length s - Z.to_nat n) s.

(** [a || b] on strings: the empty string is falsy. *)
Definition or_else (a b : string) : string :=
  if (a =? "")%string then b else a.

Definition toUpperCase_ascii (c : ascii) : ascii :=
  let n := nat_of_ascii c in
  if ((97 <=? n) && (n <=? 122))%nat then ascii_of_nat (n - 32) else c.

Fixpoint toUpperCase (s : string) : string :=
  match s with
  | EmptyString => EmptyString
  | String c rest => String (toUpperCase_ascii c) (toUpperCase rest)
  end.

Section Parser.
(** [new URL(url)] of the platform: [None] when the constructor throws. *)
Variable URL_parse : string -> option URL.

Definition isValidUrl (url : string) : bool :=
  match URL_parse url with
  | Some parsed =>
      (protocol parsed =? "http:")%string || (protocol parsed =? "https:")%string
  | None => false
  end.

Definition getFilenameFromUrl (url : string) : string :=
  match URL_parse url with
  | Some parsed =>
      let filename :=
        substring_from (lastIndexOf "/"%char (pathname parsed) + 1) (pathname parsed) in
      or_else filename "unknown"
  | None => "unknown"
  end.

End Parser.

(** A small stand-in for the platform's parser, enough to run the
    functions above on plain [scheme://host/path] inputs. *)
Fixpoint path_part (s : string) : string :=
  match s with
  | EmptyString => "/"
  | String c rest => if Ascii.eqb c "/"%char then s else path_part rest
  end.

Fixpoint without_query (s : string) : string :=
  match s with
  | EmptyString => EmptyString
  | String c rest =>
      if Ascii.eqb c "?"%char || Ascii.eqb c "#"%char then EmptyString
      else String c (without_query rest)
  end.

Definition sample_URL_parse (url : string) : option URL :=
  if String.prefix "https://" url then
    match substring_from 8 url with
    | EmptyString => None
    | rest => Some {| protocol := "https:"; pathname := without_query (path_part rest) |}
    end
  else if String.prefix "http://" url then
    match substring_from 7 url with
    | EmptyString => None
    | rest => Some {| protocol := "http:"; pathname := without_query (path_part rest) |}
    end
  else if String.prefix "ftp://" url then
    match substring_from 6 url with
    | EmptyString => None
    | rest => Some {| protocol := "ftp:"; pathname := without_query (path_part rest) |}
    end
  else None.

End Url.

(* ------------------------------------------------------------------ *)
(** ** models/transcription.model.ts: the collection                   *)
(* ------------------------------------------------------------------ *)

Module Store.

Inductive TranscriptionSource := mock | azure.

Inductive LanguageCode := en_US | fr_FR | es_ES | de_DE | it_IT | ja_JP | ko_KR.

Definition source_str (s : TranscriptionSource) : string :=
  match s with mock => "mock" | azure => "azure" end.

Definition source_eqb (a b : TranscriptionSource) : bool :=
  match a, b with
  | mock, mock | azure, azure => true
  | _, _ => false
  end.

Record Metadata := {
  sessionId : string;
  duration : Z;
  chunkCount : Z
}.

(** What the callers pass to [TranscriptionModel.create]. *)
Record NewTranscription := {
  new_audioUrl : string;
  new_transcription : string;
  new_source : TranscriptionSource;
  new_language : option LanguageCode;
  new_metadata : option Metadata
}.

(** A stored document. *)
Record ITranscription := {
  id : string;
  audioUrl : string;
  transcription : string;
  source : TranscriptionSource;
  language : option LanguageCode;
  metadata : option Metadata;
  createdAt : Z
}.

Definition collection := list ITranscription.

(** What the database answers to one insertion: the identifier and the
    timestamp it assigns, or a failure. *)
Inductive insertion :=
| Inserted (assigned_id : string) (assigned_createdAt : Z)
| InsertFailed (v : jsval).

(** What the schema finds wrong with a document: the path and the
    message of each [required] validator that fails, in the order of the
    schema.  [audioUrl] is trimmed before it is validated. *)
Definition required_failures (doc : NewTranscription) : list (string * string) :=
  (if (Url.trim (new_audioUrl doc) =? "")%string
   then [("audioUrl", "Audio URL is required")]%string else [])
  ++ (if (new_transcription doc =? "")%string
      then [("transcription", "Transcription text is required")]%string else []).

(** [path: message], joined by [', ']. *)
Fixpoint failed_paths (failures : list (string * string)) : string :=
  match failures with
  | [] => ""
  | [(path, msg)] => path ++ ": " ++ msg
  | (path, msg) :: rest => path ++ ": " ++ msg ++ ", " ++ failed_paths rest
  end%string.

(** What [create] throws for a document that fails validation: the
    database library's [ValidationError], whose message names the model
    and the failing paths. *)
Definition validation_failure (failures : list (string * string)) : jsval :=
  JErr {| cls := MongooseValidationError;
          message := ("Transcription validation failed: "
                      ++ failed_paths failures)%string;
          statusCode := None; code := None |}.

(** [TranscriptionModel.create(doc)]: the schema trims [audioUrl] and
    requires [audioUrl] and [transcription]; a document that fails
    validation, or that the database refuses, is not stored. *)
Definition create (db : insertion) (doc : NewTranscription) (c : collection)
  : completion ITranscription * collection :=
  match required_failures doc with
  | _ :: _ => (Throw (validation_failure (required_failures doc)), c)
  | [] =>
      match db with
      | InsertFailed v => (Throw v, c)
      | Inserted i t =>
          let stored :=
            {| id := i;
               audioUrl := Url.trim (new_audioUrl doc);
               transcription := new_transcription doc;
               source := new_source doc;
               language := new_language doc;
               metadata := new_metadata doc;
               createdAt := t |} in
          (Return stored, c ++ [stored])
      end
  end.

(** *** [findRecentTranscriptions] *)

(** What one query takes from outside the program: the [Date] of the
    platform, in the time zone of the process, and the answers of the
    database. *)
Record QueryEnv := {
  (* the time value of a [Date] of time value [now] after
     [setDate(getDate() - days)]; [None] for an Invalid Date *)
  Date_days_back : Z -> Z -> option Z;
  (* [.sort({createdAt: -1})] as the database answers it for this
     query: records of equal [createdAt] come in an order of its own *)
  sort_createdAt_desc : list ITranscription -> list ITranscription;
  (* what the query throws when [threshold] is an Invalid Date: the
     database library's [CastError] *)
  CastError_invalid_date : jsval
}.

(** The query object: [createdAt: {$gte: threshold}], and [source] when
    the argument is truthy. *)
Record Query := {
  createdAt_gte : Z;
  source_is : option string
}.

Definition build_query (threshold : Z) (source : option string) : Query :=
  {| createdAt_gte := threshold;
     source_is := match source with
                  | Some s => if (s =? "")%string then None else Some s
                  | None => None
                  end |}.

Definition matches (q : Query) (r : ITranscription) : bool :=
  (createdAt_gte q <=? createdAt r)
  && match source_is q with
     | Some s => (source_str (source r) =? s)%string
     | None => true
     end.

(** [.find(query)] *)
Definition find (q : Query) (c : collection) : list ITranscription :=
  filter (matches q) c.

(** [.countDocuments(query)] *)
Definition countDocuments (q : Query) (c : collection) : Z :=
  Z.of_nat (List.length (filter (matches q) c)).

(** [.skip(n)]: the database refuses a negative skip. *)
Definition skip (n : Z) (l : list ITranscription) : completion (list ITranscription) :=
  if n <? 0 then
    Throw (JErr {| cls := PlainError; message := "Skip value must be non-negative";
                   statusCode := None; code := None |})
  else Return (skipn (Z.to_nat n) l).

(** [.limit(n)]: a limit of 0 is no limit, a negative limit counts as
    its absolute value. *)
Definition limit_ (n : Z) (l : list ITranscription) : list ITranscription :=
  if n =? 0 then l else firstn (Z.to_nat (Z.abs n)) l.

(** [Math.ceil(total / limit)]: [None] when the quotient is not finite. *)
Definition Math_ceil_div (total limit : Z) : option Z :=
  if limit =? 0 then None else Some (- ((- total) / limit)).

Record Page := {
  transcriptions : list ITranscription;
  total : Z;
  page : Z;
  limit : Z;
  totalPages : option Z
}.

(** [now] is the time value of [new Date()]. *)
Definition findRecentTranscriptions (env : QueryEnv)
  (now : Z) (c : collection) (days page limit : Z) (source : option string)
  : completion Page :=
  match Date_days_back env now days with
  | None => Throw (CastError_invalid_date env)
  | Some threshold =>
      let query := build_query threshold source in
      let skip_by := (page - 1) * limit in
      match skip skip_by (sort_createdAt_desc env (find query c)) with
      | Throw v => Throw v
      | Return rest =>
          Return {| transcriptions := limit_ limit rest;
                    total := countDocuments query c;
                    page := page;
                    limit := limit;
                    totalPages := Math_ceil_div (countDocuments query c) limit |}
      end
  end.

End Store.

(* ------------------------------------------------------------------ *)
(** ** adapters: HTTP clients and speech clients                       *)
(* ------------------------------------------------------------------ *)

Module Adapters.
Import Retry Store.

Definition Buffer := string.

Record HttpResponse := {
  status : Z;
  statusText : string;
  headers : list (string * string);
  data : option Buffer
}.

(** [headers[name]] *)
Fixpoint header (name : string) (hs : list (string * string)) : option string :=
  match hs with
  | [] => None
  | (k, v) :: rest => if (k =? name)%string then Some v else header name rest
  end.

(** [IHttpClient]: what the n-th [get] of a request settles to. *)
Class IHttpClient (C : Type) := {
  get : C -> string -> nat -> settled HttpResponse
}.

(** The real client answers with whatever the network gives. *)
Record RealHttpClient := {
  network : string -> nat -> settled HttpResponse
}.

(** The mock client needs the URL parser for [getFilenameFromUrl]. *)
Record MockHttpClient := {
  mock_URL_parse : string -> option Url.URL
}.

Definition generateMockAudioData (c : MockHttpClient) (url : string) : Buffer :=
  ("MOCK_AUDIO_DATA_FOR_" ++ Url.getFilenameFromUrl (mock_URL_parse c) url)%string.

(** [MockHttpClient.get] as the audio service calls it, with
    [responseType: 'arraybuffer']. *)
Definition mock_get (c : MockHttpClient) (url : string) (_ : nat) : settled HttpResponse :=
  Resolve {| status := 200;
             statusText := "OK";
             headers := [("content-type", "audio/mpeg");
                         ("content-length", "1024000")];
             data := Some (generateMockAudioData c url) |}.

#[export] Instance RealHttpClient_IHttpClient : IHttpClient RealHttpClient :=
  {| get := network |}.

#[export] Instance MockHttpClient_IHttpClient : IHttpClient MockHttpClient :=
  {| get := mock_get |}.

Record SpeechRecognitionResult := {
  text : string;
  confidence : option Z;   (* in hundredths *)
  language : LanguageCode;
  duration : option Z
}.

(** [ISpeechClient] *)
Class ISpeechClient (C : Type) := {
  isConfigured : C -> bool;
  transcribe : C -> Buffer -> LanguageCode -> nat -> settled SpeechRecognitionResult
}.

(** [new ExternalServiceError(message, serviceName)] *)
Definition new_ExternalServiceError (msg serviceName : string) : Error :=
  {| cls := ExternalServiceError;
     message := msg;
     statusCode := Some 503;
     code := Some (Url.toUpperCase serviceName ++ "_ERROR")%string |}.

(** *** The real client and the promise its [transcribe] builds *)

Inductive ResultReason := RecognizedSpeech | NoMatch | OtherResult.
Inductive CancellationReason := CancelError | EndOfStream | CancelledByUser.

(** What the recogniser reports while a call is in flight, each with the
    milliseconds elapsed since the call started. *)
Inductive sdk_event :=
| Recognized (reason : ResultReason) (result_text : string)
| SessionStopped (elapsed : Z)
| Canceled (reason : CancellationReason) (errorDetails : string) (elapsed : Z)
| StartFailed (err : string)
| TimeoutFired (elapsed : Z).

Inductive promise :=
| Pending
| Fulfilled (r : SpeechRecognitionResult)
| Rejected (v : jsval).

(** [resolve] and [reject] settle a pending promise and leave a settled
    one alone. *)
Definition resolve (r : SpeechRecognitionResult) (p : promise) : promise :=
  match p with Pending => Fulfilled r | _ => p end.

Definition reject (v : jsval) (p : promise) : promise :=
  match p with Pending => Rejected v | _ => p end.

Record recognition := {
  transcription_acc : string;      (* [let transcription = ''] *)
  settled_as : promise
}.

Definition recognition_start : recognition :=
  {| transcription_acc := ""; settled_as := Pending |}.

(** The callbacks installed by [RealSpeechClient.transcribe]. *)
Definition on_event (lang : LanguageCode) (st : recognition) (e : sdk_event) : recognition :=
  match e with
  | Recognized RecognizedSpeech t =>
      {| transcription_acc := (transcription_acc st ++ t ++ " ")%string;
         settled_as := settled_as st |}
  | Recognized _ _ => st
  | SessionStopped elapsed =>
      {| transcription_acc := transcription_acc st;
         settled_as :=
           resolve {| text := Url.trim (transcription_acc st);
                      confidence := Some 90;
                      language := lang;
                      duration := Some elapsed |} (settled_as st) |}
  | Canceled CancelError details _ =>
      {| transcription_acc := transcription_acc st;
         settled_as :=
           reject (JErr (new_ExternalServiceError details "Azure Speech"))
                  (settled_as st) |}
  | Canceled _ _ elapsed =>
      {| transcription_acc := transcription_acc st;
         settled_as :=
           resolve {| text := Url.trim (transcription_acc st);
                      confidence := None;
                      language := lang;
                      duration := Some elapsed |} (settled_as st) |}
  | StartFailed err =>
      {| transcription_acc := transcription_acc st;
         settled_as :=
           reject (JErr (new_ExternalServiceError err "Azure Speech"))
                  (settled_as st) |}
  | TimeoutFired elapsed =>
      {| transcription_acc := transcription_acc st;
         settled_as :=
           if (transcription_acc st =? "")%string then
             reject (JErr (new_ExternalServiceError "Transcription timeout"
                                                    "Azure Speech"))
                    (settled_as st)
           else
             resolve {| text := Url.trim (transcription_acc st);
                        confidence := None;
                        language := lang;
                        duration := Some elapsed |} (settled_as st) |}
  end.

Definition after_events (lang : LanguageCode) (es : list sdk_event) : recognition :=
  fold_left (on_event lang) es recognition_start.

(** One call to the provider: either building the recogniser throws, or
    the recogniser reports [reported] and then, 60 seconds after the
    start, the timer set by [setTimeout(..., 60000)] fires. *)
Inductive sdk_session :=
| SetupThrows (v : jsval)
| Session (reported : list sdk_event) (timeout_elapsed : Z).

Definition session_promise (lang : LanguageCode) (s : sdk_session) : promise :=
  match s with
  | SetupThrows v => Rejected v
  | Session reported t =>
      settled_as (after_events lang (reported ++ [TimeoutFired t]))
  end.

Record RealSpeechClient := {
  speechKey : option string;
  speechRegion : option string;
  sessions : nat -> sdk_session       (* the n-th call to the provider *)
}.

(** [Boolean(a && b)] on optional strings. *)
Definition truthy (s : option string) : bool :=
  match s with
  | Some x => negb (x =? "")%string
  | None => false
  end.

Definition real_isConfigured (c : RealSpeechClient) : bool :=
  truthy (speechKey c) && truthy (speechRegion c).

Definition real_transcribe (c : RealSpeechClient) (audioData : Buffer)
  (lang : LanguageCode) (n : nat) : settled SpeechRecognitionResult :=
  if negb (real_isConfigured c) then
    Reject (JErr (new_ExternalServiceError
                    "Azure Speech credentials not configured" "Azure"))
  else
    match session_promise lang (sessions c n) with
    | Fulfilled r => Resolve r
    | Rejected v => Reject v
    | Pending => Reject JUndefined      (* excluded by [session_promise_settles] *)
    end.

(** *** The mock client *)

Inductive MockSpeechClient := TheMockSpeechClient.

Definition mock_sentence (lang : LanguageCode) : string :=
  match lang with
  | en_US => "This is a mock transcription in English. The audio has been processed successfully."
  | fr_FR => "Ceci est une transcription fictive en français. L'audio a été traité avec succès."
  | es_ES => "Esta es una transcripción simulada en español. El audio se ha procesado correctamente."
  | de_DE => "Dies ist eine simulierte Transkription auf Deutsch. Das Audio wurde erfolgreich verarbeitet."
  | it_IT => "Questa è una trascrizione simulata in italiano. L'audio è stato elaborato con successo."
  | ja_JP => "これは日本語のモック文字起こしです。オーディオは正常に処理されました。"
  | ko_KR => "이것은 한국어 모의 전사입니다. 오디오가 성공적으로 처리되었습니다."
  end.

(** "Mock is always configured". *)
Definition mock_isConfigured (_ : MockSpeechClient) : bool := true.

Definition mock_transcribe (_ : MockSpeechClient) (audioData : Buffer)
  (lang : LanguageCode) (_ : nat) : settled SpeechRecognitionResult :=
  Resolve {| text := Url.or_else (mock_sentence lang) (mock_sentence en_US);
             confidence := Some 95;
             language := lang;
             duration := Some 2500 |}.

#[export] Instance RealSpeechClient_ISpeechClient : ISpeechClient RealSpeechClient :=
  {| isConfigured := real_isConfigured; transcribe := real_transcribe |}.

#[export] Instance MockSpeechClient_ISpeechClient : ISpeechClient MockSpeechClient :=
  {| isConfigured := mock_isConfigured; transcribe := mock_transcribe |}.

(** *** adapters/index.ts: the factory *)

(** The exported singleton is one of the two implementations. *)
Inductive speechClient :=
| UsesReal (c : RealSpeechClient)
| UsesMock (c : MockSpeechClient).

#[export] Instance speechClient_ISpeechClient : ISpeechClient speechClient :=
  {| isConfigured := fun c => match c with
                              | UsesReal r => isConfigured r
                              | UsesMock m => isConfigured m
                              end;
     transcribe := fun c => match c with
                            | UsesReal r => transcribe r
                            | UsesMock m => transcribe m
                            end |}.

Inductive httpClient :=
| HttpReal (c : RealHttpClient)
| HttpMock (c : MockHttpClient).

#[export] Instance httpClient_IHttpClient : IHttpClient httpClient :=
  {| get := fun c => match c with
                     | HttpReal r => get r
                     | HttpMock m => get m
                     end |}.

(** The part of [config] that the factory and the services read. *)
Record Config := {
  isTest : bool;
  azure_speechKey : option string;
  azure_speechRegion : option string;
  retry_maxAttempts : Z;
  retry_initialDelay : Z;
  retry_maxDelay : Z
}.

(** [hasAzureCredentials()], stored as [config.azure.isConfigured]. *)
Definition hasAzureCredentials (cfg : Config) : bool :=
  truthy (azure_speechKey cfg) && truthy (azure_speechRegion cfg).

Definition createHttpClient (cfg : Config)
  (URL_parse : string -> option Url.URL)
  (net : string -> nat -> settled HttpResponse) : httpClient :=
  if isTest cfg then HttpMock {| mock_URL_parse := URL_parse |}
  else HttpReal {| network := net |}.

Definition createSpeechClient (cfg : Config) (provider : nat -> sdk_session)
  : speechClient :=
  if hasAzureCredentials cfg then
    UsesReal {| speechKey := azure_speechKey cfg;
                speechRegion := azure_speechRegion cfg;
                sessions := provider |}
  else UsesMock TheMockSpeechClient.

(** Which recogniser a client's text comes from. *)
Definition produced_by (c : speechClient) : TranscriptionSource :=
  match c with
  | UsesReal _ => azure
  | UsesMock _ => mock
  end.

End Adapters.

(* ------------------------------------------------------------------ *)
(** ** services: audio download and the two batch pipelines            *)
(* ------------------------------------------------------------------ *)

Module AudioService.
Import Retry Store Adapters.

Record AudioDownloadResult := {
  success : bool;
  contentType : option string;
  size : option Z;
  data : option Buffer
}.

Definition new_InvalidUrlError (url : string) : Error :=
  {| cls := InvalidUrlError;
     message := ("Invalid URL format: " ++ url)%string;
     statusCode := Some 400;
     code := Some "INVALID_URL" |}.

Definition new_DownloadError (msg : string) : Error :=
  {| cls := DownloadError;
     message := msg;
     statusCode := Some 500;
     code := Some "DOWNLOAD_ERROR" |}.

(** [error instanceof InvalidUrlError || error instanceof DownloadError] *)
Definition is_url_or_download_error (v : jsval) : bool :=
  match v with
  | JErr e => errclass_eqb (cls e) InvalidUrlError || errclass_eqb (cls e) DownloadError
  | _ => false
  end.

Section Download.
Variable URL_parse : string -> option Url.URL.
Variable cfg : Config.
Context {H : Type} {H_client : IHttpClient H}.
Variable client : H.

(** The function handed to [retryWithBackoff]: one [get], then the
    result object; [data.length] throws when there is no body. *)
Definition download_attempt (audioUrl : string) (n : nat) : settled AudioDownloadResult :=
  match get client audioUrl n with
  | Reject v => Reject v
  | Resolve response =>
      match Adapters.data response with
      | None =>
          Reject (JErr {| cls := TypeError;
                          message := "Cannot read properties of undefined (reading 'length')";
                          statusCode := None; code := None |})
      | Some body =>
          Resolve {| success := true;
                     contentType :=
                       Some (match header "content-type" (headers response) with
                             | Some ct => Url.or_else ct "audio/mpeg"
                             | None => "audio/mpeg"
                             end);
                     size := Some (Z.of_nat (String.length body));
                     data := Some body |}
      end
  end.

Definition download_policy : RetryOptions :=
  {| maxAttempts := retry_maxAttempts cfg;
     initialDelay := retry_initialDelay cfg;
     maxDelay := retry_maxDelay cfg;
     onRetry := None |}.

Definition downloadAudio (audioUrl : string) : completion AudioDownloadResult :=
  if negb (Url.isValidUrl URL_parse audioUrl) then
    Throw (JErr (new_InvalidUrlError audioUrl))
  else
    match outcome (retryWithBackoff (download_attempt audioUrl) download_policy) with
    | Return result => Return result
    | Throw error =>
        if is_url_or_download_error error then Throw error
        else Throw (JErr (new_DownloadError
                            (match error with
                             | JErr e => message e
                             | _ => "Unknown download error"
                             end)))
    end.

End Download.
End AudioService.

(** What both pipelines answer with. *)
Module Response.
Import Store.

Record TranscriptionResponse := {
  id : string;
  audioUrl : string;
  transcription : string;
  source : TranscriptionSource;
  language : option LanguageCode;
  createdAt : Z
}.

Definition of_doc (d : ITranscription) : TranscriptionResponse :=
  {| id := Store.id d;
     audioUrl := Store.audioUrl d;
     transcription := Store.transcription d;
     source := Store.source d;
     language := Store.language d;
     createdAt := Store.createdAt d |}.

End Response.

Module TranscriptionService.
Import Retry Store Adapters AudioService Response.

Definition newline : string := String (ascii_of_nat 10) EmptyString.

Section Pipeline.
Variable URL_parse : string -> option Url.URL.
Variable cfg : Config.
Context {H : Type} {H_client : IHttpClient H}.
Variable client : H.

(** [timestamp] is [new Date().toISOString()]. *)
Definition generateMockTranscription (timestamp audioUrl : string) : string :=
  ("This is a mock transcription of the audio file: "
   ++ Url.getFilenameFromUrl URL_parse audioUrl
   ++ ". The audio was processed at " ++ timestamp ++ ".  " ++ newline
   ++ "    In a real implementation, this would contain the actual transcribed text from the audio content. "
   ++ newline
   ++ "    This mock service simulates the transcription process for testing and development purposes.")%string.

Definition transcribeAudio (timestamp : string) (db : insertion)
  (c : collection) (audioUrl : string)
  : completion TranscriptionResponse * collection :=
  match downloadAudio URL_parse cfg client audioUrl with
  | Throw error => (Throw error, c)
  | Return _ =>
      let transcription := generateMockTranscription timestamp audioUrl in
      match create db {| new_audioUrl := audioUrl;
                         new_transcription := transcription;
                         new_source := mock;
                         new_language := None;
                         new_metadata := None |} c with
      | (Throw error, c') => (Throw error, c')
      | (Return transcriptionDoc, c') =>
          (Return {| Response.id := Store.id transcriptionDoc;
                     Response.audioUrl := Store.audioUrl transcriptionDoc;
                     Response.transcription := Store.transcription transcriptionDoc;
                     Response.source := Store.source transcriptionDoc;
                     Response.language := None;
                     Response.createdAt := Store.createdAt transcriptionDoc |}, c')
      end
  end.

End Pipeline.
End TranscriptionService.

Module AzureSpeechService.
Import Retry Store Adapters AudioService Response.

(** The retry options written out in [transcribeAudio]. *)
Definition transcription_policy (audioUrl : string) : RetryOptions :=
  {| maxAttempts := 3;
     initialDelay := 1000;
     maxDelay := 10000;
     onRetry := Some (fun attempt error =>
       [("Retrying transcription (attempt " ++ Z_to_string attempt ++ ") "
         ++ audioUrl ++ " " ++ message error)%string]) |}.

Section Pipeline.
Variable URL_parse : string -> option Url.URL.
Variable cfg : Config.
Context {H : Type} {H_client : IHttpClient H}.
Variable http : H.
Context {S : Type} {S_client : ISpeechClient S}.
Variable client : S.

Definition transcribeAudio (db : insertion) (c : collection)
  (audioUrl : string) (language : LanguageCode)
  : completion TranscriptionResponse * collection :=
  let source := if isConfigured client then azure else mock in
  match downloadAudio URL_parse cfg http audioUrl with
  | Throw error => (Throw error, c)
  | Return audioResult =>
      match AudioService.data audioResult with
      | None => (Throw (JErr (new_Error "Failed to download audio file")), c)
      | Some audio =>
          match outcome (retryWithBackoff (transcribe client audio language)
                                          (transcription_policy audioUrl)) with
          | Throw error => (Throw error, c)
          | Return result =>
              match create db {| new_audioUrl := audioUrl;
                                 new_transcription := text result;
                                 new_source := source;
                                 new_language := Some language;
                                 new_metadata := None |} c with
              | (Throw error, c') => (Throw error, c')
              | (Return transcriptionDoc, c') => (Return (of_doc transcriptionDoc), c')
              end
          end
      end
  end.

End Pipeline.
End AzureSpeechService.

(** The query as the specification words it, and inputs to run it on. *)
Module StoreSpec.
Import Store.

(** A record is selected when it is no older than the threshold and,
    when an origin is asked for, has that origin. *)
Definition selected (threshold : Z) (origin : option TranscriptionSource)
  (r : ITranscription) : bool :=
  (threshold <=? createdAt r)
  && match origin with
     | Some o => source_eqb (source r) o
     | None => true
     end.

(** Newest first. *)
Definition newer_first (a b : ITranscription) : Prop := createdAt b <= createdAt a.

(** What the database's sort guarantees: the same records, newest
    first. *)
Definition sorts_newest_first
  (sort : list ITranscription -> list ITranscription) : Prop :=
  forall l, Permutation (sort l) l /\ StronglySorted newer_first (sort l).

(** *** A sample environment: a process in UTC *)

Definition ms_per_day : Z := 86400000.

(** The largest time value of a [Date]. *)
Definition max_time_value : Z := 8640000000000000.

(** In UTC every day has 24 hours; a time value outside the range of
    [Date] makes an Invalid Date. *)
Definition utc_days_back (now days : Z) : option Z :=
  let t := now - days * ms_per_day in
  if (- max_time_value <=? t) && (t <=? max_time_value) then Some t else None.

(** A database that answers in insertion order among records of equal
    [createdAt]. *)
Fixpoint insert_desc (r : ITranscription) (l : list ITranscription) : list ITranscription :=
  match l with
  | [] => [r]
  | x :: rest =>
      if createdAt x <? createdAt r then r :: l else x :: insert_desc r rest
  end.

Fixpoint insertion_sort_desc (l : list ITranscription) : list ITranscription :=
  match l with
  | [] => []
  | x :: rest => insert_desc x (insertion_sort_desc rest)
  end.

Definition sample_CastError : jsval := JErr (new_Error "Cast to date failed").

Definition utc_env : QueryEnv :=
  {| Date_days_back := utc_days_back;
     sort_createdAt_desc := insertion_sort_desc;
     CastError_invalid_date := sample_CastError |}.

Definition doc_at (name : string) (s : TranscriptionSource) (t : Z) : ITranscription :=
  {| id := name; audioUrl := ("https://example.com/" ++ name)%string;
     transcription := "Test"; source := s; language := None;
     metadata := None; createdAt := t |}.

(** Three records: now, 20 days ago and 40 days ago, for now = 100 days. *)
Definition sample_now : Z := 100 * ms_per_day.

Definition three_records : collection :=
  [doc_at "old" mock (60 * ms_per_day);
   doc_at "mid" azure (80 * ms_per_day);
   doc_at "new" mock (100 * ms_per_day)].

End StoreSpec.

Module SpeechSpec.
Import Adapters.

(** The texts of the recognised-speech events, in order. *)
Definition recognized_texts (es : list sdk_event) : list string :=
  flat_map (fun e => match e with
                     | Recognized RecognizedSpeech t => [t]
                     | _ => []
                     end) es.

(** Every recognised text followed by a space, joined. *)
Definition joined (texts : list string) : string :=
  fold_left (fun acc t => (acc ++ t ++ " ")%string) texts "".

(** No event before the timer has settled the call. *)
Definition only_recognitions (es : list sdk_event) : Prop :=
  Forall (fun e => match e with Recognized _ _ => True | _ => False end) es.

Definition timeout_error : jsval :=
  JErr (new_ExternalServiceError "Transcription timeout" "Azure Speech").

End SpeechSpec.

Module BatchSpec.
Import Retry Store Adapters Response.

(** One call persisted exactly one record and returned it. *)
Definition persisted_one_record (before : collection)
  (res : completion TranscriptionResponse * collection) : Prop :=
  exists doc, fst res = Return (of_doc doc) /\ snd res = before ++ [doc].

(** One call propagated an error and left the collection as it was. *)
Definition failed_without_record (before : collection)
  (res : completion TranscriptionResponse * collection) : Prop :=
  exists v, fst res = Throw v /\ snd res = before.

(** The document that the mock pipeline hands to [create]. *)
Definition simulated_document (URL_parse : string -> option Url.URL)
  (timestamp audioUrl : string) : NewTranscription :=
  {| new_audioUrl := audioUrl;
     new_transcription :=
       TranscriptionService.generateMockTranscription URL_parse timestamp audioUrl;
     new_source := mock;
     new_language := None;
     new_metadata := None |}.

(** The document that the provider pipeline hands to [create] for the
    result of the recognition. *)
Definition provider_document {S : Type} {S_client : ISpeechClient S} (speech : S)
  (audioUrl : string) (lang : LanguageCode) (result : SpeechRecognitionResult)
  : NewTranscription :=
  {| new_audioUrl := audioUrl;
     new_transcription := Adapters.text result;
     new_source := if isConfigured speech then azure else mock;
     new_language := Some lang;
     new_metadata := None |}.

(** The process configuration of a test run without provider
    credentials. *)
Definition test_config : Config :=
  {| isTest := true;
     azure_speechKey := None;
     azure_speechRegion := None;
     retry_maxAttempts := 3;
     retry_initialDelay := 1000;
     retry_maxDelay := 10000 |}.

Definition no_network : string -> nat -> settled HttpResponse :=
  fun _ _ => Reject (JErr (new_Error "network unreachable")).

Definition no_provider : nat -> sdk_session :=
  fun _ => SetupThrows (JErr (new_Error "provider unreachable")).

Definition test_http : httpClient :=
  createHttpClient test_config Url.sample_URL_parse no_network.

Definition test_speech : speechClient :=
  createSpeechClient test_config no_provider.

End BatchSpec.

Module SpeechSamples.
Import Adapters.

(** A provider that recognises two phrases and then goes silent. *)
Definition slow_session : sdk_session :=
  Session [Recognized RecognizedSpeech "hello";
           Recognized NoMatch "";
           Recognized RecognizedSpeech "world"] 60004.

(** A provider that reports nothing at all. *)
Definition silent_session : sdk_session := Session [] 60001.

Definition configured_client (s : sdk_session) : RealSpeechClient :=
  {| speechKey := Some "key"; speechRegion := Some "westeurope";
     sessions := fun _ => s |}.

End SpeechSamples.

(* ------------------------------------------------------------------ *)
(** ** websocket/transcription-stream.ts: the streaming session        *)
(* ------------------------------------------------------------------ *)

Module Stream.
Import Store.

(** What [JSON.parse] yields. *)
#[warnings="-register-all"]
Inductive json :=
| JsonNull
| JsonBool (b : bool)
| JsonNumber (z : Z)
| JsonString (s : string)
| JsonArray (items : list json)
| JsonObject (fields : list (string * json)).

(** The value of a key of a parsed object: the last binding wins. *)
Fixpoint lookup_last (name : string) (fields : list (string * json)) : option json :=
  match fields with
  | [] => None
  | (k, v) :: rest =>
      match lookup_last name rest with
      | Some later => Some later
      | None => if (k =? name)%string then Some v else None
      end
  end.

(** [data.name]: reading a property of [null] throws, of any other value
    that has no such property gives [undefined] ([None]). *)
Definition get_prop (data : json) (name : string) : completion (option json) :=
  match data with
  | JsonNull =>
      Throw (JErr {| cls := TypeError;
                     message := ("Cannot read properties of null (reading '"
                                 ++ name ++ "')")%string;
                     statusCode := None; code := None |})
  | JsonObject fields => Return (lookup_last name fields)
  | _ => Return None
  end.

(** [if (v)] *)
Definition truthy (v : option json) : bool :=
  match v with
  | None => false
  | Some JsonNull => false
  | Some (JsonBool b) => b
  | Some (JsonNumber z) => negb (z =? 0)
  | Some (JsonString s) => negb (s =? "")%string
  | Some (JsonArray _) => true
  | Some (JsonObject _) => true
  end.

(** [v === 'chunk'] *)
Definition is_chunk_string (v : option json) : bool :=
  match v with
  | Some (JsonString s) => (s =? "chunk")%string
  | _ => false
  end.

(** Outbound messages; [confidence] in hundredths. *)
Inductive WebSocketMessage :=
| Partial (text : string) (confidence : Z)
| Final (text : string) (id : string)
| ErrorMessage (message : string) (code : string).

Inductive readyState := OPEN | CLOSING | CLOSED.

(** What happened on a session, in order. *)
Inductive occurrence :=
| Received (parsed : option json)
| Sent (m : WebSocketMessage)
| MarkedComplete
| Persisted (doc : ITranscription)
| CloseCalled.

Record session := {
  chunkCount : Z;
  audioChunks : list (option json);
  isComplete : bool;
  emitting : bool;                               (* [processChunks] waits in [sleep(500)] *)
  finalizing : nat;                              (* handlers waiting in [sleep(1000)] *)
  creating : list (NewTranscription * string);   (* handlers waiting for [create] *)
  socket : readyState;
  history : list occurrence;
  store : collection
}.

(** What the event loop can deliver to a session. *)
Inductive input :=
| Message (parsed : option json)     (* 'message', with the result of [JSON.parse] *)
| EmitTimer                          (* a [sleep(500)] elapses *)
| FinalTimer (now : Z)               (* a [sleep(1000)] elapses, at [Date.now() = now] *)
| DbAnswer (db : insertion)          (* the oldest pending [create] settles *)
| SocketClose                        (* 'close' *)
| SocketError.                       (* 'error' *)

Definition welcomeMessage : WebSocketMessage :=
  Partial "Connected. Ready to receive audio chunks." 100.

Definition errorMessage : WebSocketMessage :=
  ErrorMessage "Failed to process audio chunk" "PROCESSING_ERROR".

Definition words : list string :=
  ["Hello"; "this"; "is"; "a"; "streaming"; "transcription"; "test"; "with";
   "partial"; "results"; "being"; "sent"; "in"; "real"; "time"; "as";
   "audio"; "chunks"; "are"; "processed"]%string.

(** [words.slice(0, n).join(' ')] *)
Fixpoint join_space (l : list string) : string :=
  match l with
  | [] => ""
  | [w] => w
  | w :: rest => (w ++ " " ++ join_space rest)%string
  end.

Definition generatePartialTranscription (chunks : list (option json)) : string :=
  let numWords := Z.min (Z.of_nat (List.length chunks) * 2) (Z.of_nat (List.length words)) in
  join_space (firstn (Z.to_nat numWords) words).

(** [Math.min(0.5 + chunks * 0.05, 0.95)], in hundredths. *)
Definition partial_confidence (chunks : list (option json)) : Z :=
  Z.min (50 + Z.of_nat (List.length chunks) * 5) 95.

Section Session.
Variable sessionId : string.
Variable startTime : Z.

Definition generateFinalTranscription (chunks : list (option json)) : string :=
  ("This is a mock streaming transcription result from "
   ++ Z_to_string (Z.of_nat (List.length chunks)) ++ " audio chunks. "
   ++ "Session ID: " ++ sessionId ++ ". "
   ++ "In a real implementation, this would contain the complete transcription of all received audio data. "
   ++ "The streaming service processed the audio in real-time and generated partial results throughout the session.")%string.

(** [socket.send(m)]: a message handed to a socket that is no longer
    open is not transmitted. *)
Definition send (m : WebSocketMessage) (s : session) : session :=
  match socket s with
  | OPEN =>
      {| chunkCount := chunkCount s; audioChunks := audioChunks s;
         isComplete := isComplete s; emitting := emitting s;
         finalizing := finalizing s; creating := creating s;
         socket := socket s; history := history s ++ [Sent m];
         store := store s |}
  | _ => s
  end.

Definition note (o : occurrence) (s : session) : session :=
  {| chunkCount := chunkCount s; audioChunks := audioChunks s;
     isComplete := isComplete s; emitting := emitting s;
     finalizing := finalizing s; creating := creating s;
     socket := socket s; history := history s ++ [o];
     store := store s |}.

(** [isComplete = true] *)
Definition mark_complete (s : session) : session :=
  {| chunkCount := chunkCount s; audioChunks := audioChunks s;
     isComplete := true; emitting := emitting s;
     finalizing := finalizing s; creating := creating s;
     socket := socket s; history := history s ++ [MarkedComplete];
     store := store s |}.

(** The state right after [transcriptionWebSocket] has run: the welcome
    message is sent and the handlers are installed. *)
Definition connected : session :=
  {| chunkCount := 0; audioChunks := []; isComplete := false;
     emitting := false; finalizing := 0%nat; creating := [];
     socket := OPEN; history := [Sent welcomeMessage]; store := [] |}.

(** [processChunks] from the loop test to the next [await sleep(500)],
    or to the end of the loop. *)
Definition processChunks (s : session) : session :=
  if negb (isComplete s) && (0 <? Z.of_nat (List.length (audioChunks s))) then
    let s1 := send (Partial (generatePartialTranscription (audioChunks s))
                            (partial_confidence (audioChunks s))) s in
    {| chunkCount := chunkCount s1; audioChunks := audioChunks s1;
       isComplete := isComplete s1; emitting := true;
       finalizing := finalizing s1; creating := creating s1;
       socket := socket s1; history := history s1; store := store s1 |}
  else
    {| chunkCount := chunkCount s; audioChunks := audioChunks s;
       isComplete := isComplete s; emitting := false;
       finalizing := finalizing s; creating := creating s;
       socket := socket s; history := history s; store := store s |}.

(** [data.data], as pushed on [audioChunks]. *)
Definition payload (data : json) : option json :=
  match get_prop data "data" with
  | Return v => v
  | Throw _ => None
  end.

(** The body of [if (data.type === 'chunk')] up to its first [await]. *)
Definition accept_chunk (data : json) (s : session) : session :=
  let pushed := payload data in
  let s1 := {| chunkCount := chunkCount s + 1;
               audioChunks := audioChunks s ++ [pushed];
               isComplete := isComplete s; emitting := emitting s;
               finalizing := finalizing s; creating := creating s;
               socket := socket s; history := history s; store := store s |} in
  let s2 := if chunkCount s1 =? 1 then processChunks s1 else s1 in
  let last := match get_prop data "isLast" with
              | Return v => truthy v
              | Throw _ => false
              end in
  if last then
    let s3 := mark_complete s2 in
    {| chunkCount := chunkCount s3; audioChunks := audioChunks s3;
       isComplete := isComplete s3; emitting := emitting s3;
       finalizing := S (finalizing s3); creating := creating s3;
       socket := socket s3; history := history s3; store := store s3 |}
  else s2.

(** The 'message' handler up to its first [await]. *)
Definition on_message (parsed : option json) (s : session) : session :=
  let s0 := note (Received parsed) s in
  match parsed with
  | None => send errorMessage s0                 (* [JSON.parse] threw *)
  | Some data =>
      match get_prop data "type" with
      | Throw _ => send errorMessage s0          (* [data] is [null] *)
      | Return ty =>
          if is_chunk_string ty then accept_chunk data s0
          else s0                                (* [logWarn('Unknown message type received')] *)
      end
  end.

(** After [await sleep(1000)]: the final text, and the call to
    [TranscriptionModel.create]. *)
Definition final_document (now : Z) (s : session) : NewTranscription * string :=
  let finalText := generateFinalTranscription (audioChunks s) in
  ({| new_audioUrl := ("ws://streaming-session/" ++ sessionId)%string;
      new_transcription := finalText;
      new_source := mock;
      new_language := None;
      new_metadata := Some {| Store.sessionId := sessionId;
                              duration := now - startTime;
                              Store.chunkCount := chunkCount s |} |},
   finalText).

Definition on_final_timer (now : Z) (s : session) : option session :=
  match finalizing s with
  | O => None
  | S waiting =>
      Some {| chunkCount := chunkCount s; audioChunks := audioChunks s;
              isComplete := isComplete s; emitting := emitting s;
              finalizing := waiting;
              creating := creating s ++ [final_document now s];
              socket := socket s; history := history s; store := store s |}
  end.

(** [socket.close()] *)
Definition close (s : session) : session :=
  {| chunkCount := chunkCount s; audioChunks := audioChunks s;
     isComplete := isComplete s; emitting := emitting s;
     finalizing := finalizing s; creating := creating s;
     socket := match socket s with OPEN => CLOSING | other => other end;
     history := history s ++ [CloseCalled]; store := store s |}.

(** After [await TranscriptionModel.create(...)]: the final message and
    the close, or the [catch] block. *)
Definition on_db_answer (db : insertion) (s : session) : option session :=
  match creating s with
  | [] => None
  | (doc, finalText) :: waiting =>
      let s0 := {| chunkCount := chunkCount s; audioChunks := audioChunks s;
                   isComplete := isComplete s; emitting := emitting s;
                   finalizing := finalizing s; creating := waiting;
                   socket := socket s; history := history s; store := store s |} in
      match create db doc (store s) with
      | (Return transcriptionDoc, stored) =>
          let s1 := {| chunkCount := chunkCount s0; audioChunks := audioChunks s0;
                       isComplete := isComplete s0; emitting := emitting s0;
                       finalizing := finalizing s0; creating := creating s0;
                       socket := socket s0;
                       history := history s0 ++ [Persisted transcriptionDoc];
                       store := stored |} in
          Some (close (send (Final finalText (Store.id transcriptionDoc)) s1))
      | (Throw _, _) => Some (send errorMessage s0)
      end
  end.

Definition on_close (s : session) : session :=
  let s1 := mark_complete s in
  {| chunkCount := chunkCount s1; audioChunks := audioChunks s1;
     isComplete := isComplete s1; emitting := emitting s1;
     finalizing := finalizing s1; creating := creating s1;
     socket := CLOSED; history := history s1; store := store s1 |}.

Definition on_error (s : session) : session := mark_complete s.

(** One delivery; [None] when the event loop cannot deliver that input
    in that state. *)
Definition step (s : session) (i : input) : option session :=
  match i with
  | Message parsed =>
      match socket s with
      | CLOSED => None
      | _ => Some (on_message parsed s)
      end
  | EmitTimer => if emitting s then Some (processChunks s) else None
  | FinalTimer now => on_final_timer now s
  | DbAnswer db => on_db_answer db s
  | SocketClose =>
      match socket s with
      | CLOSED => None
      | _ => Some (on_close s)
      end
  | SocketError => Some (on_error s)
  end.

Fixpoint run (s : session) (inputs : list input) : option session :=
  match inputs with
  | [] => Some s
  | i :: rest =>
      match step s i with
      | Some s' => run s' rest
      | None => None
      end
  end.

End Session.

(** The messages transmitted on the connection, in order. *)
Definition outbound (h : list occurrence) : list WebSocketMessage :=
  flat_map (fun o => match o with Sent m => [m] | _ => [] end) h.

Definition is_partial (m : WebSocketMessage) : bool :=
  match m with Partial _ _ => true | _ => false end.

Definition is_final (m : WebSocketMessage) : bool :=
  match m with Final _ _ => true | _ => false end.

(** The handler takes a parsed message for a chunk. *)
Definition is_chunk (parsed : option json) : bool :=
  match parsed with
  | Some data =>
      match get_prop data "type" with
      | Return ty => is_chunk_string ty
      | Throw _ => false
      end
  | None => false
  end.

(** ... and for the last chunk. *)
Definition is_last_chunk (parsed : option json) : bool :=
  is_chunk parsed
  && match parsed with
     | Some data =>
         match get_prop data "isLast" with
         | Return v => truthy v
         | Throw _ => false
         end
     | None => false
     end.


(** A chunk message as a client builds it. *)
Definition chunk (data : string) (isLast : bool) : option json :=
  Some (JsonObject [("type", JsonString "chunk");
                    ("data", JsonString data);
                    ("isLast", JsonBool isLast)]%string).

End Stream.

(** Properties of a session's history, as checks that run. *)
Module StreamSpec.
Import Stream.

Definition is_sent (o : occurrence) : bool :=
  match o with Sent _ => true | _ => false end.

Definition is_sent_partial (o : occurrence) : bool :=
  match o with Sent (Partial _ _) => true | _ => false end.

Definition is_sent_final (o : occurrence) : bool :=
  match o with Sent (Final _ _) => true | _ => false end.

Definition is_marked (o : occurrence) : bool :=
  match o with MarkedComplete => true | _ => false end.

Definition is_received_chunk (o : occurrence) : bool :=
  match o with Received p => is_chunk p | _ => false end.

Definition no_sent (h : list occurrence) : bool := negb (existsb is_sent h).
Definition no_partial (h : list occurrence) : bool := negb (existsb is_sent_partial h).
Definition has_final (h : list occurrence) : bool := existsb is_sent_final h.
Definition has_marked (h : list occurrence) : bool := existsb is_marked h.
Definition has_chunk (h : list occurrence) : bool := existsb is_received_chunk h.

(** Nothing is sent after a final message. *)
Fixpoint final_last (h : list occurrence) : bool :=
  match h with
  | [] => true
  | Sent (Final _ _) :: rest => no_sent rest
  | _ :: rest => final_last rest
  end.

(** No partial is sent once the session is marked complete. *)
Fixpoint quiet_once_complete (h : list occurrence) : bool :=
  match h with
  | [] => true
  | MarkedComplete :: rest => no_partial rest
  | _ :: rest => quiet_once_complete rest
  end.

(** The receipt of a last chunk is followed at once by the mark, or by
    one partial and then the mark when no chunk was received before. *)
Definition marked_next (seen_chunk : bool) (rest : list occurrence) : bool :=
  match rest with
  | MarkedComplete :: _ => true
  | Sent m :: MarkedComplete :: _ => is_partial m && negb seen_chunk
  | _ => false
  end.

Fixpoint marked_after_last (seen_chunk : bool) (h : list occurrence) : bool :=
  match h with
  | [] => true
  | Received p :: rest =>
      (if is_last_chunk p then marked_next seen_chunk rest else true)
      && marked_after_last (seen_chunk || is_chunk p) rest
  | _ :: rest => marked_after_last seen_chunk rest
  end.

(** The claim as the specification words it: no partial after the
    receipt of a chunk with [isLast = true]. *)
Definition no_partial_after_last_chunk (h : list occurrence) : Prop :=
  forall h1 p h2,
    h = h1 ++ Received p :: h2 -> is_last_chunk p = true ->
    forall t c, ~ In (Sent (Partial t c)) h2.


(** The records a history shows persisted, in order. *)
Definition persisted (h : list occurrence) : list Store.ITranscription :=
  flat_map (fun o => match o with Persisted d => [d] | _ => [] end) h.


(** A chunk message as the protocol declares it: an object whose [type]
    is ['chunk'], whose [data] is a string and whose [isLast] is a
    boolean. *)
Definition well_formed_chunk (parsed : option json) : bool :=
  match parsed with
  | Some (JsonObject fields) =>
      match lookup_last "type" fields,
            lookup_last "data" fields,
            lookup_last "isLast" fields with
      | Some (JsonString ty), Some (JsonString _), Some (JsonBool _) =>
          (ty =? "chunk")%string
      | _, _, _ => false
      end
  | _ => false
  end.




(** A message that parses but is not a chunk message. *)
Definition ping : option json :=
  Some (JsonObject [("type", JsonString "ping")]%string).

(** What holds of a session at every moment. *)
Definition Inv (s : session) : Prop :=
  hd_error (history s) = Some (Sent welcomeMessage) /\
  (isComplete s = false -> has_marked (history s) = false) /\
  (socket s = OPEN -> has_final (history s) = false) /\
  final_last (history s) = true /\
  quiet_once_complete (history s) = true /\
  0 <= chunkCount s /\
  (chunkCount s = 0 -> has_chunk (history s) = false) /\
  marked_after_last false (history s) = true.


(** The stages of a session that receives a chunk [m1] that is not the
    last and then a last chunk [m2]. *)
Section TwoChunks.
Variable sessionId : string.
Variable startTime : Z.
Variables m1 m2 : option json.









End TwoChunks.

(** Inputs of sample sessions. *)
Definition single_last_chunk : list input := [Message (chunk "a" true)].

Definition two_chunk_session : list input :=
  [Message (chunk "chunk-1" false); EmitTimer;
   Message (chunk "chunk-2" true); EmitTimer;
   FinalTimer 1500; DbAnswer (Store.Inserted "65f0" 1700)].



End StreamSpec.

(* ================================================================== *)
(** * Further definitions: the rest of the cited files                 *)
(* ================================================================== *)

Module RetryBounds.
Import Retry RetrySpec.

(** The time a run spends in [sleep], in milliseconds. *)
Definition total_delay (tr : list event) : Z := fold_right Z.add 0 (delays tr).

End RetryBounds.

Module UrlDefs.
(** Whether a character occurs in a string. *)
Fixpoint contains (c : ascii) (s : string) : bool :=
  match s with
  | EmptyString => false
  | String a rest => Ascii.eqb a c || contains c rest
  end.
End UrlDefs.

Module DownloadSamples.
Import Retry Adapters.

(** A configuration that allows no attempt at all. *)
Definition no_attempt_config : Config :=
  {| isTest := true;
     azure_speechKey := None;
     azure_speechRegion := None;
     retry_maxAttempts := 0;
     retry_initialDelay := 1000;
     retry_maxDelay := 10000 |}.

(** A network that answers every request with a time-out. *)
Definition timing_out : string -> nat -> settled HttpResponse :=
  fun _ _ => Reject (JErr (new_Error "timeout of 30000ms exceeded")).

Definition production_config : Config :=
  {| isTest := false;
     azure_speechKey := None;
     azure_speechRegion := None;
     retry_maxAttempts := 3;
     retry_initialDelay := 1000;
     retry_maxDelay := 10000 |}.

End DownloadSamples.

Module PipelineSamples.
Import Retry Store Adapters.

(** A real speech client built without credentials. *)
Definition unconfigured_client : RealSpeechClient :=
  {| speechKey := None; speechRegion := None;
     sessions := fun _ => Session [] 60000 |}.

(** A provider that ends each session at once, having recognised
    nothing. *)
Definition nothing_recognised : sdk_session := Session [SessionStopped 1200] 60000.

(** The document the provider pipeline stores for a mock recognition. *)
Definition mock_recognition_doc (assigned_id : string) (t : Z)
  (audioUrl : string) (lang : LanguageCode) : ITranscription :=
  {| Store.id := assigned_id;
     Store.audioUrl := Url.trim audioUrl;
     Store.transcription := mock_sentence lang;
     Store.source := azure;
     Store.language := Some lang;
     Store.metadata := None;
     Store.createdAt := t |}.

End PipelineSamples.

Module SpeechSettling.
Import Adapters.

(** The event settles a pending call. *)
Definition settles (e : sdk_event) : bool :=
  match e with
  | Recognized _ _ => false
  | _ => true
  end.

(** What a settling event makes of a pending call that has accumulated
    [acc]. *)
Definition settlement (lang : Store.LanguageCode) (acc : string) (e : sdk_event)
  : promise :=
  match e with
  | Recognized _ _ => Pending
  | SessionStopped elapsed =>
      Fulfilled {| text := Url.trim acc; confidence := Some 90;
                   language := lang; duration := Some elapsed |}
  | Canceled CancelError details _ =>
      Rejected (JErr (new_ExternalServiceError details "Azure Speech"))
  | Canceled _ _ elapsed =>
      Fulfilled {| text := Url.trim acc; confidence := None;
                   language := lang; duration := Some elapsed |}
  | StartFailed err =>
      Rejected (JErr (new_ExternalServiceError err "Azure Speech"))
  | TimeoutFired elapsed =>
      if (acc =? "")%string
      then Rejected (JErr (new_ExternalServiceError "Transcription timeout"
                                                    "Azure Speech"))
      else Fulfilled {| text := Url.trim acc; confidence := None;
                        language := lang; duration := Some elapsed |}
  end.

End SpeechSettling.

(** services/transcription.service.ts: [getRecentTranscriptions]. *)
Module Listing.
Import Store Response.

Record TranscriptionsList := {
  count : Z;
  list_page : Z;
  list_limit : Z;
  list_totalPages : option Z;
  list_transcriptions : list TranscriptionResponse
}.

Definition getRecentTranscriptions (env : QueryEnv)
  (now : Z) (c : collection) (days page limit : Z) (source : option string)
  : completion TranscriptionsList :=
  match findRecentTranscriptions env now c days page limit source with
  | Throw v => Throw v
  | Return result =>
      Return {| count := total result;
                list_page := Store.page result;
                list_limit := Store.limit result;
                list_totalPages := totalPages result;
                list_transcriptions := map of_doc (transcriptions result) |}
  end.

End Listing.

Module StreamAccounting.
Import Store Stream StreamSpec.

(** How many chunk messages, and how many last chunks, a history holds. *)
Definition count_chunks (h : list occurrence) : nat :=
  List.length (filter is_received_chunk h).

Definition is_received_last (o : occurrence) : bool :=
  match o with Received p => is_last_chunk p | _ => false end.

Definition count_last (h : list occurrence) : nat :=
  List.length (filter is_received_last h).

Definition count_finals (ms : list WebSocketMessage) : nat :=
  List.length (filter is_final ms).

Section Records.
Variable sessionId : string.

(** A record of this session, made when at most [n] chunks had been
    received. *)
Definition session_record (n : Z) (d : ITranscription) : Prop :=
  Store.source d = mock /\
  Store.language d = None /\
  exists duration k,
    Store.metadata d = Some {| Store.sessionId := sessionId;
                               Store.duration := duration;
                               Store.chunkCount := k |} /\
    1 <= k <= n.

(** A document waiting for the database, with the final text that goes
    with it. *)
Definition session_document_ok (n : Z) (w : NewTranscription * string) : Prop :=
  new_source (fst w) = mock /\
  new_language (fst w) = None /\
  new_transcription (fst w) = snd w /\
  exists duration k,
    new_metadata (fst w) = Some {| Store.sessionId := sessionId;
                                   Store.duration := duration;
                                   Store.chunkCount := k |} /\
    1 <= k <= n.

(** What holds of the counters and of the store of a session at every
    moment. *)
Definition Accounted (s : session) : Prop :=
  chunkCount s = Z.of_nat (List.length (audioChunks s)) /\
  chunkCount s = Z.of_nat (count_chunks (history s)) /\
  store s = persisted (history s) /\
  Forall (session_record (chunkCount s)) (store s) /\
  Forall (session_document_ok (chunkCount s)) (creating s) /\
  (finalizing s + List.length (creating s) + List.length (store s)
   <= count_last (history s))%nat /\
  (forall t i, In (Sent (Final t i)) (history s) ->
     exists d, In d (store s) /\ Store.id d = i /\ Store.transcription d = t).

End Records.
End StreamAccounting.
Module PartialDefs.
Import Stream.

(** [words.slice(0, k).join(' ')] *)
Definition first_words (k : nat) : string := join_space (firstn k words).

End PartialDefs.
(* ================================================================== *)
(** * Theorems                                                         *)
(* ================================================================== *)

Module RetryFacts.
Import Retry RetrySpec.

Section Loop.
Context {T : Type}.
Variable fn : nat -> settled T.
Variable options : RetryOptions.

Lemma spec_delay_backoff (n : Z) :
  spec_delay_before options (n + 1) = backoff_delay options n.
Proof.
  unfold spec_delay_before, backoff_delay.
  replace (n + 1 - 2) with (n - 1) by lia. reflexivity.
Qed.

Lemma loop_exit (attempt : Z) lastError ncalls tr :
  maxAttempts options < attempt ->
  attempt_loop fn options attempt lastError ncalls tr
  = mkRun (Throw (throw_lastError lastError)) ncalls tr.
Proof.
  intros H. rewrite attempt_loop_equation_1.
  destruct (Z_le_dec attempt (maxAttempts options)); [lia | reflexivity].
Qed.

Lemma loop_resolve (attempt : Z) lastError ncalls tr t :
  attempt <= maxAttempts options ->
  fn (S ncalls) = Resolve t ->
  attempt_loop fn options attempt lastError ncalls tr
  = mkRun (Return t) (S ncalls) (tr ++ [EvCall attempt None]).
Proof.
  intros H Hfn. rewrite attempt_loop_equation_1.
  destruct (Z_le_dec attempt (maxAttempts options)); [| lia].
  cbn. rewrite Hfn. reflexivity.
Qed.

Lemma loop_reject_last (attempt : Z) lastError ncalls tr v :
  attempt = maxAttempts options ->
  fn (S ncalls) = Reject v ->
  attempt_loop fn options attempt lastError ncalls tr
  = mkRun (Throw (JErr (normalise v))) (S ncalls)
          (tr ++ [EvCall attempt (Some v)]).
Proof.
  intros H Hfn. rewrite attempt_loop_equation_1.
  destruct (Z_le_dec attempt (maxAttempts options)); [| lia].
  cbn. rewrite Hfn. cbn.
  destruct (Z.eq_dec attempt (maxAttempts options)); [reflexivity | lia].
Qed.

Lemma loop_reject_retry (attempt : Z) lastError ncalls tr v :
  attempt < maxAttempts options ->
  Z.of_nat (S ncalls) = attempt ->
  fn (S ncalls) = Reject v ->
  attempt_loop fn options attempt lastError ncalls tr
  = attempt_loop fn options (attempt + 1) (Some (normalise v)) (S ncalls)
      (tr ++ failed_round fn options (S ncalls)).
Proof.
  intros H Hn Hfn. rewrite attempt_loop_equation_1.
  destruct (Z_le_dec attempt (maxAttempts options)); [| lia].
  cbn. rewrite Hfn. cbn.
  destruct (Z.eq_dec attempt (maxAttempts options)); [lia |].
  unfold failed_round. rewrite Hfn, Hn, spec_delay_backoff.
  unfold observer_events. reflexivity.
Qed.

(** Attempts a+1 .. a+len all fail and none of them is the last one: the
    loop goes through their rounds and arrives at attempt a+len+1. *)
Lemma loop_failed_prefix (len : nat) : forall (a : nat) lastError tr,
  Z.of_nat (a + len) < maxAttempts options ->
  (forall n, (a < n <= a + len)%nat -> exists v, fn n = Reject v) ->
  exists lastError',
    attempt_loop fn options (Z.of_nat a + 1) lastError a tr
    = attempt_loop fn options (Z.of_nat (a + len) + 1) lastError' (a + len)%nat
        (tr ++ flat_map (failed_round fn options) (seq (S a) len)).
Proof.
  induction len as [| len IH]; intros a lastError tr Hlt Hfail.
  - exists lastError. rewrite Nat.add_0_r, app_nil_r. reflexivity.
  - destruct (Hfail (S a)) as [v Hv]; [lia |].
    rewrite (loop_reject_retry _ _ _ _ v); [| lia | lia | exact Hv].
    destruct (IH (S a) (Some (normalise v)) (tr ++ failed_round fn options (S a)))
      as [le' Hle'].
    + lia.
    + intros n Hn. apply Hfail. lia.
    + exists le'. replace (Z.of_nat a + 1 + 1) with (Z.of_nat (S a) + 1) by lia.
      rewrite Hle'. replace (S a + len)%nat with (a + S len)%nat by lia.
      cbn [seq flat_map]. rewrite <- app_assoc. reflexivity.
Qed.

(** Whatever the operation does: the loop goes through the rounds of
    some failed attempts and ends with one more call. *)
Lemma loop_schedule (rem : nat) : forall (a : nat) lastError tr,
  Z.of_nat (a + rem) = maxAttempts options -> (1 <= rem)%nat ->
  exists j rejected,
    (j < rem)%nat /\
    (forall n, (a < n <= a + j)%nat -> exists v, fn n = Reject v) /\
    trace (attempt_loop fn options (Z.of_nat a + 1) lastError a tr)
    = tr ++ flat_map (failed_round fn options) (seq (S a) j)
         ++ [EvCall (Z.of_nat (a + j) + 1) rejected].
Proof.
  induction rem as [| rem IH]; intros a lastError tr Hmax Hrem; [lia |].
  destruct (fn (S a)) as [t | v] eqn:Hfn.
  - exists 0%nat, None. split; [lia |]. split; [intros n Hn; lia |].
    rewrite (loop_resolve _ _ _ _ t); [| lia | exact Hfn].
    rewrite Nat.add_0_r. reflexivity.
  - destruct rem as [| rem'].
    + exists 0%nat, (Some v). split; [lia |]. split; [intros n Hn; lia |].
      rewrite (loop_reject_last _ _ _ _ v); [| lia | exact Hfn].
      rewrite Nat.add_0_r. reflexivity.
    + rewrite (loop_reject_retry _ _ _ _ v); [| lia | lia | exact Hfn].
      destruct (IH (S a) (Some (normalise v)) (tr ++ failed_round fn options (S a)))
        as [j [rejected [Hj [Hfail Htrace]]]]; [lia | lia |].
      exists (S j), rejected. split; [lia |]. split.
      * intros n Hn. destruct (Nat.eq_dec n (S a)) as [-> | Hne];
          [exists v; exact Hfn | apply Hfail; lia].
      * replace (Z.of_nat a + 1 + 1) with (Z.of_nat (S a) + 1) by lia.
        rewrite Htrace. cbn [seq flat_map]. rewrite <- !app_assoc.
        replace (S a + j)%nat with (a + S j)%nat by lia. reflexivity.
Qed.

End Loop.

Lemma invocations_app (l1 l2 : list event) :
  invocations (l1 ++ l2) = (invocations l1 + invocations l2)%nat.
Proof. unfold invocations. rewrite filter_app, length_app. reflexivity. Qed.

Lemma delays_app (l1 l2 : list event) :
  delays (l1 ++ l2) = (delays l1 ++ delays l2)%list.
Proof. unfold delays. apply flat_map_app. Qed.

End RetryFacts.

Module RetryResults.
Import Retry RetrySpec RetryFacts.

Section Loop.
Context {T : Type}.
Variable fn : nat -> settled T.
Variable options : RetryOptions.

(** Whatever the operation does, the loop entered at attempt a+1 with
    [rem] attempts left stops at the first invocation that resolves, or
    at the last attempt. *)
Lemma loop_result (rem : nat) : forall (a : nat) lastError tr,
  Z.of_nat (a + rem) = maxAttempts options -> (1 <= rem)%nat ->
  exists j rejected,
    (j < rem)%nat /\
    (forall n, (a < n <= a + j)%nat -> exists v, fn n = Reject v) /\
    calls (attempt_loop fn options (Z.of_nat a + 1) lastError a tr) = S (a + j) /\
    trace (attempt_loop fn options (Z.of_nat a + 1) lastError a tr)
    = tr ++ flat_map (failed_round fn options) (seq (S a) j)
         ++ [EvCall (Z.of_nat (a + j) + 1) rejected] /\
    ((exists t, fn (S (a + j)) = Resolve t /\
                outcome (attempt_loop fn options (Z.of_nat a + 1) lastError a tr)
                = Return t) \/
     (exists v, S j = rem /\ fn (S (a + j)) = Reject v /\
                outcome (attempt_loop fn options (Z.of_nat a + 1) lastError a tr)
                = Throw (JErr (normalise v)))).
Proof.
  induction rem as [| rem IH]; intros a lastError tr Hmax Hrem; [lia |].
  destruct (fn (S a)) as [t | v] eqn:Hfn.
  - exists 0%nat, None. rewrite Nat.add_0_r.
    rewrite (loop_resolve _ _ _ _ _ _ t); [| lia | exact Hfn].
    split; [lia |]. split; [intros n Hn; lia |]. split; [reflexivity |].
    split; [reflexivity |].
    left. exists t. split; [exact Hfn | reflexivity].
  - destruct rem as [| rem'].
    + exists 0%nat, (Some v). rewrite Nat.add_0_r.
      rewrite (loop_reject_last _ _ _ _ _ _ v); [| lia | exact Hfn].
      split; [lia |]. split; [intros n Hn; lia |]. split; [reflexivity |].
      split; [reflexivity |].
      right. exists v. repeat split; [exact Hfn].
    + rewrite (loop_reject_retry _ _ _ _ _ _ v); [| lia | lia | exact Hfn].
      replace (Z.of_nat a + 1 + 1) with (Z.of_nat (S a) + 1) by lia.
      destruct (IH (S a) (Some (normalise v)) (tr ++ failed_round fn options (S a)))
        as [j [rejected [Hj [Hfail [Hcalls [Htrace Hout]]]]]]; [lia | lia |].
      exists (S j), rejected.
      replace (a + S j)%nat with (S a + j)%nat by lia.
      split; [lia |]. split.
      * intros n Hn. destruct (Nat.eq_dec n (S a)) as [-> | Hne];
          [exists v; exact Hfn | apply Hfail; lia].
      * split; [exact Hcalls |]. split.
        { rewrite Htrace. cbn [seq flat_map]. rewrite <- !app_assoc. reflexivity. }
        destruct Hout as [[t [Ht Ho]] | [w [Hlast [Hw Ho]]]].
        -- left. exists t. split; assumption.
        -- right. exists w. repeat split; try assumption. lia.
Qed.

End Loop.


(** What a returned value tells about the invocations. *)
Lemma retry_returns_inv {T : Type} (fn : nat -> settled T) (options : RetryOptions) (t : T) :
  outcome (retryWithBackoff fn options) = Return t ->
  exists n, (1 <= n)%nat /\ Z.of_nat n <= maxAttempts options /\
            fn n = Resolve t /\
            forall m, (1 <= m < n)%nat -> exists v, fn m = Reject v.
Proof.
  intros Hret.
  destruct (Z_lt_le_dec (maxAttempts options) 1) as [Hlow | Hmax].
  - unfold retryWithBackoff in Hret. rewrite loop_exit in Hret by lia.
    discriminate.
  - destruct (loop_result fn options (Z.to_nat (maxAttempts options)) 0 None [])
      as [j [rejected [Hj [Hfail [_ [_ Hout]]]]]]; [lia | lia |].
    change (Z.of_nat 0 + 1) with 1 in *. fold (retryWithBackoff fn options) in *.
    cbn [Nat.add] in *.
    destruct Hout as [[t' [Hfn Ho]] | [v [_ [_ Ho]]]]; rewrite Ho in Hret;
      [| discriminate].
    injection Hret as <-. exists (S j).
    split; [lia |]. split; [lia |]. split; [exact Hfn |].
    intros m Hm. apply Hfail. lia.
Qed.

(** What a thrown value tells about the invocations. *)
Lemma retry_throws_inv {T : Type} (fn : nat -> settled T) (options : RetryOptions)
  (thrown : jsval) :
  outcome (retryWithBackoff fn options) = Throw thrown ->
  (maxAttempts options < 1 /\ thrown = JUndefined) \/
  (1 <= maxAttempts options /\
   exists v, fn (Z.to_nat (maxAttempts options)) = Reject v /\
             thrown = JErr (normalise v)).
Proof.
  intros Hthrow.
  destruct (Z_lt_le_dec (maxAttempts options) 1) as [Hlow | Hmax].
  - unfold retryWithBackoff in Hthrow. rewrite loop_exit in Hthrow by lia.
    cbn in Hthrow. injection Hthrow as <-. left. split; [exact Hlow | reflexivity].
  - right. split; [exact Hmax |].
    destruct (loop_result fn options (Z.to_nat (maxAttempts options)) 0 None [])
      as [j [rejected [Hj [Hfail [_ [_ Hout]]]]]]; [lia | lia |].
    change (Z.of_nat 0 + 1) with 1 in *. fold (retryWithBackoff fn options) in *.
    cbn [Nat.add] in *.
    destruct Hout as [[t' [Hfn Ho]] | [v [Hlast [Hfn Ho]]]]; rewrite Ho in Hthrow;
      [discriminate |].
    injection Hthrow as <-. exists v. rewrite <- Hlast. split; [exact Hfn | reflexivity].
Qed.

End RetryResults.

Module RetryClaims.
Import Retry RetrySpec RetryFacts RetrySamples.

(** An operation that fails on every attempt, under a policy with at
    least one attempt: the trace and the result of the executor. *)
Lemma run_when_always_failing {T : Type} (fn : nat -> settled T) (options : RetryOptions) :
  1 <= maxAttempts options ->
  always_fails fn ->
  exists v,
    fn (Z.to_nat (maxAttempts options)) = Reject v /\
    retryWithBackoff fn options
    = mkRun (Throw (JErr (normalise v))) (Z.to_nat (maxAttempts options))
            (failed_rounds fn options (Z.to_nat (maxAttempts options) - 1)
               ++ [EvCall (maxAttempts options) (Some v)]).
Proof.
  intros Hmax Hfail.
  set (m := Z.to_nat (maxAttempts options)).
  assert (Hm : Z.of_nat m = maxAttempts options) by (subst m; lia).
  destruct (Hfail m) as [v Hv]. exists v. split; [exact Hv |].
  unfold retryWithBackoff.
  destruct (loop_failed_prefix fn options (m - 1) 0 None []) as [le' Hle'].
  - lia.
  - intros n _. apply Hfail.
  - change 1 with (Z.of_nat 0 + 1) at 1. rewrite Hle'.
    rewrite (loop_reject_last fn options _ _ _ _ v).
    + replace (S (0 + (m - 1))) with m by lia.
      replace (Z.of_nat (0 + (m - 1)) + 1) with (maxAttempts options) by lia.
      reflexivity.
    + lia.
    + replace (S (0 + (m - 1))) with m by lia. exact Hv.
Qed.

Lemma invocations_failed_rounds {T : Type} (fn : nat -> settled T) options (k : nat) :
  (forall n, (1 <= n <= k)%nat -> exists v, fn n = Reject v) ->
  invocations (failed_rounds fn options k) = k.
Proof.
  unfold failed_rounds.
  induction k as [| k IH]; intros Hfail; [reflexivity |].
  rewrite seq_S, flat_map_app, invocations_app, IH by (intros; apply Hfail; lia).
  cbn [flat_map]. rewrite app_nil_r.
  destruct (Hfail (1 + k)%nat) as [v Hv]; [lia |].
  unfold failed_round. rewrite Hv.
  destruct (onRetry options); cbn; lia.
Qed.

(** C2, as amended: under a policy with [maxAttempts >= 1], an operation
    that fails on every attempt is invoked exactly [maxAttempts] times,
    and the executor then throws the failure of the last attempt: that
    very value when it is an [Error], and otherwise a new [Error] whose
    message is the string form of the value. *)
Theorem retry_exhausted_throws_last_failure
  {T : Type} (fn : nat -> settled T) (options : RetryOptions) :
  1 <= maxAttempts options ->
  always_fails fn ->
  let r := retryWithBackoff fn options in
  calls r = Z.to_nat (maxAttempts options) /\
  invocations (trace r) = Z.to_nat (maxAttempts options) /\
  exists v,
    fn (Z.to_nat (maxAttempts options)) = Reject v /\
    last (trace r) (EvSleep 0) = EvCall (maxAttempts options) (Some v) /\
    outcome r = Throw (JErr (normalise v)) /\
    (instanceof_Error v = true -> outcome r = Throw v) /\
    (instanceof_Error v = false ->
     outcome r = Throw (JErr (new_Error (String_ v)))).
Proof.
  intros Hmax Hfail r.
  destruct (run_when_always_failing fn options Hmax Hfail) as [v [Hv Hrun]].
  subst r. rewrite Hrun. cbn [calls trace outcome].
  split; [reflexivity |]. split.
  - rewrite invocations_app, invocations_failed_rounds by (intros; apply Hfail).
    cbn. lia.
  - exists v. split; [exact Hv |]. split; [apply last_last |].
    split; [reflexivity |].
    split; intros Hi; destruct v; cbn in Hi; try discriminate; reflexivity.
Qed.

Lemma retry_exhausted_throws_last_failure_witness :
  let r := retryWithBackoff always_fail (policy 2 10 100) in
  calls r = 2%nat /\ outcome r = Throw (JErr (new_Error "Always fail")).
Proof.
  assert (H1 : 1 <= maxAttempts (policy 2 10 100)) by (cbn; lia).
  assert (H2 : always_fails always_fail)
    by (intros n; eexists; reflexivity).
  pose proof (retry_exhausted_throws_last_failure always_fail (policy 2 10 100) H1 H2)
    as [Hc [_ [v [Hv [_ [Ho _]]]]]].
  cbn in Hv. injection Hv as <-.
  split; [exact Hc | exact Ho].
Defined.

(** C2 as stated does not hold: a rejection that is not an [Error] is
    wrapped before it is thrown. *)
Lemma retry_wraps_non_error_rejection :
  1 <= maxAttempts (policy 1 10 100) /\
  always_fails rejects_boom /\
  rejects_boom (Z.to_nat (maxAttempts (policy 1 10 100))) = Reject (JString "boom") /\
  calls (retryWithBackoff rejects_boom (policy 1 10 100)) = 1%nat /\
  outcome (retryWithBackoff rejects_boom (policy 1 10 100))
    = Throw (JErr (new_Error "boom")) /\
  outcome (retryWithBackoff rejects_boom (policy 1 10 100))
    <> Throw (JString "boom").
Proof.
  split; [cbn; lia |].
  split; [intros n; eexists; reflexivity |].
  split; [reflexivity |].
  split; [vm_compute; reflexivity |].
  split; [vm_compute; reflexivity |].
  vm_compute. discriminate.
Qed.

Lemma delays_failed_rounds {T : Type} (fn : nat -> settled T) options (k : nat) :
  (forall n, (1 <= n <= k)%nat -> exists v, fn n = Reject v) ->
  delays (failed_rounds fn options k)
  = map (fun n => spec_delay_before options (Z.of_nat n)) (seq 2 k).
Proof.
  unfold failed_rounds.
  induction k as [| k IH]; intros Hfail; [reflexivity |].
  rewrite seq_S, flat_map_app, delays_app, IH by (intros; apply Hfail; lia).
  rewrite (seq_S k 2), map_app. f_equal.
  cbn [flat_map map]. rewrite app_nil_r.
  destruct (Hfail (1 + k)%nat) as [v Hv]; [lia |].
  unfold failed_round. rewrite Hv.
  replace (Z.of_nat (1 + k) + 1) with (Z.of_nat (2 + k)) by lia.
  destruct (onRetry options); reflexivity.
Qed.

Lemma success_on_attempt_k
  {T : Type} (fn : nat -> settled T) (options : RetryOptions) (k : nat) (t : T) :
  (1 <= k)%nat -> Z.of_nat k <= maxAttempts options ->
  succeeds_on fn k t ->
  retryWithBackoff fn options
  = mkRun (Return t) k
          (failed_rounds fn options (k - 1) ++ [EvCall (Z.of_nat k) None]).
Proof.
  intros Hk Hle [Hfail Hok].
  unfold retryWithBackoff.
  destruct (loop_failed_prefix fn options (k - 1) 0 None []) as [le' Hle'].
  - lia.
  - intros n Hn. apply Hfail. lia.
  - change 1 with (Z.of_nat 0 + 1) at 1. rewrite Hle'.
    rewrite (loop_resolve fn options _ _ _ _ t).
    + replace (S (0 + (k - 1))) with k by lia.
      replace (Z.of_nat (0 + (k - 1)) + 1) with (Z.of_nat k) by lia.
      reflexivity.
    + lia.
    + replace (S (0 + (k - 1))) with k by lia. exact Hok.
Qed.

(** C3: under a policy with [maxAttempts >= 1], whatever the operation
    does, the delays of a run are min(initialDelay * 2^(n-2), maxDelay)
    for the retry attempts n = 2, 3, ... that the run makes.  An
    operation that succeeds on attempt [k] is invoked exactly [k] times
    and its result is returned; the trace is the rounds of the failed
    attempts 1..k-1, each made of the call, the warning, the observer
    (when supplied) called with the attempt number and the error, and
    then the delay, followed by the successful call and nothing more. *)
Theorem retry_succeeds_on_attempt_k
  {T : Type} (fn : nat -> settled T) (options : RetryOptions) :
  1 <= maxAttempts options ->
  let r := retryWithBackoff fn options in
  (exists j, Z.of_nat j < maxAttempts options /\
     delays (trace r)
     = map (fun n => Z.min (initialDelay options * 2 ^ (Z.of_nat n - 2))
                           (maxDelay options))
           (seq 2 j)) /\
  (forall (k : nat) (t : T),
     (1 <= k)%nat -> Z.of_nat k <= maxAttempts options ->
     succeeds_on fn k t ->
     outcome r = Return t /\
     calls r = k /\
     invocations (trace r) = k /\
     trace r = failed_rounds fn options (k - 1) ++ [EvCall (Z.of_nat k) None] /\
     delays (trace r)
     = map (fun n => Z.min (initialDelay options * 2 ^ (Z.of_nat n - 2))
                           (maxDelay options))
           (seq 2 (k - 1))).
Proof.
  intros Hmax r. split.
  - destruct (loop_schedule fn options (Z.to_nat (maxAttempts options)) 0 None [])
      as [j [rejected [Hj [Hfail Htrace]]]]; [lia | lia |].
    exists j. split; [lia |].
    subst r. unfold retryWithBackoff. change 1 with (Z.of_nat 0 + 1) at 1.
    rewrite Htrace. cbn [app].
    rewrite delays_app. cbn [delays flat_map]. rewrite app_nil_r.
    apply (delays_failed_rounds fn options j).
    intros n Hn. apply Hfail. lia.
  - intros k t Hk Hle Hsucc.
    subst r. rewrite (success_on_attempt_k fn options k t Hk Hle Hsucc).
    cbn [outcome calls trace].
    assert (Hfail' : forall n, (1 <= n <= k - 1)%nat -> exists v, fn n = Reject v)
      by (intros n Hn; apply (proj1 Hsucc); lia).
    repeat split.
    + rewrite invocations_app, invocations_failed_rounds by exact Hfail'.
      cbn. lia.
    + rewrite delays_app, delays_failed_rounds by exact Hfail'.
      cbn [delays flat_map]. rewrite app_nil_r. reflexivity.
Qed.

Lemma retry_succeeds_on_attempt_k_witness :
  let r := retryWithBackoff third_time_lucky (observed_policy 3 10 15) in
  outcome r = Return "success" /\ calls r = 3%nat /\
  delays (trace r) = [10; 15] /\
  trace r =
    [EvCall 1 (Some (JErr (new_Error "Fail 1")));
     EvLogWarn 1 3 10 "Fail 1";
     EvOnRetry 1 (new_Error "Fail 1") ["retry 1: Fail 1"%string];
     EvSleep 10;
     EvCall 2 (Some (JErr (new_Error "Fail 2")));
     EvLogWarn 2 3 15 "Fail 2";
     EvOnRetry 2 (new_Error "Fail 2") ["retry 2: Fail 2"%string];
     EvSleep 15;
     EvCall 3 None].
Proof.
  assert (H1 : 1 <= maxAttempts (observed_policy 3 10 15)) by (cbn; lia).
  assert (H2 : (1 <= 3)%nat) by lia.
  assert (H3 : Z.of_nat 3 <= maxAttempts (observed_policy 3 10 15)) by (cbn; lia).
  assert (H4 : succeeds_on third_time_lucky 3 "success").
  { split; [| reflexivity].
    intros n Hn.
    destruct n as [| [| [| n]]]; try lia; eexists; reflexivity. }
  pose proof (retry_succeeds_on_attempt_k third_time_lucky
                (observed_policy 3 10 15) H1)
    as [_ Hk].
  destruct (Hk 3%nat "success"%string H2 H3 H4) as [Ho [Hc [_ [Ht Hd]]]].
  split; [exact Ho |]. split; [exact Hc |].
  split; [rewrite Hd; reflexivity |].
  rewrite Ht. reflexivity.
Defined.

(** For [maxAttempts = 3, initialDelay = d, maxDelay = M] the delays
    before attempts 2 and 3 are min(d, M) and min(2d, M). *)
Example delays_of_three_attempts (d M : Z) :
  map (spec_delay_before (policy 3 d M)) [2; 3] = [Z.min d M; Z.min (2 * d) M].
Proof.
  unfold spec_delay_before. cbn [map initialDelay maxDelay policy].
  replace (2 - 2) with 0 by lia. replace (3 - 2) with 1 by lia.
  rewrite Z.pow_0_r, Z.pow_1_r. do 2 f_equal; f_equal; lia.
Qed.

(** C10: a policy whose [maxAttempts] is below 1 never invokes the
    operation; the loop body is not entered and the trailing
    [throw lastError] throws [undefined], which is not an [Error]. *)
Theorem retry_without_attempts_throws_undefined
  {T : Type} (fn : nat -> settled T) (options : RetryOptions) :
  maxAttempts options < 1 ->
  let r := retryWithBackoff fn options in
  calls r = 0%nat /\
  trace r = [] /\
  invocations (trace r) = 0%nat /\
  outcome r = Throw JUndefined /\
  instanceof_Error JUndefined = false.
Proof.
  intros H r. subst r. unfold retryWithBackoff.
  rewrite loop_exit by lia. cbn. repeat split; reflexivity.
Qed.

Lemma retry_without_attempts_throws_undefined_witness :
  let r := retryWithBackoff third_time_lucky (policy 0 10 100) in
  calls r = 0%nat /\ outcome r = Throw JUndefined.
Proof.
  assert (H : maxAttempts (policy 0 10 100) < 1) by (cbn; lia).
  pose proof (retry_without_attempts_throws_undefined third_time_lucky
                (policy 0 10 100) H) as [Hc [_ [_ [Ho _]]]].
  split; [exact Hc | exact Ho].
Defined.

End RetryClaims.

Module StoreFacts.
Import Store StoreSpec.

Lemma insert_desc_perm (r : ITranscription) (l : list ITranscription) :
  Permutation (insert_desc r l) (r :: l).
Proof.
  induction l as [| x rest IH]; cbn; [apply Permutation_refl |].
  destruct (createdAt x <? createdAt r); [apply Permutation_refl |].
  eapply perm_trans; [apply perm_skip, IH | apply perm_swap].
Qed.

Lemma insertion_sort_desc_perm (l : list ITranscription) :
  Permutation (insertion_sort_desc l) l.
Proof.
  induction l as [| x rest IH]; cbn; [constructor |].
  eapply perm_trans; [apply insert_desc_perm | apply perm_skip, IH].
Qed.

Lemma insert_desc_sorted (r : ITranscription) (l : list ITranscription) :
  StronglySorted newer_first l -> StronglySorted newer_first (insert_desc r l).
Proof.
  induction l as [| x rest IH]; intros Hs; cbn.
  - repeat constructor.
  - inversion Hs as [| ? ? Hrest Hall]; subst.
    destruct (createdAt x <? createdAt r) eqn:E.
    + apply Z.ltb_lt in E. constructor; [exact Hs |].
      constructor; [unfold newer_first; lia |].
      eapply Forall_impl; [| exact Hall].
      unfold newer_first. intros a Ha. lia.
    + apply Z.ltb_ge in E. constructor; [apply IH, Hrest |].
      eapply Permutation_Forall;
        [apply Permutation_sym, insert_desc_perm |].
      constructor; [exact E | exact Hall].
Qed.

Lemma insertion_sort_desc_sorted (l : list ITranscription) :
  StronglySorted newer_first (insertion_sort_desc l).
Proof.
  induction l as [| x rest IH]; cbn; [constructor |].
  apply insert_desc_sorted, IH.
Qed.

(** The sample database sorts. *)
Lemma insertion_sort_sorts : sorts_newest_first insertion_sort_desc.
Proof.
  intros l. split; [apply insertion_sort_desc_perm | apply insertion_sort_desc_sorted].
Qed.

Lemma In_firstn_inv {A : Type} (n : nat) (l : list A) (x : A) :
  In x (firstn n l) -> In x l.
Proof.
  intros H. rewrite <- (firstn_skipn n l). apply in_or_app. left. exact H.
Qed.

Lemma In_skipn_inv {A : Type} (n : nat) (l : list A) (x : A) :
  In x (skipn n l) -> In x l.
Proof.
  intros H. rewrite <- (firstn_skipn n l). apply in_or_app. right. exact H.
Qed.

Lemma source_str_eqb (a b : TranscriptionSource) :
  (source_str a =? source_str b)%string = source_eqb a b.
Proof. destruct a, b; reflexivity. Qed.

Lemma source_str_nonempty (o : TranscriptionSource) :
  (source_str o =? "")%string = false.
Proof. destruct o; reflexivity. Qed.

Lemma matches_selected threshold (origin : option TranscriptionSource) r :
  matches (build_query threshold (option_map source_str origin)) r
  = selected threshold origin r.
Proof.
  unfold matches, build_query, selected. cbn.
  destruct origin as [o |]; cbn; [| reflexivity].
  rewrite source_str_nonempty, source_str_eqb. reflexivity.
Qed.

Lemma ceil_div_bounds (total limit : Z) :
  1 <= limit ->
  exists tp, Math_ceil_div total limit = Some tp /\
             (tp - 1) * limit < total <= tp * limit.
Proof.
  intros Hl. unfold Math_ceil_div.
  destruct (limit =? 0) eqn:E; [apply Z.eqb_eq in E; lia |].
  eexists. split; [reflexivity |].
  pose proof (Z.div_mod (- total) limit ltac:(lia)) as Hdm.
  pose proof (Z.mod_pos_bound (- total) limit ltac:(lia)) as Hb.
  nia.
Qed.

(** The answer for a valid date, a page >= 1 and a page size >= 1. *)
Lemma findRecentTranscriptions_page (env : QueryEnv)
  (now : Z) (c : collection) (days page limit : Z) (source : option string)
  (threshold : Z) :
  Date_days_back env now days = Some threshold ->
  1 <= page -> 1 <= limit ->
  findRecentTranscriptions env now c days page limit source
  = Return {| transcriptions :=
                firstn (Z.to_nat limit)
                  (skipn (Z.to_nat ((page - 1) * limit))
                     (sort_createdAt_desc env (find (build_query threshold source) c)));
              total := countDocuments (build_query threshold source) c;
              Store.page := page;
              Store.limit := limit;
              totalPages :=
                Math_ceil_div (countDocuments (build_query threshold source) c) limit |}.
Proof.
  intros Hd Hp Hl. unfold findRecentTranscriptions, skip, limit_. rewrite Hd.
  destruct ((page - 1) * limit <? 0) eqn:E; [apply Z.ltb_lt in E; nia |].
  destruct (limit =? 0) eqn:E0; [apply Z.eqb_eq in E0; lia |].
  rewrite Z.abs_eq by lia. reflexivity.
Qed.

End StoreFacts.

Module StoreClaims.
Import Store StoreSpec StoreFacts.

(** C8, as amended: for every collection, every origin filter, every
    page >= 1 and page size >= 1, and every [daysBack] for which the
    date [daysBack] days before now is a valid date (the threshold), the
    query answers with the page-th slice of the selected records (those
    created no earlier than the threshold, of the given origin when one
    is asked for) ordered by [createdAt], newest first; the slice holds
    at most [pageSize] records, [total] is the number of selected
    records and [totalPages] is the ceiling of [total / pageSize]. *)
Theorem findRecentTranscriptions_returns_selected_page
  (env : QueryEnv) (now : Z) (c : collection) (days page limit : Z)
  (origin : option TranscriptionSource) (threshold : Z) :
  sorts_newest_first (sort_createdAt_desc env) ->
  Date_days_back env now days = Some threshold ->
  1 <= page -> 1 <= limit ->
  exists p sorted,
    findRecentTranscriptions env now c days page limit (option_map source_str origin)
      = Return p /\
    Permutation sorted (filter (selected threshold origin) c) /\
    StronglySorted newer_first sorted /\
    transcriptions p
      = firstn (Z.to_nat limit) (skipn (Z.to_nat ((page - 1) * limit)) sorted) /\
    (List.length (transcriptions p) <= Z.to_nat limit)%nat /\
    (forall r, In r (transcriptions p) ->
               In r c /\ selected threshold origin r = true) /\
    total p = Z.of_nat (List.length (filter (selected threshold origin) c)) /\
    Store.page p = page /\ Store.limit p = limit /\
    exists tp, totalPages p = Some tp /\
               (tp - 1) * limit < total p <= tp * limit.
Proof.
  intros Hsort Hdate Hpage Hlimit.
  set (q := build_query threshold (option_map source_str origin)).
  assert (Hfilter : filter (matches q) c = filter (selected threshold origin) c).
  { apply filter_ext. intros r. apply matches_selected. }
  rewrite (findRecentTranscriptions_page env now c days page limit _ threshold)
    by assumption.
  fold q.
  eexists. exists (sort_createdAt_desc env (find q c)).
  split; [reflexivity |]. cbn [transcriptions total Store.page Store.limit totalPages].
  destruct (Hsort (find q c)) as [Hperm0 Hsorted].
  assert (Hperm : Permutation (sort_createdAt_desc env (find q c))
                              (filter (selected threshold origin) c)).
  { unfold find in *. rewrite <- Hfilter. exact Hperm0. }
  split; [exact Hperm |].
  split; [exact Hsorted |].
  split; [reflexivity |].
  split; [apply firstn_le_length |].
  split.
  - intros r Hin.
    apply In_firstn_inv, In_skipn_inv in Hin.
    pose proof (Permutation_in _ Hperm Hin) as Hsel.
    apply filter_In in Hsel. exact Hsel.
  - unfold countDocuments. rewrite Hfilter.
    split; [reflexivity |]. split; [reflexivity |]. split; [reflexivity |].
    apply ceil_div_bounds. exact Hlimit.
Qed.

Lemma findRecentTranscriptions_returns_selected_page_witness :
  exists p,
    findRecentTranscriptions utc_env sample_now three_records 30 1 1 None = Return p /\
    (List.length (transcriptions p) <= 1)%nat /\
    total p = 2 /\ totalPages p = Some 2.
Proof.
  assert (H1 : 1 <= 1) by lia.
  assert (Hd : Date_days_back utc_env sample_now 30 = Some (70 * ms_per_day))
    by reflexivity.
  destruct (findRecentTranscriptions_returns_selected_page
              utc_env sample_now three_records 30 1 1 None (70 * ms_per_day)
              insertion_sort_sorts Hd H1 H1)
    as [p [sorted [Hp [_ [_ [_ [Hlen [_ [Htot [_ [_ [tp [Htp Hb]]]]]]]]]]]]].
  exists p. split; [exact Hp |]. split; [exact Hlen |].
  assert (Ht : total p = 2) by (rewrite Htot; reflexivity).
  split; [exact Ht |].
  rewrite Htp. f_equal. lia.
Defined.

(** C8 as stated does not hold for every [daysBack], [page] and
    [pageSize].  In a process in UTC, over the three sample records:
    a [daysBack] that leaves the range of [Date] makes the threshold an
    Invalid Date and the query throws; page 0 asks the database to skip
    a negative number of records and the query throws; page size 0 is
    no limit, so the page holds the two selected records and
    [totalPages] is not a number; page size -1 is taken for 1, so the
    page holds one record, more than the page size, and [totalPages]
    is negative. *)
Lemma query_outside_its_domain :
  Date_days_back utc_env sample_now 1000000000 = None /\
  findRecentTranscriptions utc_env sample_now three_records 1000000000 1 10 None
    = Throw sample_CastError /\
  (exists v,
     findRecentTranscriptions utc_env sample_now three_records 30 0 10 None
       = Throw v) /\
  (exists p,
     findRecentTranscriptions utc_env sample_now three_records 30 1 0 None
       = Return p /\
     List.length (transcriptions p) = 2%nat /\
     total p = 2 /\ totalPages p = None) /\
  (exists p,
     findRecentTranscriptions utc_env sample_now three_records 30 1 (-1) None
       = Return p /\
     List.length (transcriptions p) = 1%nat /\
     total p = 2 /\ totalPages p = Some (-2)).
Proof.
  split; [reflexivity |]. split; [reflexivity |].
  split; [eexists; reflexivity |].
  split; eexists; (split; [reflexivity |]); repeat split.
Qed.

(** The list-query scenario of the specification: records at now, 20
    days ago and 40 days ago. *)
Example query_last_30_days :
  exists p,
    findRecentTranscriptions utc_env sample_now three_records 30 1 10 None = Return p /\
    map id (transcriptions p) = ["new"; "mid"]%string /\
    total p = 2 /\ totalPages p = Some 1.
Proof. eexists. split; [reflexivity |]. repeat split. Qed.

Example query_last_50_days :
  exists p,
    findRecentTranscriptions utc_env sample_now three_records 50 1 10 None = Return p /\
    map id (transcriptions p) = ["new"; "mid"; "old"]%string.
Proof. eexists. split; reflexivity. Qed.

Example query_filtered_by_origin :
  exists p,
    findRecentTranscriptions utc_env sample_now three_records 50 1 10
      (Some "mock"%string) = Return p /\
    map id (transcriptions p) = ["new"; "old"]%string.
Proof. eexists. split; reflexivity. Qed.

End StoreClaims.

Module SpeechFacts.
Import Adapters SpeechSpec.

Lemma append_empty (a b : string) :
  (a ++ b)%string = ""%string -> a = ""%string /\ b = ""%string.
Proof. destruct a; cbn; intros H; [auto | discriminate]. Qed.

Lemma joined_from_nonempty (texts : list string) : forall acc,
  acc <> ""%string ->
  fold_left (fun acc t => (acc ++ t ++ " ")%string) texts acc <> ""%string.
Proof.
  induction texts as [| t rest IH]; intros acc Hacc; cbn; [exact Hacc |].
  apply IH. intros H. apply append_empty in H. tauto.
Qed.

Lemma joined_empty_iff (texts : list string) :
  joined texts = ""%string <-> texts = [].
Proof.
  split; [| intros ->; reflexivity].
  destruct texts as [| t rest]; [reflexivity |].
  unfold joined. cbn. intros H. exfalso.
  revert H. apply joined_from_nonempty.
  intros H. apply append_empty in H. destruct H as [_ H]. discriminate.
Qed.

(** While only recognitions are reported, the call stays pending and the
    accumulated text grows by each recognised text and a space. *)
Lemma fold_recognitions (lang : Store.LanguageCode) (es : list sdk_event) :
  only_recognitions es ->
  forall st,
    fold_left (on_event lang) es st
    = {| transcription_acc :=
           fold_left (fun acc t => (acc ++ t ++ " ")%string)
                     (recognized_texts es) (transcription_acc st);
         settled_as := settled_as st |}.
Proof.
  induction 1 as [| e es He _ IH]; intros st; [destruct st; reflexivity |].
  cbn [fold_left]. rewrite IH.
  destruct e as [reason t | | | |]; try contradiction.
  destruct reason; destruct st; reflexivity.
Qed.

Lemma settled_stays_settled (lang : Store.LanguageCode) (es : list sdk_event) :
  forall st, settled_as st <> Pending ->
             settled_as (fold_left (on_event lang) es st) = settled_as st.
Proof.
  induction es as [| e es IH]; intros st Hst; [reflexivity |].
  cbn [fold_left].
  assert (Hstep : settled_as (on_event lang st e) = settled_as st).
  { destruct (settled_as st) eqn:E; [congruence | |];
      destruct e as [[] ? | ? | [] ? ? | ? | ?]; cbn; rewrite ?E; try reflexivity;
      destruct (transcription_acc st =? "")%string; reflexivity. }
  rewrite IH; [exact Hstep | congruence].
Qed.

Lemma pending_only_recognitions (lang : Store.LanguageCode) (es : list sdk_event) :
  settled_as (after_events lang es) = Pending -> only_recognitions es.
Proof.
  unfold after_events, only_recognitions.
  assert (G : forall st, settled_as st = Pending ->
              settled_as (fold_left (on_event lang) es st) = Pending ->
              Forall (fun e => match e with Recognized _ _ => True | _ => False end) es).
  { induction es as [| e es IH]; intros st Hst Hend; [constructor |].
    cbn [fold_left] in Hend.
    destruct e as [reason t | el | reason d el | err | el].
    - constructor; [exact I |].
      apply (IH (on_event lang st (Recognized reason t))); [| exact Hend].
      destruct reason; cbn; exact Hst.
    - exfalso. rewrite settled_stays_settled in Hend;
        cbn in *; rewrite Hst in *; cbn in *; discriminate.
    - exfalso. rewrite settled_stays_settled in Hend;
        destruct reason; cbn in *; rewrite Hst in *; cbn in *; discriminate.
    - exfalso. rewrite settled_stays_settled in Hend;
        cbn in *; rewrite Hst in *; cbn in *; discriminate.
    - exfalso. rewrite settled_stays_settled in Hend;
        cbn in *; rewrite Hst in *;
        destruct (transcription_acc st =? "")%string; cbn in *; discriminate. }
  apply G. reflexivity.
Qed.

(** The timer always fires, so a call that got past the set-up is
    settled. *)
Lemma session_promise_settles (lang : Store.LanguageCode) (s : sdk_session) :
  session_promise lang s <> Pending.
Proof.
  destruct s as [v | reported t]; cbn; [discriminate |].
  unfold after_events. rewrite fold_left_app. cbn.
  destruct (transcription_acc _ =? "")%string;
    destruct (settled_as _); discriminate.
Qed.

End SpeechFacts.

Module SpeechClaims.
Import Adapters SpeechSpec SpeechFacts.

(** C9: when the 60-second timer fires on a call of the real client that
    nothing has settled yet, the call resolves with the text accumulated
    from the recognised-speech events (trimmed) if there is any, and
    rejects with a failure if there is none. *)
Theorem timeout_returns_accumulated_text_or_fails
  (c : RealSpeechClient) (audioData : Buffer) (lang : Store.LanguageCode)
  (n : nat) (reported : list sdk_event) (elapsed : Z) :
  real_isConfigured c = true ->
  sessions c n = Session reported elapsed ->
  settled_as (after_events lang reported) = Pending ->
  transcription_acc (after_events lang reported) = joined (recognized_texts reported) /\
  (recognized_texts reported <> [] ->
   transcribe c audioData lang n
   = Retry.Resolve {| text := Url.trim (joined (recognized_texts reported));
                      confidence := None;
                      language := lang;
                      duration := Some elapsed |}) /\
  (recognized_texts reported = [] ->
   transcribe c audioData lang n = Retry.Reject timeout_error).
Proof.
  intros Hcfg Hsess Hpending.
  pose proof (pending_only_recognitions lang reported Hpending) as Hrec.
  assert (Hafter : after_events lang reported
                   = {| transcription_acc := joined (recognized_texts reported);
                        settled_as := Pending |}).
  { unfold after_events. rewrite (fold_recognitions lang reported Hrec).
    reflexivity. }
  split; [rewrite Hafter; reflexivity |].
  assert (Hpromise : session_promise lang (Session reported elapsed)
            = if (joined (recognized_texts reported) =? "")%string
              then Rejected timeout_error
              else Fulfilled {| text := Url.trim (joined (recognized_texts reported));
                                confidence := None;
                                language := lang;
                                duration := Some elapsed |}).
  { cbn [session_promise]. unfold after_events in *.
    rewrite fold_left_app, Hafter. cbn.
    destruct (joined (recognized_texts reported) =? "")%string; reflexivity. }
  cbn [transcribe RealSpeechClient_ISpeechClient]. unfold real_transcribe.
  rewrite Hcfg, Hsess, Hpromise. cbn [negb].
  split; intros Htexts.
  - destruct (joined (recognized_texts reported) =? "")%string eqn:E;
      [| reflexivity].
    apply String.eqb_eq, joined_empty_iff in E. contradiction.
  - rewrite Htexts. reflexivity.
Qed.

Lemma timeout_returns_accumulated_text_or_fails_witness :
  transcribe (SpeechSamples.configured_client SpeechSamples.slow_session)
             "RIFF"%string Store.en_US 1
  = Retry.Resolve {| text := "hello world"; confidence := None;
                     language := Store.en_US; duration := Some 60004 |}.
Proof.
  pose proof (timeout_returns_accumulated_text_or_fails
                (SpeechSamples.configured_client SpeechSamples.slow_session)
                "RIFF"%string Store.en_US 1
                [Recognized RecognizedSpeech "hello";
                 Recognized NoMatch "";
                 Recognized RecognizedSpeech "world"] 60004
                eq_refl eq_refl eq_refl) as [_ [Hsome _]].
  rewrite Hsome; [reflexivity | discriminate].
Defined.

(** With nothing recognised, the same timer rejects the call. *)
Example timeout_without_text_rejects :
  transcribe (SpeechSamples.configured_client SpeechSamples.silent_session)
             "RIFF"%string Store.en_US 1
  = Retry.Reject timeout_error.
Proof. reflexivity. Qed.

End SpeechClaims.

Module BatchFacts.
Import Retry RetryResults Store Adapters AudioService Response BatchSpec.

(** [create] either appends the one document it returns or throws and
    leaves the collection alone. *)
Lemma create_appends_or_fails (db : insertion) (doc : NewTranscription) (c : collection) :
  (exists stored, create db doc c = (Return stored, c ++ [stored]) /\
                  Store.source stored = new_source doc /\
                  Store.transcription stored = new_transcription doc /\
                  Store.metadata stored = new_metadata doc /\
                  Store.language stored = new_language doc)
  \/ (exists v, create db doc c = (Throw v, c)).
Proof.
  unfold create.
  destruct (required_failures doc); [| right; eexists; reflexivity].
  destruct db as [i t | v]; [left | right]; eexists; [| reflexivity].
  repeat split.
Qed.

Lemma create_throws (db : insertion) (doc : NewTranscription) (c : collection) e :
  fst (create db doc c) = Throw e -> create db doc c = (Throw e, c).
Proof.
  destruct (create_appends_or_fails db doc c) as [[stored [Hc _]] | [v Hc]];
    rewrite Hc; cbn; intros H; [discriminate | injection H as <-; reflexivity].
Qed.

Lemma create_returns (db : insertion) (doc : NewTranscription) (c : collection) stored :
  fst (create db doc c) = Return stored ->
  create db doc c = (Return stored, c ++ [stored]) /\
  Store.language stored = new_language doc.
Proof.
  destruct (create_appends_or_fails db doc c)
    as [[stored' [Hc [_ [_ [_ Hlang]]]]] | [v Hc]];
    rewrite Hc; cbn; intros H; [injection H as <-; split; [reflexivity | exact Hlang]
                               | discriminate].
Qed.

Lemma record_and_error_exclude (before : collection)
  (res : completion TranscriptionResponse * collection) :
  ~ (persisted_one_record before res /\ failed_without_record before res).
Proof.
  intros [[doc [Hr _]] [v [Ht _]]]. rewrite Hr in Ht. discriminate.
Qed.

Section Download.
Variable URL_parse : string -> option Url.URL.
Variable cfg : Config.
Context {H : Type} {H_client : IHttpClient H}.
Variable http : H.

(** A download that returns has a body. *)
Lemma downloaded_has_body (audioUrl : string) (a : AudioDownloadResult) :
  outcome (retryWithBackoff (download_attempt http audioUrl) (download_policy cfg))
  = Return a ->
  exists audio, AudioService.data a = Some audio.
Proof.
  intros Ho. destruct (retry_returns_inv _ _ _ Ho) as [n [_ [_ [Hfn _]]]].
  unfold download_attempt in Hfn.
  destruct (get http audioUrl n) as [response | v]; [| discriminate].
  destruct (Adapters.data response) as [body |]; [| discriminate].
  injection Hfn as <-. exists body. reflexivity.
Qed.

(** For a valid URL, [downloadAudio] returns what the retried request
    returns, and throws when it throws. *)
Lemma valid_url_download (audioUrl : string) :
  Url.isValidUrl URL_parse audioUrl = true ->
  (forall a,
     outcome (retryWithBackoff (download_attempt http audioUrl) (download_policy cfg))
     = Return a ->
     downloadAudio URL_parse cfg http audioUrl = Return a) /\
  (forall e,
     outcome (retryWithBackoff (download_attempt http audioUrl) (download_policy cfg))
     = Throw e ->
     exists e', downloadAudio URL_parse cfg http audioUrl = Throw e').
Proof.
  intros Hv. unfold downloadAudio. rewrite Hv. cbn [negb]. split.
  - intros a ->. reflexivity.
  - intros e ->. destruct (is_url_or_download_error e); eexists; reflexivity.
Qed.

End Download.

End BatchFacts.

Module BatchClaims.
Import Retry Store Adapters AudioService Response BatchSpec BatchFacts.

Section Pipelines.
Variable URL_parse : string -> option Url.URL.
Variable cfg : Config.
Context {H : Type} {H_client : IHttpClient H}.
Variable http : H.
Context {S : Type} {S_client : ISpeechClient S}.
Variable speech : S.

Lemma mock_pipeline_one_record_or_error
  (timestamp : string) (db : insertion) (c : collection) (audioUrl : string) :
  let res := TranscriptionService.transcribeAudio URL_parse cfg http timestamp db c audioUrl in
  persisted_one_record c res \/ failed_without_record c res.
Proof.
  unfold TranscriptionService.transcribeAudio.
  destruct (downloadAudio URL_parse cfg http audioUrl) as [r | v].
  - match goal with |- context [create db ?d c] =>
      destruct (create_appends_or_fails db d c)
        as [[stored [Hc [_ [_ [_ Hlang]]]]] | [v Hc]]; rewrite Hc
    end.
    + left. exists stored. split; [| reflexivity].
      cbn [fst]. unfold of_doc. cbn in Hlang. rewrite Hlang. reflexivity.
    + right. exists v. split; reflexivity.
  - right. exists v. split; reflexivity.
Qed.

Lemma azure_pipeline_one_record_or_error
  (db : insertion) (c : collection) (audioUrl : string) (lang : LanguageCode) :
  let res := AzureSpeechService.transcribeAudio URL_parse cfg http speech db c audioUrl lang in
  persisted_one_record c res \/ failed_without_record c res.
Proof.
  unfold AzureSpeechService.transcribeAudio.
  destruct (downloadAudio URL_parse cfg http audioUrl) as [r | v];
    [| right; exists v; split; reflexivity].
  destruct (AudioService.data r) as [audio |];
    [| right; eexists; split; reflexivity].
  destruct (outcome (retryWithBackoff _ _)) as [result | v];
    [| right; exists v; split; reflexivity].
  match goal with |- context [create db ?d c] =>
    destruct (create_appends_or_fails db d c) as [[stored [Hc _]] | [v Hc]];
      rewrite Hc
  end.
  - left. exists stored. split; reflexivity.
  - right. exists v. split; reflexivity.
Qed.

(** The mock pipeline after a download that returned: the insertion
    decides. *)
Lemma mock_pipeline_after_download
  (timestamp : string) (db : insertion) (c : collection) (audioUrl : string)
  (a : AudioDownloadResult) :
  downloadAudio URL_parse cfg http audioUrl = Return a ->
  let doc := simulated_document URL_parse timestamp audioUrl in
  let res := TranscriptionService.transcribeAudio URL_parse cfg http timestamp db c audioUrl in
  (forall e, fst (create db doc c) = Throw e -> res = (Throw e, c)) /\
  (forall stored, fst (create db doc c) = Return stored ->
                  res = (Return (of_doc stored), c ++ [stored])).
Proof.
  intros Hd. cbv zeta. unfold TranscriptionService.transcribeAudio.
  rewrite Hd. unfold simulated_document.
  split.
  - intros e He. rewrite (create_throws _ _ _ _ He). reflexivity.
  - intros stored Hs. destruct (create_returns _ _ _ _ Hs) as [Hc Hlang].
    rewrite Hc. unfold of_doc. rewrite Hlang. reflexivity.
Qed.

(** The provider pipeline after a download that returned [audio]: the
    recognition and then the insertion decide. *)
Lemma azure_pipeline_after_download
  (db : insertion) (c : collection) (audioUrl : string) (lang : LanguageCode)
  (a : AudioDownloadResult) (audio : Buffer) :
  downloadAudio URL_parse cfg http audioUrl = Return a ->
  AudioService.data a = Some audio ->
  let recognition :=
    outcome (retryWithBackoff (transcribe speech audio lang)
                              (AzureSpeechService.transcription_policy audioUrl)) in
  let res := AzureSpeechService.transcribeAudio URL_parse cfg http speech db c audioUrl lang in
  (forall e, recognition = Throw e -> res = (Throw e, c)) /\
  (forall result, recognition = Return result ->
     let doc := provider_document speech audioUrl lang result in
     (forall e, fst (create db doc c) = Throw e -> res = (Throw e, c)) /\
     (forall stored, fst (create db doc c) = Return stored ->
                     res = (Return (of_doc stored), c ++ [stored]))).
Proof.
  intros Hd Ha recognition res. subst res recognition.
  unfold AzureSpeechService.transcribeAudio. rewrite Hd, Ha.
  split.
  - intros e ->. reflexivity.
  - intros result Hr. cbv zeta. rewrite Hr. unfold provider_document.
    split.
    + intros e He. rewrite (create_throws _ _ _ _ He). reflexivity.
    + intros stored Hs. destruct (create_returns _ _ _ _ Hs) as [Hc _].
      rewrite Hc. reflexivity.
Qed.

End Pipelines.

(** C4: for a syntactically valid http/https URL, one call of either
    batch pipeline persists exactly one record and returns it, or
    propagates one error and leaves the collection unchanged; never
    both, never neither.  Which of the two is decided by the three
    stages, in order.  When the retried download fails, both pipelines
    propagate the error of [downloadAudio] and store nothing.  When it
    returns, it returns a body; then the provider pipeline propagates
    the error of a failed recognition and stores nothing; and, with the
    download (and the recognition) done, each pipeline propagates the
    error of a failed insertion and stores nothing, or returns the one
    record that the insertion appended to the collection. *)
Theorem batch_call_persists_one_record_or_fails
  (URL_parse : string -> option Url.URL) (cfg : Config)
  {H : Type} {H_client : IHttpClient H} (http : H)
  {S : Type} {S_client : ISpeechClient S} (speech : S)
  (timestamp : string) (db : insertion) (c : collection)
  (audioUrl : string) (lang : LanguageCode) :
  Url.isValidUrl URL_parse audioUrl = true ->
  let download :=
    outcome (retryWithBackoff (download_attempt http audioUrl) (download_policy cfg)) in
  let recognition := fun audio =>
    outcome (retryWithBackoff (transcribe speech audio lang)
                              (AzureSpeechService.transcription_policy audioUrl)) in
  let simulated :=
    TranscriptionService.transcribeAudio URL_parse cfg http timestamp db c audioUrl in
  let provider :=
    AzureSpeechService.transcribeAudio URL_parse cfg http speech db c audioUrl lang in
  (persisted_one_record c simulated \/ failed_without_record c simulated) /\
  ~ (persisted_one_record c simulated /\ failed_without_record c simulated) /\
  (persisted_one_record c provider \/ failed_without_record c provider) /\
  ~ (persisted_one_record c provider /\ failed_without_record c provider) /\
  (forall e, download = Throw e ->
     exists e', downloadAudio URL_parse cfg http audioUrl = Throw e' /\
                simulated = (Throw e', c) /\ provider = (Throw e', c)) /\
  (forall a, download = Return a ->
     exists audio,
       AudioService.data a = Some audio /\
       (forall e, recognition audio = Throw e -> provider = (Throw e, c)) /\
       (forall result, recognition audio = Return result ->
          let doc := provider_document speech audioUrl lang result in
          (forall e, fst (create db doc c) = Throw e -> provider = (Throw e, c)) /\
          (forall stored, fst (create db doc c) = Return stored ->
             provider = (Return (of_doc stored), c ++ [stored]))) /\
       let doc := simulated_document URL_parse timestamp audioUrl in
       (forall e, fst (create db doc c) = Throw e -> simulated = (Throw e, c)) /\
       (forall stored, fst (create db doc c) = Return stored ->
          simulated = (Return (of_doc stored), c ++ [stored]))).
Proof.
  intros Hvalid download recognition simulated provider.
  destruct (valid_url_download URL_parse cfg http audioUrl Hvalid) as [Hret Hthrow].
  split; [apply mock_pipeline_one_record_or_error |].
  split; [apply record_and_error_exclude |].
  split; [apply azure_pipeline_one_record_or_error |].
  split; [apply record_and_error_exclude |].
  split.
  - intros e He. destruct (Hthrow e He) as [e' He'].
    exists e'. split; [exact He' |].
    subst simulated provider.
    unfold TranscriptionService.transcribeAudio, AzureSpeechService.transcribeAudio.
    rewrite He'. split; reflexivity.
  - intros a Ha.
    destruct (downloaded_has_body cfg http audioUrl a Ha) as [audio Haudio].
    exists audio. split; [exact Haudio |].
    pose proof (Hret a Ha) as Hd.
    destruct (azure_pipeline_after_download URL_parse cfg http speech db c
                audioUrl lang a audio Hd Haudio) as [Hrec Hins].
    split; [exact Hrec |]. split; [exact Hins |].
    exact (mock_pipeline_after_download URL_parse cfg http timestamp db c
             audioUrl a Hd).
Qed.

Lemma batch_call_persists_one_record_or_fails_witness :
  exists stored,
    TranscriptionService.transcribeAudio Url.sample_URL_parse test_config test_http
      "2024-01-01T00:00:00.000Z" (Inserted "65a0" 1704067200000) []
      "https://example.com/test.mp3"
    = (Return (of_doc stored), [stored]) /\
    Store.id stored = "65a0"%string.
Proof.
  assert (Hvalid : Url.isValidUrl Url.sample_URL_parse "https://example.com/test.mp3"
                   = true) by (vm_compute; reflexivity).
  assert (Hdl : exists a,
    outcome (retryWithBackoff (download_attempt test_http "https://example.com/test.mp3")
                              (download_policy test_config)) = Return a)
    by (eexists; vm_compute; reflexivity).
  destruct Hdl as [a Ha].
  assert (Hins : exists stored,
    fst (create (Inserted "65a0" 1704067200000)
           (simulated_document Url.sample_URL_parse "2024-01-01T00:00:00.000Z"
              "https://example.com/test.mp3") [])
    = Return stored /\ Store.id stored = "65a0"%string)
    by (eexists; split; [vm_compute; reflexivity | reflexivity]).
  destruct Hins as [stored [Hs Hid]].
  pose proof (batch_call_persists_one_record_or_fails
                Url.sample_URL_parse test_config test_http test_speech
                "2024-01-01T00:00:00.000Z" (Inserted "65a0" 1704067200000) []
                "https://example.com/test.mp3" en_US Hvalid)
    as [_ [_ [_ [_ [_ Hafter]]]]].
  destruct (Hafter a Ha) as [audio [_ [_ [_ [_ Hstore]]]]].
  exists stored. split; [exact (Hstore stored Hs) | exact Hid].
Defined.

(** A failed insertion leaves nothing behind. *)
Example failed_insertion_persists_nothing :
  AzureSpeechService.transcribeAudio Url.sample_URL_parse test_config test_http
    test_speech (InsertFailed (JErr (new_Error "write failed"))) []
    "https://example.com/test.mp3" en_US
  = (Throw (JErr (new_Error "write failed")), []).
Proof. vm_compute. reflexivity. Qed.

(** C1 at the input where it fails: the process has no provider
    credentials, so the factory selected the mock speech client; the
    call succeeds with the mock recogniser's sentence and the record is
    stored with origin ['azure']. *)
Theorem mock_client_text_is_stored_as_azure :
  let doc :=
    {| Store.id := "65a1";
       Store.audioUrl := "https://example.com/sample.mp3";
       Store.transcription := mock_sentence en_US;
       Store.source := azure;
       Store.language := Some en_US;
       Store.metadata := None;
       Store.createdAt := 1704067200000 |} in
  hasAzureCredentials test_config = false /\
  test_speech = UsesMock TheMockSpeechClient /\
  produced_by test_speech = mock /\
  AzureSpeechService.transcribeAudio Url.sample_URL_parse test_config test_http
    test_speech (Inserted "65a1" 1704067200000) []
    "https://example.com/sample.mp3" en_US
  = (Return (of_doc doc), [doc]) /\
  Store.source doc <> produced_by test_speech.
Proof.
  cbv zeta.
  split; [reflexivity |]. split; [reflexivity |]. split; [reflexivity |].
  split; [vm_compute; reflexivity |].
  cbn. discriminate.
Qed.

(** The same for every call that the mock speech client serves. *)
Lemma mock_client_never_stored_as_mock
  (URL_parse : string -> option Url.URL) (cfg : Config)
  {H : Type} {H_client : IHttpClient H} (http : H) (m : MockSpeechClient)
  (db : insertion) (c c' : collection) (audioUrl : string) (lang : LanguageCode)
  (r : TranscriptionResponse) :
  AzureSpeechService.transcribeAudio URL_parse cfg http (UsesMock m) db c audioUrl lang
    = (Return r, c') ->
  Response.source r = azure.
Proof.
  unfold AzureSpeechService.transcribeAudio.
  destruct (downloadAudio URL_parse cfg http audioUrl) as [a | v]; [| discriminate].
  destruct (AudioService.data a) as [audio |]; [| discriminate].
  destruct (outcome (retryWithBackoff _ _)) as [result | v]; [| discriminate].
  match goal with |- context [create db ?d c] =>
    destruct (create_appends_or_fails db d c)
      as [[stored [Hc [Hsrc _]]] | [v Hc]]; rewrite Hc
  end; [| discriminate].
  intros Heq. injection Heq as <- _. cbn. exact Hsrc.
Qed.

End BatchClaims.

Module StreamClaims7.
Import Stream StreamSpec.

Lemma well_formed_is_chunk (parsed : option json) :
  well_formed_chunk parsed = true -> is_chunk parsed = true.
Proof.
  unfold well_formed_chunk, is_chunk.
  destruct parsed as [[| | | | | fields] |]; try discriminate.
  cbn. destruct (lookup_last "type" fields) as [[| | | ty | |] |]; try discriminate.
  destruct (lookup_last "data" fields) as [[| | | d | |] |]; try discriminate.
  destruct (lookup_last "isLast" fields) as [[| b | | | |] |]; try discriminate.
  cbn. intros H. exact H.
Qed.






End StreamClaims7.

Module StreamFacts.
Import Stream StreamSpec.

(** *** The checks and list concatenation *)

Lemma no_sent_app (h b : list occurrence) :
  no_sent (h ++ b) = no_sent h && no_sent b.
Proof. unfold no_sent. rewrite existsb_app, negb_orb. reflexivity. Qed.

Lemma no_partial_app (h b : list occurrence) :
  no_partial (h ++ b) = no_partial h && no_partial b.
Proof. unfold no_partial. rewrite existsb_app, negb_orb. reflexivity. Qed.

Lemma final_last_app (h b : list occurrence) :
  final_last h = true -> final_last b = true ->
  (has_final h = true -> no_sent b = true) ->
  final_last (h ++ b) = true.
Proof.
  induction h as [| o rest IH]; intros Hh Hb Hcond; [exact Hb |].
  destruct o as [p | m | | d |]; cbn in *; try (apply IH; assumption).
  destruct m; cbn in *; try (apply IH; assumption).
  rewrite no_sent_app, Hh, Hcond; reflexivity.
Qed.

Lemma quiet_once_complete_app (h b : list occurrence) :
  quiet_once_complete h = true -> quiet_once_complete b = true ->
  (has_marked h = true -> no_partial b = true) ->
  quiet_once_complete (h ++ b) = true.
Proof.
  induction h as [| o rest IH]; intros Hh Hb Hcond; [exact Hb |].
  destruct o as [p | m | | d |]; cbn in *; try (apply IH; assumption).
  rewrite no_partial_app, Hh, Hcond; reflexivity.
Qed.

Lemma marked_next_app (sc : bool) (rest b : list occurrence) :
  marked_next sc rest = true -> marked_next sc (rest ++ b) = true.
Proof.
  destruct rest as [| [] [| [] rest]]; cbn; intros H;
    try discriminate; auto.
Qed.

Lemma marked_after_last_app (h b : list occurrence) : forall sc,
  marked_after_last sc h = true ->
  marked_after_last (sc || has_chunk h) b = true ->
  marked_after_last sc (h ++ b) = true.
Proof.
  induction h as [| o rest IH]; intros sc Hh Hb.
  - cbn in *. rewrite orb_false_r in Hb. exact Hb.
  - destruct o as [p | m | | d |]; cbn in *;
      try (apply IH; [exact Hh | exact Hb]).
    apply andb_true_iff in Hh. destruct Hh as [Hnext Hrest].
    apply andb_true_iff. split.
    + destruct (is_last_chunk p); [apply marked_next_app, Hnext | reflexivity].
    + apply IH; [exact Hrest |]. rewrite <- orb_assoc. exact Hb.
Qed.

Lemma marked_next_stricter (rest : list occurrence) (sc : bool) :
  marked_next true rest = true -> marked_next sc rest = true.
Proof.
  destruct rest as [| [] [| [] rest]]; cbn; intros H;
    try discriminate; auto.
  rewrite andb_false_r in H. discriminate.
Qed.

Lemma marked_after_last_stricter (h : list occurrence) : forall sc,
  marked_after_last true h = true -> marked_after_last sc h = true.
Proof.
  induction h as [| o rest IH]; intros sc Hh; [reflexivity |].
  destruct o as [p | m | | d |]; cbn in *; try (apply IH; exact Hh).
  apply andb_true_iff in Hh. destruct Hh as [Hnext Hrest].
  apply andb_true_iff. split.
  - destruct (is_last_chunk p); [apply marked_next_stricter, Hnext | reflexivity].
  - apply IH. exact Hrest.
Qed.

(** *** What the checks mean *)

Lemma no_sent_outbound (h : list occurrence) :
  no_sent h = true -> outbound h = [].
Proof.
  unfold no_sent. induction h as [| o rest IH]; intros H; [reflexivity |].
  destruct o; cbn in *; try discriminate; apply IH; exact H.
Qed.

Lemma no_partial_not_in (h : list occurrence) t c :
  no_partial h = true -> ~ In (Sent (Partial t c)) h.
Proof.
  unfold no_partial. induction h as [| o rest IH]; intros H Hin; [contradiction |].
  destruct Hin as [-> | Hin]; [discriminate |].
  cbn in H. apply negb_true_iff, orb_false_iff in H. destruct H as [_ H].
  apply (IH ltac:(rewrite H; reflexivity) Hin).
Qed.

Lemma final_last_sound (h : list occurrence) :
  final_last h = true ->
  forall h1 t i h2, h = h1 ++ Sent (Final t i) :: h2 -> outbound h2 = [].
Proof.
  intros Hh h1. revert h Hh.
  induction h1 as [| o h1 IH]; intros h Hh t i h2 ->.
  - cbn in Hh. apply no_sent_outbound, Hh.
  - apply (IH (h1 ++ Sent (Final t i) :: h2)) with (t := t) (i := i);
      [| reflexivity].
    destruct o as [p | m | | d |]; cbn in Hh; try exact Hh.
    destruct m; cbn in Hh; try exact Hh.
    rewrite no_sent_app in Hh. apply andb_true_iff in Hh.
    destruct Hh as [_ Hh]. cbn in Hh. discriminate.
Qed.

Lemma no_partial_quiet (h : list occurrence) :
  no_partial h = true -> quiet_once_complete h = true.
Proof.
  unfold no_partial. induction h as [| o rest IH]; intros H; [reflexivity |].
  cbn in H. apply negb_true_iff, orb_false_iff in H. destruct H as [Ho H].
  destruct o as [p | m | | d |]; cbn;
    try (apply IH; rewrite H; reflexivity).
  unfold no_partial. rewrite H. reflexivity.
Qed.

Lemma quiet_once_complete_sound (h : list occurrence) :
  quiet_once_complete h = true ->
  forall h1 h2, h = h1 ++ MarkedComplete :: h2 ->
  forall t c, ~ In (Sent (Partial t c)) h2.
Proof.
  intros Hh h1. revert h Hh.
  induction h1 as [| o h1 IH]; intros h Hh h2 -> t c.
  - cbn in Hh. apply no_partial_not_in, Hh.
  - apply (IH (h1 ++ MarkedComplete :: h2)); [| reflexivity].
    destruct o as [p | m | | d |]; cbn in Hh; try exact Hh.
    apply no_partial_quiet, Hh.
Qed.

Lemma marked_after_last_sound (h : list occurrence) : forall sc,
  marked_after_last sc h = true ->
  forall h1 p h2, h = h1 ++ Received p :: h2 -> is_last_chunk p = true ->
  (exists h3, h2 = MarkedComplete :: h3) \/
  (exists m h3, h2 = Sent m :: MarkedComplete :: h3 /\ is_partial m = true /\
                sc = false /\ has_chunk h1 = false).
Proof.
  intros sc Hh h1. revert h sc Hh.
  induction h1 as [| o h1 IH]; intros h sc Hh p h2 -> Hlast.
  - cbn in Hh. rewrite Hlast in Hh. apply andb_true_iff in Hh.
    destruct Hh as [Hnext _].
    destruct h2 as [| o1 [| o2 h3]]; cbn in Hnext; try discriminate;
      destruct o1; try discriminate; try (left; eexists; reflexivity).
    destruct o2; try discriminate.
    apply andb_true_iff in Hnext. destruct Hnext as [Hp Hsc].
    right. exists m, h3.
    split; [reflexivity |]. split; [exact Hp |].
    split; [destruct sc; [discriminate | reflexivity] | reflexivity].
  - assert (Hrest : marked_after_last (sc || is_received_chunk o)
                      (h1 ++ Received p :: h2) = true).
    { destruct o as [q | m | | d |]; cbn in Hh |- *;
        rewrite ?orb_false_r; try exact Hh.
      apply andb_true_iff in Hh. tauto. }
    destruct (IH _ _ Hrest p h2 eq_refl Hlast)
      as [Hm | [m [h3 [Hh2 [Hp [Hsc Hch]]]]]]; [left; exact Hm |].
    right. exists m, h3. apply orb_false_iff in Hsc. destruct Hsc as [Hsc Ho].
    repeat split; try assumption.
    unfold has_chunk in *. cbn. rewrite Ho, Hch. reflexivity.
Qed.

Lemma outbound_app (h1 h2 : list occurrence) :
  outbound (h1 ++ h2) = outbound h1 ++ outbound h2.
Proof. unfold outbound. apply flat_map_app. Qed.


Lemma persisted_app (h1 h2 : list occurrence) :
  persisted (h1 ++ h2) = persisted h1 ++ persisted h2.
Proof. unfold persisted. apply flat_map_app. Qed.

End StreamFacts.

Module StreamInvariant.
Import Stream StreamSpec StreamFacts.

Lemma Inv_connected : Inv connected.
Proof. unfold Inv. cbn. repeat split; try reflexivity; lia. Qed.

(** A delivery appends a block [b] to the history; the invariant carries
    over when the block fits the flags of the session. *)
Lemma Inv_append (s s' : session) (b : list occurrence) :
  Inv s ->
  history s' = history s ++ b ->
  (isComplete s' = false -> isComplete s = false /\ has_marked b = false) ->
  (socket s' = OPEN -> socket s = OPEN /\ has_final b = false) ->
  final_last b = true ->
  (no_sent b = false -> socket s = OPEN) ->
  quiet_once_complete b = true ->
  (no_partial b = false -> isComplete s = false) ->
  chunkCount s <= chunkCount s' ->
  (chunkCount s' = 0 -> has_chunk b = false) ->
  marked_after_last (negb (chunkCount s =? 0)) b = true ->
  Inv s'.
Proof.
  intros [Hhd [Hmk [Hfin [Hfl [Hq [Hpos [Hzero Hmal]]]]]]]
         Hh Hc Hs Hflb Hsent Hqb Hpart Hle Hzb Hmalb.
  unfold Inv. rewrite Hh.
  split.
  { destruct (history s); [discriminate | exact Hhd]. }
  split.
  { intros Hc'. destruct (Hc Hc') as [Hcs Hb].
    unfold has_marked in *. rewrite existsb_app, (Hmk Hcs), Hb. reflexivity. }
  split.
  { intros Hs'. destruct (Hs Hs') as [Hss Hb].
    unfold has_final in *. rewrite existsb_app, (Hfin Hss), Hb. reflexivity. }
  split.
  { apply final_last_app; [exact Hfl | exact Hflb |].
    intros Hf. destruct (no_sent b) eqn:E; [reflexivity |].
    rewrite (Hfin (Hsent eq_refl)) in Hf. discriminate. }
  split.
  { apply quiet_once_complete_app; [exact Hq | exact Hqb |].
    intros Hm. destruct (no_partial b) eqn:E; [reflexivity |].
    rewrite (Hmk (Hpart eq_refl)) in Hm. discriminate. }
  split; [lia |].
  split.
  { intros Hz. unfold has_chunk in *.
    rewrite existsb_app, Hzero, (Hzb Hz) by lia. reflexivity. }
  apply marked_after_last_app; [exact Hmal |]. cbn [orb].
  destruct (chunkCount s =? 0) eqn:E.
  - apply Z.eqb_eq in E. rewrite (Hzero E). exact Hmalb.
  - apply marked_after_last_stricter. exact Hmalb.
Qed.

#[local] Arguments is_chunk : simpl never.
#[local] Arguments is_last_chunk : simpl never.

Lemma pushed_nonempty {A : Type} (l : list A) (x : A) :
  (0 <? Z.of_nat (List.length (l ++ [x]))) = true.
Proof. rewrite length_app. cbn. apply Z.ltb_lt. lia. Qed.

Lemma is_chunk_eq (data : json) (ty : option json) :
  get_prop data "type" = Return ty ->
  is_chunk (Some data) = is_chunk_string ty.
Proof. intros H. unfold is_chunk. rewrite H. reflexivity. Qed.

Lemma is_last_chunk_eq (data : json) (ty lastv : option json) :
  get_prop data "type" = Return ty ->
  get_prop data "isLast" = Return lastv ->
  is_last_chunk (Some data) = is_chunk_string ty && truthy lastv.
Proof.
  intros H1 H2. unfold is_last_chunk. rewrite (is_chunk_eq _ _ H1), H2.
  reflexivity.
Qed.

Lemma not_chunk_not_last (p : option json) :
  is_chunk p = false -> is_last_chunk p = false.
Proof. intros H. unfold is_last_chunk. rewrite H. reflexivity. Qed.

Ltac inv_block HInv :=
  eapply Inv_append;
  [ exact HInv
  | cbn; rewrite <- ?app_assoc; cbn;
    first [ reflexivity | symmetry; apply app_nil_r ]
  | .. ].

Lemma on_message_Inv (s : session) (parsed : option json) :
  Inv s -> socket s <> CLOSED -> Inv (on_message parsed s).
Proof.
  intros HInv Hsock.
  assert (Hpos : 0 <= chunkCount s) by (destruct HInv as [_ [_ [_ [_ [_ [H _]]]]]]; exact H).
  unfold on_message.
  destruct parsed as [data |].
  2: { unfold send, note; cbn.
       destruct (socket s) eqn:Es; try congruence; cbn;
         inv_block HInv; cbn; rewrite ?Es; try tauto; try lia; try discriminate;
         try (intros; split; [assumption | reflexivity]);
         try (intros; discriminate). }
  destruct (get_prop data "type") as [ty | v] eqn:Ety.
  2: { unfold send, note; cbn.
       assert (Hd : data = JsonNull) by (destruct data; cbn in Ety; congruence).
       subst data.
       destruct (socket s) eqn:Es; try congruence; cbn;
         inv_block HInv; cbn; rewrite ?Es; try tauto; try lia; try discriminate;
         try (intros; split; [assumption | reflexivity]);
         try (intros; discriminate). }
  pose proof (is_chunk_eq _ _ Ety) as Hic.
  destruct (is_chunk_string ty) eqn:Echunk.
  2: { pose proof (not_chunk_not_last _ Hic) as Hnl.
       inv_block HInv; cbn;
         rewrite ?Hic, ?Hnl; cbn; try tauto; try lia; try discriminate;
         try (intros; split; [assumption | reflexivity]). }
  unfold accept_chunk, processChunks, mark_complete, send, note. cbn.
  rewrite pushed_nonempty, andb_true_r.
  destruct (get_prop data "isLast") as [lastv | v] eqn:Elast.
  2: { destruct data; cbn in Elast, Ety; congruence. }
  pose proof (is_last_chunk_eq _ _ _ Ety Elast) as Hil.
  rewrite Echunk in Hil. cbn in Hil.
  destruct (chunkCount s + 1 =? 1) eqn:Efirst;
    destruct (isComplete s) eqn:Ec;
    destruct (socket s) eqn:Es; try congruence;
    destruct (truthy lastv) eqn:Et; cbn;
    inv_block HInv;
    cbn;
    rewrite ?Hic, ?Hil, ?Ec, ?Es; cbn;
    try tauto; try lia; try discriminate;
    try (intros; split; [assumption | reflexivity]);
    try (intros; discriminate);
    try (apply Z.eqb_eq in Efirst;
         replace (chunkCount s =? 0) with true by (symmetry; apply Z.eqb_eq; lia);
         reflexivity);
    try (destruct (chunkCount s =? 0); reflexivity).
  all: try (apply Z.eqb_neq in Efirst; lia).
Qed.

Lemma processChunks_Inv (s : session) : Inv s -> Inv (processChunks s).
Proof.
  intros HInv. unfold processChunks, send.
  destruct (isComplete s) eqn:Ec;
    destruct (0 <? Z.of_nat (List.length (audioChunks s))) eqn:El;
    destruct (socket s) eqn:Es; cbn;
    inv_block HInv;
    cbn; rewrite ?Ec, ?Es; try tauto; try lia; try discriminate;
    try (intros; split; [assumption | reflexivity]);
    try (intros; discriminate);
    try (destruct (chunkCount s =? 0); reflexivity).
Qed.

Lemma on_final_timer_Inv (sessionId : string) (startTime now : Z) (s s' : session) :
  Inv s -> on_final_timer sessionId startTime now s = Some s' -> Inv s'.
Proof.
  intros HInv. unfold on_final_timer.
  destruct (finalizing s); [discriminate |].
  intros H. injection H as <-.
  eapply Inv_append with (b := []); try exact HInv;
    try (cbn; rewrite ?app_nil_r; reflexivity);
    cbn; try tauto; try lia; try discriminate;
    try (destruct (chunkCount s =? 0); reflexivity).
Qed.

Lemma on_db_answer_Inv (db : Store.insertion) (s s' : session) :
  Inv s -> on_db_answer db s = Some s' -> Inv s'.
Proof.
  intros HInv. unfold on_db_answer.
  destruct (creating s) as [| [doc finalText] waiting]; [discriminate |].
  destruct (Store.create db doc (store s)) as [[d | v] stored];
    intros H; injection H as <-; unfold close, send; cbn;
    destruct (socket s) eqn:Es; cbn;
    inv_block HInv;
    cbn; rewrite ?Es; try tauto; try lia; try discriminate;
    try (intros; split; [assumption | reflexivity]);
    try (intros; discriminate);
    try (destruct (chunkCount s =? 0); reflexivity).
Qed.

Lemma mark_complete_Inv (s : session) : Inv s -> Inv (mark_complete s).
Proof.
  intros HInv.
  eapply Inv_append with (b := [MarkedComplete]); try exact HInv;
    cbn; try tauto; try lia; try discriminate;
    try (intros; split; [assumption | reflexivity]);
    try (destruct (chunkCount s =? 0); reflexivity).
Qed.

Lemma on_close_Inv (s : session) : Inv s -> Inv (on_close s).
Proof.
  intros HInv.
  eapply Inv_append with (b := [MarkedComplete]); try exact HInv;
    cbn; try tauto; try lia; try discriminate;
    try (intros; split; [assumption | reflexivity]);
    try (destruct (chunkCount s =? 0); reflexivity).
Qed.

Lemma step_Inv (sessionId : string) (startTime : Z) (s s' : session) (i : input) :
  Inv s -> step sessionId startTime s i = Some s' -> Inv s'.
Proof.
  intros HInv. destruct i as [parsed | | now | db | |]; cbn.
  - destruct (socket s) eqn:Es; intros H; try discriminate;
      injection H as <-; apply on_message_Inv; congruence.
  - destruct (emitting s); intros H; [| discriminate].
    injection H as <-. apply processChunks_Inv, HInv.
  - apply on_final_timer_Inv, HInv.
  - apply on_db_answer_Inv, HInv.
  - destruct (socket s); intros H; try discriminate;
      injection H as <-; apply on_close_Inv, HInv.
  - intros H. injection H as <-. apply mark_complete_Inv, HInv.
Qed.

Lemma run_Inv (sessionId : string) (startTime : Z) (inputs : list input) :
  forall s s', Inv s -> run sessionId startTime s inputs = Some s' -> Inv s'.
Proof.
  induction inputs as [| i rest IH]; intros s s' HInv; cbn.
  - intros H. injection H as <-. exact HInv.
  - destruct (step sessionId startTime s i) as [s1 |] eqn:E; [| discriminate].
    apply IH. eapply step_Inv; eassumption.
Qed.

End StreamInvariant.

Module StreamClaims5.
Import Stream StreamSpec StreamFacts StreamInvariant.

(** C5, as amended: on every session the welcome partial is the first
    message sent; a final message, once sent, is the last message sent;
    no partial is sent once the session has been marked complete; and
    after the receipt of a chunk with [isLast = true] the only partial
    that can still be sent is the one with which the emission loop
    starts, sent while that chunk is handled and before the session is
    marked complete, when that chunk is the first chunk of the
    session. *)
Theorem session_messages_are_ordered
  (sessionId : string) (startTime : Z) (inputs : list input) (s : session) :
  run sessionId startTime connected inputs = Some s ->
  (exists rest, outbound (history s) = welcomeMessage :: rest) /\
  (forall h1 t i h2,
      history s = h1 ++ Sent (Final t i) :: h2 -> outbound h2 = []) /\
  (forall h1 h2,
      history s = h1 ++ MarkedComplete :: h2 ->
      forall t c, ~ In (Sent (Partial t c)) h2) /\
  (forall h1 p h2,
      history s = h1 ++ Received p :: h2 -> is_last_chunk p = true ->
      forall t c, In (Sent (Partial t c)) h2 ->
      has_chunk h1 = false /\
      exists h3, h2 = Sent (Partial t c) :: MarkedComplete :: h3).
Proof.
  intros Hrun.
  pose proof (run_Inv sessionId startTime inputs _ _ Inv_connected Hrun)
    as [Hhd [_ [_ [Hfl [Hq [_ [_ Hmal]]]]]]].
  split.
  { destruct (history s) as [| o rest]; [discriminate |].
    cbn in Hhd. injection Hhd as ->. eexists. reflexivity. }
  split; [apply final_last_sound, Hfl |].
  split; [apply quiet_once_complete_sound, Hq |].
  intros h1 p h2 Hsplit Hlast t c Hin.
  destruct (marked_after_last_sound _ _ Hmal h1 p h2 Hsplit Hlast)
    as [[h3 ->] | [m [h3 [-> [Hp [_ Hch]]]]]].
  - exfalso.
    apply (quiet_once_complete_sound _ Hq (h1 ++ [Received p]) h3) with (t := t) (c := c).
    + rewrite Hsplit, <- app_assoc. reflexivity.
    + destruct Hin as [Hin | Hin]; [discriminate | exact Hin].
  - split; [exact Hch |]. exists h3.
    destruct Hin as [Hin | [Hin | Hin]]; [rewrite Hin; reflexivity | discriminate |].
    exfalso.
    apply (quiet_once_complete_sound _ Hq (h1 ++ [Received p; Sent m]) h3)
      with (t := t) (c := c); [| exact Hin].
    rewrite Hsplit, <- app_assoc. reflexivity.
Qed.

Lemma session_messages_are_ordered_witness :
  exists s,
    run "s-1" 0 connected two_chunk_session = Some s /\
    (exists rest, outbound (history s) = welcomeMessage :: rest) /\
    (forall h1 t i h2,
        history s = h1 ++ Sent (Final t i) :: h2 -> outbound h2 = []).
Proof.
  assert (Hrun : exists s, run "s-1" 0 connected two_chunk_session = Some s)
    by (eexists; vm_compute; reflexivity).
  destruct Hrun as [s Hrun]. exists s. split; [exact Hrun |].
  pose proof (session_messages_are_ordered "s-1" 0 two_chunk_session s Hrun)
    as [Hfirst [Hlast _]].
  split; [exact Hfirst | exact Hlast].
Defined.

(** What the two-chunk session puts on the wire. *)
Example two_chunk_session_outbound :
  exists s,
    run "s-1" 0 connected two_chunk_session = Some s /\
    outbound (history s)
    = [welcomeMessage;
       Partial "Hello this" 55;
       Partial "Hello this" 55;
       Final (generateFinalTranscription "s-1" [Some (JsonString "chunk-1");
                                                Some (JsonString "chunk-2")])
             "65f0"].
Proof. eexists. split; vm_compute; reflexivity. Qed.

(** C5 as stated does not hold: when the first chunk of a session is
    also its last, the emission loop starts while that chunk is handled
    and one partial is sent after the chunk was received. *)
Lemma partial_follows_single_last_chunk :
  exists s,
    run "s-1" 0 connected single_last_chunk = Some s /\
    history s = [Sent welcomeMessage;
                 Received (chunk "a" true);
                 Sent (Partial "Hello this" 55);
                 MarkedComplete] /\
    is_last_chunk (chunk "a" true) = true /\
    ~ no_partial_after_last_chunk (history s).
Proof.
  eexists. split; [vm_compute; reflexivity |]. split; [reflexivity |].
  split; [reflexivity |].
  intros H.
  apply (H [Sent welcomeMessage] (chunk "a" true)
           [Sent (Partial "Hello this" 55); MarkedComplete]
           eq_refl eq_refl "Hello this"%string 55).
  left. reflexivity.
Qed.

End StreamClaims5.

Module StreamTwoChunks.
Import Stream StreamSpec StreamFacts StreamInvariant.

#[local] Arguments is_chunk : simpl never.
#[local] Arguments is_last_chunk : simpl never.





Section Histories.
Variable m2 : option json.






End Histories.

Section TwoChunkRuns.
Variable sessionId : string.
Variable startTime : Z.
Variables m1 m2 : option json.
Hypothesis m1_chunk : is_chunk m1 = true.
Hypothesis m1_not_last : is_last_chunk m1 = false.
Hypothesis m2_last : is_last_chunk m2 = true.




















End TwoChunkRuns.

End StreamTwoChunks.

Module StreamClaims6.
Import Stream StreamSpec StreamFacts StreamTwoChunks.




End StreamClaims6.

(* ================================================================== *)
(** * Further theorems                                                 *)
(* ================================================================== *)

Module RetryMore.
Import Retry RetrySpec RetryFacts RetryResults RetrySamples RetryBounds.

(** X1: for every operation and every policy, the executor invokes the
    operation at most [maxAttempts] times, one invocation after the
    other until the first that resolves; it returns only what the last
    invocation resolved with, and it throws only when there was no
    attempt at all ([undefined]) or when the last of [maxAttempts]
    invocations rejected (the normalised [Error]). *)
Theorem retry_stops_at_first_success
  {T : Type} (fn : nat -> settled T) (options : RetryOptions) :
  let r := retryWithBackoff fn options in
  invocations (trace r) = calls r /\
  Z.of_nat (calls r) <= Z.max 0 (maxAttempts options) /\
  (forall n, (1 <= n < calls r)%nat -> exists v, fn n = Reject v) /\
  (forall t, outcome r = Return t ->
             (1 <= calls r)%nat /\ fn (calls r) = Resolve t) /\
  (forall thrown, outcome r = Throw thrown ->
     (maxAttempts options < 1 /\ calls r = 0%nat /\ thrown = JUndefined) \/
     (Z.of_nat (calls r) = maxAttempts options /\
      exists v, fn (calls r) = Reject v /\ thrown = JErr (normalise v))).
Proof.
  intros r.
  destruct (Z_lt_le_dec (maxAttempts options) 1) as [Hlow | Hmax].
  - subst r. unfold retryWithBackoff. rewrite loop_exit by lia. cbn.
    split; [reflexivity |]. split; [lia |]. split; [intros n Hn; lia |].
    split; [intros t Ht; discriminate |].
    intros thrown Ht. injection Ht as <-. left. repeat split. exact Hlow.
  - destruct (loop_result fn options (Z.to_nat (maxAttempts options)) 0 None [])
      as [j [rejected [Hj [Hfail [Hcalls [Htrace Hout]]]]]]; [lia | lia |].
    change (Z.of_nat 0 + 1) with 1 in *. fold (retryWithBackoff fn options) in *.
    fold r in Hcalls, Htrace, Hout. cbn [Nat.add] in *.
    rewrite Hcalls.
    split.
    { rewrite Htrace. cbn [app]. rewrite invocations_app.
      change (invocations (flat_map (failed_round fn options) (seq 1 j)))
        with (invocations (failed_rounds fn options j)).
      rewrite RetryClaims.invocations_failed_rounds
        by (intros n Hn; apply Hfail; lia).
      cbn. lia. }
    split; [lia |].
    split; [intros n Hn; apply Hfail; lia |].
    split.
    + intros t Ht. split; [lia |].
      destruct Hout as [[t' [Hfn Ho]] | [v [_ [_ Ho]]]]; rewrite Ho in Ht;
        [injection Ht as <-; exact Hfn | discriminate].
    + intros thrown Ht. right.
      destruct Hout as [[t' [Hfn Ho]] | [v [Hlast [Hfn Ho]]]]; rewrite Ho in Ht;
        [discriminate |].
      injection Ht as <-. split; [lia |]. exists v. split; [exact Hfn | reflexivity].
Qed.

Lemma delay_schedule_bounds (options : RetryOptions) (j : nat) :
  0 <= initialDelay options -> 0 <= maxDelay options ->
  let ds := map (fun n => Z.min (initialDelay options * 2 ^ (Z.of_nat n - 2))
                                (maxDelay options)) (seq 2 j) in
  Forall (fun d => 0 <= d <= maxDelay options) ds /\
  fold_right Z.add 0 ds <= Z.of_nat j * maxDelay options.
Proof.
  intros Hi Hm. cbn zeta. generalize 2%nat as start.
  induction j as [| j IH]; intros start; [cbn; split; [constructor | lia] |].
  cbn [seq map fold_right]. destruct (IH (S start)) as [Hall Hsum].
  assert (Hd : 0 <= Z.min (initialDelay options * 2 ^ (Z.of_nat start - 2))
                          (maxDelay options) <= maxDelay options).
  { split; [| apply Z.le_min_r].
    apply Z.min_glb; [| exact Hm].
    apply Z.mul_nonneg_nonneg; [exact Hi |]. apply Z.pow_nonneg. lia. }
  split; [constructor; [exact Hd | exact Hall] |]. lia.
Qed.

(** X2: under a policy with at least one attempt and delays that are not
    negative, no single delay exceeds [maxDelay] and a whole run sleeps
    at most (maxAttempts - 1) * maxDelay, whatever the operation does. *)
Theorem retry_sleeps_within_bounds
  {T : Type} (fn : nat -> settled T) (options : RetryOptions) :
  1 <= maxAttempts options ->
  0 <= initialDelay options -> 0 <= maxDelay options ->
  let r := retryWithBackoff fn options in
  Forall (fun d => 0 <= d <= maxDelay options) (delays (trace r)) /\
  total_delay (trace r) <= (maxAttempts options - 1) * maxDelay options.
Proof.
  intros Hmax Hi Hm r.
  destruct (loop_result fn options (Z.to_nat (maxAttempts options)) 0 None [])
    as [j [rejected [Hj [Hfail [_ [Htrace _]]]]]]; [lia | lia |].
  change (Z.of_nat 0 + 1) with 1 in *. fold (retryWithBackoff fn options) in *.
  fold r in Htrace.
  assert (Hd : delays (trace r)
               = map (fun n => Z.min (initialDelay options * 2 ^ (Z.of_nat n - 2))
                                     (maxDelay options)) (seq 2 j)).
  { rewrite Htrace. cbn [app]. rewrite delays_app.
    cbn [delays flat_map]. rewrite app_nil_r.
    apply (RetryClaims.delays_failed_rounds fn options j).
    intros n Hn. apply Hfail. lia. }
  unfold total_delay. rewrite Hd.
  destruct (delay_schedule_bounds options j Hi Hm) as [Hall Hsum].
  split; [exact Hall |]. nia.
Qed.

Lemma retry_sleeps_within_bounds_witness :
  total_delay (trace (retryWithBackoff always_fail (policy 3 1000 10000))) <= 20000.
Proof.
  pose proof (retry_sleeps_within_bounds always_fail (policy 3 1000 10000)
                ltac:(cbn; lia) ltac:(cbn; lia) ltac:(cbn; lia)) as [_ H].
  exact H.
Defined.

Lemma retry_stops_at_first_success_witness :
  outcome (retryWithBackoff third_time_lucky (policy 5 1000 10000)) = Return "success"%string /\
  calls (retryWithBackoff third_time_lucky (policy 5 1000 10000)) = 3%nat /\
  third_time_lucky 3 = Resolve "success"%string.
Proof.
  assert (Hrun : outcome (retryWithBackoff third_time_lucky (policy 5 1000 10000))
                 = Return "success"%string /\
                 calls (retryWithBackoff third_time_lucky (policy 5 1000 10000)) = 3%nat)
    by (split; vm_compute; reflexivity).
  destruct Hrun as [Ho Hc]. split; [exact Ho |]. split; [exact Hc |].
  destruct (retry_stops_at_first_success third_time_lucky (policy 5 1000 10000))
    as [_ [_ [_ [Hret _]]]].
  destruct (Hret _ Ho) as [_ H]. rewrite Hc in H. exact H.
Defined.

End RetryMore.

Module UrlFacts.
Import Url UrlDefs.

Lemma substring_whole (s : string) :
  String.substring 0 (String.length s) s = s.
Proof. induction s as [| a r IH]; [reflexivity |]. cbn. rewrite IH. reflexivity. Qed.

Lemma substring_after (pre post : string) :
  String.substring (String.length pre) (String.length post) (pre ++ post) = post.
Proof.
  induction pre as [| a r IH]; cbn; [apply substring_whole | exact IH].
Qed.

Lemma length_append (a b : string) :
  String.length (a ++ b) = (String.length a + String.length b)%nat.
Proof. induction a as [| c r IH]; cbn; [reflexivity | rewrite IH; reflexivity]. Qed.

(** [lastIndexOf_from] finds the last occurrence, counted from [i]. *)
Lemma lastIndexOf_from_spec (c : ascii) (s : string) : forall i found,
  (contains c s = false /\ lastIndexOf_from c s i found = found) \/
  (exists pre post,
      s = (pre ++ String c post)%string /\ contains c post = false /\
      lastIndexOf_from c s i found = i + Z.of_nat (String.length pre)).
Proof.
  induction s as [| a r IH]; intros i found; [left; split; reflexivity |].
  cbn [lastIndexOf_from contains].
  destruct (IH (i + 1) (if Ascii.eqb a c then i else found))
    as [[Hno Hres] | [pre [post [Hs [Hno Hres]]]]].
  - destruct (Ascii.eqb a c) eqn:E.
    + right. apply Ascii.eqb_eq in E. subst a.
      exists EmptyString, r. cbn. repeat split; [exact Hno | rewrite Hres; lia].
    + left. cbn. split; [exact Hno | exact Hres].
  - right. exists (String a pre), post. subst r. cbn [append String.length].
    repeat split; [exact Hno | rewrite Hres; lia].
Qed.

(** What follows the last [c] of [s] (the whole of [s] when there is
    none) holds no [c] and ends [s]. *)
Lemma after_last_occurrence (c : ascii) (s : string) :
  contains c (substring_from (lastIndexOf c s + 1) s) = false /\
  exists before, s = (before ++ substring_from (lastIndexOf c s + 1) s)%string.
Proof.
  unfold lastIndexOf, substring_from.
  destruct (lastIndexOf_from_spec c s 0 (-1))
    as [[Hno ->] | [pre [post [-> [Hno ->]]]]].
  - cbn [Z.add Z.to_nat]. rewrite Nat.sub_0_r, substring_whole.
    split; [exact Hno | exists EmptyString; reflexivity].
  - replace (Z.to_nat (0 + Z.of_nat (String.length pre) + 1))
      with (String.length (pre ++ String c EmptyString)).
    2: { rewrite length_append. cbn. lia. }
    replace (pre ++ String c post)%string
      with ((pre ++ String c EmptyString) ++ post)%string.
    2: { induction pre as [| a r IH]; cbn; [reflexivity | rewrite IH; reflexivity]. }
    rewrite (length_append (pre ++ String c EmptyString) post).
    replace (String.length (pre ++ String c "") + String.length post
             - String.length (pre ++ String c ""))%nat
      with (String.length post) by lia.
    rewrite substring_after.
    split; [exact Hno | eexists; reflexivity].
Qed.

End UrlFacts.

Module UrlMore.
Import Url UrlDefs UrlFacts.

(** X3: whatever the URL and whatever the platform's parser answers,
    [getFilenameFromUrl] returns a name that is not empty and holds no
    ['/']; it is ['unknown'] when the URL does not parse, and otherwise
    ['unknown'] or the end of the path. *)
Theorem getFilenameFromUrl_is_a_file_name
  (URL_parse : string -> option URL) (url : string) :
  let name := getFilenameFromUrl URL_parse url in
  name <> ""%string /\
  contains "/"%char name = false /\
  (URL_parse url = None -> name = "unknown"%string) /\
  (forall parsed, URL_parse url = Some parsed ->
     name = "unknown"%string \/
     exists dir, pathname parsed = (dir ++ name)%string).
Proof.
  unfold getFilenameFromUrl.
  destruct (URL_parse url) as [parsed |].
  2: { cbn. repeat split; try discriminate; try reflexivity. }
  destruct (after_last_occurrence "/"%char (pathname parsed)) as [Hno [before Hb]].
  set (filename := substring_from (lastIndexOf "/"%char (pathname parsed) + 1)
                                  (pathname parsed)) in *.
  cbn zeta. unfold or_else.
  destruct (filename =? "")%string eqn:E.
  - repeat split; try discriminate; try reflexivity.
    intros p _. left. reflexivity.
  - apply String.eqb_neq in E.
    split; [exact E |]. split; [exact Hno |].
    split; [discriminate |].
    intros p Hp. injection Hp as <-. right. exists before. exact Hb.
Qed.

Lemma getFilenameFromUrl_is_a_file_name_witness :
  sample_URL_parse "https://example.com/audio/clip.mp3"
  = Some {| protocol := "https:"; pathname := "/audio/clip.mp3" |} /\
  (getFilenameFromUrl sample_URL_parse "https://example.com/audio/clip.mp3"
   = "unknown"%string \/
   exists dir, "/audio/clip.mp3"%string
               = (dir ++ getFilenameFromUrl sample_URL_parse
                           "https://example.com/audio/clip.mp3")%string).
Proof.
  assert (Hp : sample_URL_parse "https://example.com/audio/clip.mp3"
               = Some {| protocol := "https:"; pathname := "/audio/clip.mp3" |})
    by (vm_compute; reflexivity).
  split; [exact Hp |].
  destruct (getFilenameFromUrl_is_a_file_name sample_URL_parse
              "https://example.com/audio/clip.mp3") as [_ [_ [_ H]]].
  exact (H _ Hp).
Defined.

End UrlMore.

Module DownloadMore.
Import Retry RetrySpec Adapters AudioService BatchSpec DownloadSamples RetryResults.

Section Download.
Variable URL_parse : string -> option Url.URL.
Variable cfg : Config.
Context {H : Type} {H_client : IHttpClient H}.
Variable client : H.

(** X4: every failure of [downloadAudio] is an [Error] of class
    [InvalidUrlError] or [DownloadError].  For a URL that is not valid
    it is the [InvalidUrlError] of that URL, whatever the client; for a
    valid one, an error that is not of these two classes is replaced by
    a [DownloadError] (status 500) carrying its message. *)
Theorem downloadAudio_fails_with_url_or_download_error
  (audioUrl : string) (thrown : jsval) :
  downloadAudio URL_parse cfg client audioUrl = Throw thrown ->
  exists e,
    thrown = JErr e /\
    (cls e = InvalidUrlError \/ cls e = DownloadError) /\
    (Url.isValidUrl URL_parse audioUrl = false -> e = new_InvalidUrlError audioUrl) /\
    (Url.isValidUrl URL_parse audioUrl = true ->
     forall cause,
       outcome (retryWithBackoff (download_attempt client audioUrl)
                                 (download_policy cfg)) = Throw (JErr cause) ->
       is_url_or_download_error (JErr cause) = false ->
       e = new_DownloadError (message cause)).
Proof.
  unfold downloadAudio.
  destruct (Url.isValidUrl URL_parse audioUrl) eqn:Ev; cbn [negb].
  - destruct (outcome (retryWithBackoff _ _)) as [r | error] eqn:Eo; [discriminate |].
    destruct (is_url_or_download_error error) eqn:Ec.
    + intros Ht. injection Ht as <-.
      destruct error as [| | | | | e]; try discriminate.
      exists e. split; [reflexivity |].
      cbn in Ec. split.
      * destruct (cls e); cbn in Ec; try discriminate; auto.
      * split; [discriminate |].
        intros _ cause Hc Hn. injection Hc as <-. cbn in Hn. congruence.
    + intros Ht. injection Ht as <-. eexists. split; [reflexivity |].
      split; [right; reflexivity |]. split; [discriminate |].
      intros _ cause Hc _. injection Hc as ->. reflexivity.
  - intros Ht. injection Ht as <-. eexists. split; [reflexivity |].
    split; [left; reflexivity |]. split; [reflexivity | discriminate].
Qed.

(** X5: when [downloadAudio] returns, the URL is valid and the result
    is built from the first response of the client that carries a body,
    within [maxAttempts] requests: [success] is set, [data] is that
    body, [size] its length, and [contentType] the response's
    content-type header, ['audio/mpeg'] when the header is missing or
    empty. *)
Theorem downloadAudio_returns_first_body
  (audioUrl : string) (result : AudioDownloadResult) :
  downloadAudio URL_parse cfg client audioUrl = Return result ->
  Url.isValidUrl URL_parse audioUrl = true /\
  exists (n : nat) (response : HttpResponse) (body : Buffer),
    (1 <= n)%nat /\ Z.of_nat n <= retry_maxAttempts cfg /\
    get client audioUrl n = Resolve response /\
    Adapters.data response = Some body /\
    (forall m, (1 <= m < n)%nat ->
       (exists v, get client audioUrl m = Reject v) \/
       (exists r, get client audioUrl m = Resolve r /\ Adapters.data r = None)) /\
    success result = true /\
    AudioService.data result = Some body /\
    size result = Some (Z.of_nat (String.length body)) /\
    contentType result
    = Some (match header "content-type" (headers response) with
            | Some ct => if (ct =? "")%string then "audio/mpeg" else ct
            | None => "audio/mpeg"
            end).
Proof.
  unfold downloadAudio.
  destruct (Url.isValidUrl URL_parse audioUrl) eqn:Ev; cbn [negb]; [| discriminate].
  destruct (outcome (retryWithBackoff _ _)) as [r | error] eqn:Eo.
  2: { destruct (is_url_or_download_error error); discriminate. }
  intros Hr. injection Hr as ->. split; [reflexivity |].
  destruct (retry_returns_inv _ _ _ Eo) as [n [Hn [Hle [Hfn Hbefore]]]].
  unfold download_attempt in Hfn.
  destruct (get client audioUrl n) as [response | v] eqn:Eg; [| discriminate].
  destruct (Adapters.data response) as [body |] eqn:Ed; [| discriminate].
  injection Hfn as <-.
  exists n, response, body.
  split; [exact Hn |]. split; [exact Hle |]. split; [exact Eg |].
  split; [exact Ed |]. split.
  - intros m Hm. destruct (Hbefore m Hm) as [v Hv].
    unfold download_attempt in Hv.
    destruct (get client audioUrl m) as [r | w]; [| left; eexists; reflexivity].
    destruct (Adapters.data r) eqn:Er; [discriminate |].
    right. exists r. split; [reflexivity | exact Er].
  - cbn. repeat split.
Qed.

(** X6: when the configured [maxAttempts] is below 1, a valid URL is
    never requested: [downloadAudio] fails with a [DownloadError] whose
    message is ['Unknown download error'], whatever the client. *)
Theorem downloadAudio_without_attempts
  (audioUrl : string) :
  retry_maxAttempts cfg < 1 ->
  Url.isValidUrl URL_parse audioUrl = true ->
  downloadAudio URL_parse cfg client audioUrl
  = Throw (JErr (new_DownloadError "Unknown download error")) /\
  calls (retryWithBackoff (download_attempt client audioUrl) (download_policy cfg))
  = 0%nat.
Proof.
  intros Hlow Hv. unfold downloadAudio. rewrite Hv. cbn [negb].
  unfold retryWithBackoff. rewrite RetryFacts.loop_exit by (cbn; lia).
  cbn. split; reflexivity.
Qed.

End Download.

Lemma downloadAudio_fails_with_url_or_download_error_witness :
  downloadAudio Url.sample_URL_parse test_config test_http "not-a-url"
  = Throw (JErr (new_InvalidUrlError "not-a-url")).
Proof.
  assert (Hrun : exists thrown,
             downloadAudio Url.sample_URL_parse test_config test_http "not-a-url"
             = Throw thrown) by (eexists; reflexivity).
  destruct Hrun as [thrown Hrun].
  destruct (downloadAudio_fails_with_url_or_download_error
              Url.sample_URL_parse test_config test_http "not-a-url" thrown Hrun)
    as [e [-> [_ [Hinv _]]]].
  rewrite Hrun, (Hinv eq_refl). reflexivity.
Defined.

Lemma downloadAudio_returns_first_body_witness :
  exists result,
    downloadAudio Url.sample_URL_parse test_config test_http
                  "https://example.com/test.mp3" = Return result /\
    size result = Some 28.
Proof.
  assert (Hrun : exists result,
             downloadAudio Url.sample_URL_parse test_config test_http
                           "https://example.com/test.mp3" = Return result)
    by (eexists; vm_compute; reflexivity).
  destruct Hrun as [result Hrun]. exists result. split; [exact Hrun |].
  destruct (downloadAudio_returns_first_body
              Url.sample_URL_parse test_config test_http
              "https://example.com/test.mp3" result Hrun)
    as [_ [n [response [body [_ [_ [Hget [Hbody [_ [_ [_ [Hsize _]]]]]]]]]]]].
  rewrite Hsize. cbn in Hget. injection Hget as <-. cbn in Hbody.
  injection Hbody as <-. reflexivity.
Defined.

Lemma downloadAudio_without_attempts_witness :
  downloadAudio Url.sample_URL_parse no_attempt_config test_http
                "https://example.com/test.mp3"
  = Throw (JErr (new_DownloadError "Unknown download error")).
Proof.
  exact (proj1 (downloadAudio_without_attempts
                  Url.sample_URL_parse no_attempt_config test_http
                  "https://example.com/test.mp3" ltac:(cbn; lia) eq_refl)).
Defined.

End DownloadMore.

Module PipelineFacts.
Import Retry RetrySpec Store Adapters AudioService Response BatchSpec.

Lemma first_attempt_resolves {T : Type} (fn : nat -> settled T)
  (options : RetryOptions) (t : T) :
  1 <= maxAttempts options -> fn 1%nat = Resolve t ->
  retryWithBackoff fn options = mkRun (Return t) 1 [EvCall 1 None].
Proof.
  intros Hmax Hfn.
  apply (RetryClaims.success_on_attempt_k fn options 1 t); [lia | lia |].
  split; [intros n Hn; lia | exact Hfn].
Qed.

Lemma mock_sentence_required (lang : LanguageCode) :
  (mock_sentence lang =? "")%string = false.
Proof. destruct lang; reflexivity. Qed.

Lemma createSpeechClient_isConfigured (cfg : Config) (provider : nat -> sdk_session) :
  isConfigured (createSpeechClient cfg provider) = true.
Proof.
  unfold createSpeechClient.
  destruct (hasAzureCredentials cfg) eqn:E; [| reflexivity].
  exact E.
Qed.

Lemma test_mode_download
  (URL_parse : string -> option Url.URL) (cfg : Config)
  (net : string -> nat -> settled HttpResponse) (audioUrl : string) :
  isTest cfg = true ->
  1 <= retry_maxAttempts cfg ->
  Url.isValidUrl URL_parse audioUrl = true ->
  let body := ("MOCK_AUDIO_DATA_FOR_" ++ Url.getFilenameFromUrl URL_parse audioUrl)%string in
  downloadAudio URL_parse cfg (createHttpClient cfg URL_parse net) audioUrl
  = Return {| success := true;
              contentType := Some "audio/mpeg"%string;
              size := Some (Z.of_nat (String.length body));
              AudioService.data := Some body |} /\
  calls (retryWithBackoff
           (download_attempt (createHttpClient cfg URL_parse net) audioUrl)
           (download_policy cfg)) = 1%nat.
Proof.
  intros Htest Hmax Hvalid body.
  unfold downloadAudio, createHttpClient. rewrite Hvalid, Htest. cbn [negb].
  rewrite (first_attempt_resolves _ _
             {| success := true;
                contentType := Some "audio/mpeg"%string;
                size := Some (Z.of_nat (String.length body));
                AudioService.data := Some body |}).
  - split; reflexivity.
  - exact Hmax.
  - reflexivity.
Qed.

(** The three attempts of the provider pipeline when each of them is
    rejected. *)
Lemma transcription_retry_exhausted {T : Type} (fn : nat -> settled T)
  (audioUrl : string) (v1 v2 v3 : jsval) :
  fn 1%nat = Reject v1 -> fn 2%nat = Reject v2 -> fn 3%nat = Reject v3 ->
  let r := retryWithBackoff fn (AzureSpeechService.transcription_policy audioUrl) in
  outcome r = Throw (JErr (normalise v3)) /\
  calls r = 3%nat /\
  delays (trace r) = [1000; 2000].
Proof.
  intros H1 H2 H3. cbn zeta. unfold retryWithBackoff.
  rewrite (RetryFacts.loop_reject_retry _ _ 1 None 0%nat [] v1);
    [| cbn; lia | reflexivity | exact H1].
  rewrite (RetryFacts.loop_reject_retry _ _ (1 + 1) _ 1%nat _ v2);
    [| cbn; lia | reflexivity | exact H2].
  rewrite (RetryFacts.loop_reject_last _ _ (1 + 1 + 1) _ 2%nat _ v3);
    [| reflexivity | exact H3].
  cbn [outcome calls trace]. split; [reflexivity |]. split; [reflexivity |].
  rewrite !RetryFacts.delays_app. unfold failed_round. rewrite H1, H2.
  reflexivity.
Qed.

End PipelineFacts.

Module PipelineMore.
Import Retry RetrySpec Store Adapters AudioService Response BatchSpec.
Import PipelineSamples PipelineFacts.

(** X7: in test mode the factory's HTTP client never consults the
    network: with at least one attempt configured, every valid URL is
    downloaded at the first request, and the body is the mock data named
    after the URL's file name, of content type ['audio/mpeg']. *)
Theorem test_mode_download_succeeds_at_once
  (URL_parse : string -> option Url.URL) (cfg : Config)
  (net : string -> nat -> settled HttpResponse) (audioUrl : string) :
  isTest cfg = true ->
  1 <= retry_maxAttempts cfg ->
  Url.isValidUrl URL_parse audioUrl = true ->
  let body := ("MOCK_AUDIO_DATA_FOR_" ++ Url.getFilenameFromUrl URL_parse audioUrl)%string in
  downloadAudio URL_parse cfg (createHttpClient cfg URL_parse net) audioUrl
  = Return {| success := true;
              contentType := Some "audio/mpeg"%string;
              size := Some (Z.of_nat (String.length body));
              AudioService.data := Some body |} /\
  calls (retryWithBackoff
           (download_attempt (createHttpClient cfg URL_parse net) audioUrl)
           (download_policy cfg)) = 1%nat.
Proof. exact (test_mode_download URL_parse cfg net audioUrl). Qed.

Lemma test_mode_download_succeeds_at_once_witness :
  downloadAudio Url.sample_URL_parse test_config
    (createHttpClient test_config Url.sample_URL_parse DownloadSamples.timing_out)
    "https://example.com/a.mp3"
  = Return {| success := true;
              contentType := Some "audio/mpeg"%string;
              size := Some 25;
              AudioService.data := Some "MOCK_AUDIO_DATA_FOR_a.mp3"%string |}.
Proof.
  exact (proj1 (test_mode_download_succeeds_at_once
                  Url.sample_URL_parse test_config DownloadSamples.timing_out
                  "https://example.com/a.mp3" eq_refl ltac:(cbn; lia) eq_refl)).
Defined.

(** X8: whatever the configuration, the speech client that the factory
    selects reports itself configured; so every record that the provider
    pipeline persists through it has origin ['azure'], also when the
    client is the mock one. *)
Theorem factory_client_records_are_azure
  (URL_parse : string -> option Url.URL) (cfg : Config)
  {H : Type} {H_client : IHttpClient H} (http : H)
  (provider : nat -> sdk_session)
  (db : insertion) (c c' : collection) (audioUrl : string) (lang : LanguageCode)
  (r : TranscriptionResponse) :
  AzureSpeechService.transcribeAudio URL_parse cfg http
    (createSpeechClient cfg provider) db c audioUrl lang = (Return r, c') ->
  isConfigured (createSpeechClient cfg provider) = true /\
  Response.source r = azure /\
  exists doc, c' = c ++ [doc] /\ Store.source doc = azure /\ r = of_doc doc.
Proof.
  intros Hrun. split; [apply createSpeechClient_isConfigured |].
  unfold AzureSpeechService.transcribeAudio in Hrun.
  rewrite createSpeechClient_isConfigured in Hrun.
  destruct (downloadAudio URL_parse cfg http audioUrl) as [a | v]; [| discriminate].
  destruct (AudioService.data a) as [audio |]; [| discriminate].
  destruct (outcome (retryWithBackoff _ _)) as [result | v]; [| discriminate].
  match type of Hrun with context [create db ?d c] =>
    destruct (BatchFacts.create_appends_or_fails db d c)
      as [[stored [Hc [Hsrc _]]] | [v Hc]]; rewrite Hc in Hrun
  end; [| discriminate].
  injection Hrun as <- <-. cbn in Hsrc.
  split; [exact Hsrc |]. exists stored. repeat split. exact Hsrc.
Qed.

Lemma factory_client_records_are_azure_witness :
  exists r c',
    AzureSpeechService.transcribeAudio Url.sample_URL_parse test_config test_http
      (createSpeechClient test_config no_provider) (Inserted "65a2" 1704067200000) []
      "https://example.com/sample.mp3" en_US = (Return r, c') /\
    Response.source r = azure.
Proof.
  assert (Hrun : exists r c',
    AzureSpeechService.transcribeAudio Url.sample_URL_parse test_config test_http
      (createSpeechClient test_config no_provider) (Inserted "65a2" 1704067200000) []
      "https://example.com/sample.mp3" en_US = (Return r, c'))
    by (eexists; eexists; vm_compute; reflexivity).
  destruct Hrun as [r [c' Hrun]]. exists r, c'. split; [exact Hrun |].
  exact (proj1 (proj2 (factory_client_records_are_azure _ _ _ _ _ _ _ _ _ _ Hrun))).
Defined.

(** X9: a process in test mode without provider credentials serves the
    provider pipeline from the mocks alone: for a valid, non-blank URL
    and an accepted insertion, the call stores and returns one record
    whose text is the mock sentence of the requested language, with
    that language and the trimmed URL. *)
Theorem test_mode_provider_pipeline_succeeds
  (URL_parse : string -> option Url.URL) (cfg : Config)
  (net : string -> nat -> settled HttpResponse) (provider : nat -> sdk_session)
  (assigned_id : string) (t : Z) (c : collection)
  (audioUrl : string) (lang : LanguageCode) :
  isTest cfg = true ->
  hasAzureCredentials cfg = false ->
  1 <= retry_maxAttempts cfg ->
  Url.isValidUrl URL_parse audioUrl = true ->
  Url.trim audioUrl <> ""%string ->
  AzureSpeechService.transcribeAudio URL_parse cfg
    (createHttpClient cfg URL_parse net) (createSpeechClient cfg provider)
    (Inserted assigned_id t) c audioUrl lang
  = (Return (of_doc (mock_recognition_doc assigned_id t audioUrl lang)),
     c ++ [mock_recognition_doc assigned_id t audioUrl lang]).
Proof.
  intros Htest Hcred Hmax Hvalid Hblank.
  unfold AzureSpeechService.transcribeAudio.
  rewrite (proj1 (test_mode_download URL_parse cfg net audioUrl Htest Hmax Hvalid)).
  rewrite createSpeechClient_isConfigured.
  cbn [AudioService.data].
  unfold createSpeechClient. rewrite Hcred.
  rewrite (first_attempt_resolves _ _
             {| Adapters.text := mock_sentence lang;
                Adapters.confidence := Some 95;
                Adapters.language := lang;
                Adapters.duration := Some 2500 |});
    [| cbn; lia |].
  2: { cbn. unfold mock_transcribe, Url.or_else.
       rewrite mock_sentence_required. reflexivity. }
  cbn [outcome text]. unfold create, required_failures.
  cbn [new_audioUrl new_transcription].
  rewrite mock_sentence_required.
  destruct (Url.trim audioUrl =? "")%string eqn:E;
    [apply String.eqb_eq in E; contradiction |].
  reflexivity.
Qed.

Lemma test_mode_provider_pipeline_succeeds_witness :
  AzureSpeechService.transcribeAudio Url.sample_URL_parse test_config
    (createHttpClient test_config Url.sample_URL_parse DownloadSamples.timing_out)
    (createSpeechClient test_config no_provider)
    (Inserted "65a3" 1704067200000) [] "https://example.com/a.mp3" fr_FR
  = (Return (of_doc (mock_recognition_doc "65a3" 1704067200000
                       "https://example.com/a.mp3" fr_FR)),
     [mock_recognition_doc "65a3" 1704067200000 "https://example.com/a.mp3" fr_FR]).
Proof.
  exact (test_mode_provider_pipeline_succeeds
           Url.sample_URL_parse test_config DownloadSamples.timing_out no_provider
           "65a3" 1704067200000 [] "https://example.com/a.mp3" fr_FR
           eq_refl eq_refl ltac:(cbn; lia) eq_refl ltac:(vm_compute; discriminate)).
Defined.

Section Provider.
Variable URL_parse : string -> option Url.URL.
Variable cfg : Config.
Context {H : Type} {H_client : IHttpClient H}.
Variable http : H.
Context {S : Type} {S_client : ISpeechClient S}.
Variable client : S.

(** X10: when the download succeeds and the speech client rejects each
    of its calls, the provider pipeline calls it exactly three times,
    waits 1000 ms and then 2000 ms between the calls, throws the third
    rejection (as an [Error]) and persists nothing, whatever the
    database would have answered. *)
Theorem provider_pipeline_gives_up_after_three_attempts
  (db : insertion) (c : collection) (audioUrl : string) (lang : LanguageCode)
  (result : AudioDownloadResult) (audio : Buffer) (v1 v2 v3 : jsval) :
  downloadAudio URL_parse cfg http audioUrl = Return result ->
  AudioService.data result = Some audio ->
  transcribe client audio lang 1 = Reject v1 ->
  transcribe client audio lang 2 = Reject v2 ->
  transcribe client audio lang 3 = Reject v3 ->
  AzureSpeechService.transcribeAudio URL_parse cfg http client db c audioUrl lang
  = (Throw (JErr (normalise v3)), c) /\
  calls (retryWithBackoff (transcribe client audio lang)
                          (AzureSpeechService.transcription_policy audioUrl)) = 3%nat /\
  delays (trace (retryWithBackoff (transcribe client audio lang)
                   (AzureSpeechService.transcription_policy audioUrl)))
  = [1000; 2000].
Proof.
  intros Hd Ha H1 H2 H3.
  destruct (transcription_retry_exhausted (transcribe client audio lang)
              audioUrl v1 v2 v3 H1 H2 H3) as [Ho [Hc Hdel]].
  split; [| split; [exact Hc | exact Hdel]].
  unfold AzureSpeechService.transcribeAudio. rewrite Hd, Ha, Ho. reflexivity.
Qed.

End Provider.

Lemma provider_pipeline_gives_up_after_three_attempts_witness :
  AzureSpeechService.transcribeAudio Url.sample_URL_parse test_config test_http
    unconfigured_client (Inserted "65a4" 1704067200000) []
    "https://example.com/a.mp3" en_US
  = (Throw (JErr (new_ExternalServiceError
                    "Azure Speech credentials not configured" "Azure")), []).
Proof.
  assert (Hd : exists result, downloadAudio Url.sample_URL_parse test_config test_http
                 "https://example.com/a.mp3" = Return result
               /\ AudioService.data result = Some "MOCK_AUDIO_DATA_FOR_a.mp3"%string)
    by (eexists; split; vm_compute; reflexivity).
  destruct Hd as [result [Hd Ha]].
  exact (proj1 (provider_pipeline_gives_up_after_three_attempts
                  Url.sample_URL_parse test_config test_http unconfigured_client
                  (Inserted "65a4" 1704067200000) [] "https://example.com/a.mp3" en_US
                  result _ _ _ _ Hd Ha eq_refl eq_refl eq_refl)).
Defined.


End PipelineMore.

Module SpeechMore.
Import Retry Store Adapters SpeechSpec SpeechFacts SpeechSettling.
Import AudioService Response PipelineSamples.

Lemma settlement_settled (lang : LanguageCode) (acc : string) (e : sdk_event) :
  settles e = true -> settlement lang acc e <> Pending.
Proof.
  destruct e as [r t | el | [] d el | err | el]; cbn; try discriminate.
  intros _. destruct (acc =? "")%string; discriminate.
Qed.

(** The first settling event decides. *)
Lemma first_settling_event_decides (lang : LanguageCode)
  (before : list sdk_event) (e : sdk_event) (after : list sdk_event) :
  only_recognitions before -> settles e = true ->
  settled_as (after_events lang (before ++ e :: after))
  = settlement lang (joined (recognized_texts before)) e.
Proof.
  intros Hrec He. unfold after_events.
  rewrite fold_left_app. cbn [fold_left].
  rewrite (fold_recognitions lang before Hrec).
  rewrite settled_stays_settled.
  - destruct e as [r t | el | [] d el | err | el]; try discriminate;
      reflexivity.
  - pose proof (settlement_settled lang (joined (recognized_texts before)) e He) as Hs.
    destruct e as [r t | el | [] d el | err | el]; try discriminate; cbn in *;
      try discriminate.
    unfold joined in Hs.
    destruct (fold_left _ (recognized_texts before) "" =? "")%string; discriminate.
Qed.

(** X11: the call of the real client is decided by the first event that
    settles it: a session stop resolves with the trimmed text recognised
    so far (confidence 0.9), a cancellation with reason Error or a
    failed start rejects with an [ExternalServiceError] carrying the
    provider's details, any other cancellation resolves with the text so
    far; whatever the recogniser reports afterwards, and the 60-second
    timer, change nothing. *)
Theorem real_transcribe_settles_once
  (c : RealSpeechClient) (audioData : Buffer) (lang : LanguageCode) (n : nat)
  (before : list sdk_event) (e : sdk_event) (after : list sdk_event) (elapsed : Z) :
  real_isConfigured c = true ->
  sessions c n = Session (before ++ e :: after) elapsed ->
  only_recognitions before ->
  settles e = true ->
  transcribe c audioData lang n
  = match settlement lang (joined (recognized_texts before)) e with
    | Fulfilled r => Resolve r
    | Rejected v => Reject v
    | Pending => Reject JUndefined
    end /\
  settlement lang (joined (recognized_texts before)) e <> Pending.
Proof.
  intros Hcfg Hsess Hrec He.
  split; [| apply settlement_settled, He].
  cbn [transcribe RealSpeechClient_ISpeechClient]. unfold real_transcribe.
  rewrite Hcfg, Hsess. cbn [negb session_promise].
  replace ((before ++ e :: after) ++ [TimeoutFired elapsed])
    with (before ++ e :: (after ++ [TimeoutFired elapsed]))
    by (rewrite <- app_assoc; reflexivity).
  rewrite (first_settling_event_decides lang before e _ Hrec He).
  reflexivity.
Qed.

Lemma real_transcribe_settles_once_witness :
  transcribe
    (SpeechSamples.configured_client
       (Session [Recognized RecognizedSpeech "good morning";
                 Canceled CancelError "quota exceeded" 900;
                 Recognized RecognizedSpeech "late";
                 SessionStopped 950] 60000))
    "RIFF"%string en_US 1
  = Reject (JErr (new_ExternalServiceError "quota exceeded" "Azure Speech")).
Proof.
  exact (proj1 (real_transcribe_settles_once
           (SpeechSamples.configured_client
              (Session [Recognized RecognizedSpeech "good morning";
                        Canceled CancelError "quota exceeded" 900;
                        Recognized RecognizedSpeech "late";
                        SessionStopped 950] 60000))
           "RIFF"%string en_US 1
           [Recognized RecognizedSpeech "good morning"]
           (Canceled CancelError "quota exceeded" 900)
           [Recognized RecognizedSpeech "late"; SessionStopped 950] 60000
           eq_refl eq_refl
           ltac:(repeat constructor) eq_refl)).
Defined.

Section Silent.
Variable URL_parse : string -> option Url.URL.
Variable cfg : Config.
Context {H : Type} {H_client : IHttpClient H}.
Variable http : H.

(** X12: when the provider ends the session having recognised nothing,
    the real client resolves with an empty text; the provider pipeline
    then fails on the required [transcription] field, with the database
    library's [ValidationError] (not one of the application's error
    classes), and persists nothing, whatever the database would have
    answered. *)
Theorem silent_audio_is_not_persisted
  (c : RealSpeechClient) (db : insertion) (col : collection)
  (audioUrl : string) (lang : LanguageCode)
  (result : AudioDownloadResult) (audio : Buffer)
  (stopped_at elapsed : Z) (after : list sdk_event) :
  real_isConfigured c = true ->
  sessions c 1%nat = Session (SessionStopped stopped_at :: after) elapsed ->
  downloadAudio URL_parse cfg http audioUrl = Return result ->
  AudioService.data result = Some audio ->
  Url.trim audioUrl <> ""%string ->
  transcribe c audio lang 1
  = Resolve {| Adapters.text := ""; Adapters.confidence := Some 90;
               Adapters.language := lang; Adapters.duration := Some stopped_at |} /\
  AzureSpeechService.transcribeAudio URL_parse cfg http c db col audioUrl lang
  = (Throw (JErr {| cls := MongooseValidationError;
                    message := "Transcription validation failed: transcription: Transcription text is required";
                    statusCode := None; code := None |}), col).
Proof.
  intros Hcfg Hsess Hd Ha Hblank.
  assert (Ht : transcribe c audio lang 1
               = Resolve {| Adapters.text := ""; Adapters.confidence := Some 90;
                            Adapters.language := lang;
                            Adapters.duration := Some stopped_at |}).
  { cbn [transcribe RealSpeechClient_ISpeechClient]. unfold real_transcribe.
    rewrite Hcfg, Hsess. cbn [negb session_promise].
    change ((SessionStopped stopped_at :: after) ++ [TimeoutFired elapsed])
      with ([] ++ SessionStopped stopped_at :: (after ++ [TimeoutFired elapsed])).
    rewrite (first_settling_event_decides lang [] (SessionStopped stopped_at)
               (after ++ [TimeoutFired elapsed]) (Forall_nil _) eq_refl).
    reflexivity. }
  split; [exact Ht |].
  unfold AzureSpeechService.transcribeAudio. rewrite Hd, Ha.
  assert (Hmax : 1 <= maxAttempts (AzureSpeechService.transcription_policy audioUrl))
    by (cbn; lia).
  rewrite (PipelineFacts.first_attempt_resolves (transcribe c audio lang)
             (AzureSpeechService.transcription_policy audioUrl) _ Hmax Ht).
  cbn [outcome Adapters.text]. unfold create, required_failures.
  cbn [new_audioUrl new_transcription].
  destruct (Url.trim audioUrl =? "")%string eqn:E;
    [apply String.eqb_eq in E; contradiction |].
  reflexivity.
Qed.

End Silent.

Lemma silent_audio_is_not_persisted_witness :
  AzureSpeechService.transcribeAudio Url.sample_URL_parse BatchSpec.test_config
    BatchSpec.test_http (SpeechSamples.configured_client nothing_recognised)
    (Inserted "65a5" 1704067200000) [] "https://example.com/a.mp3" en_US
  = (Throw (JErr {| cls := MongooseValidationError;
                    message := "Transcription validation failed: transcription: Transcription text is required";
                    statusCode := None; code := None |}), []).
Proof.
  assert (Hd : exists result,
             downloadAudio Url.sample_URL_parse BatchSpec.test_config BatchSpec.test_http
               "https://example.com/a.mp3" = Return result
             /\ AudioService.data result = Some "MOCK_AUDIO_DATA_FOR_a.mp3"%string)
    by (eexists; split; vm_compute; reflexivity).
  destruct Hd as [result [Hd Ha]].
  exact (proj2 (silent_audio_is_not_persisted
                  Url.sample_URL_parse BatchSpec.test_config BatchSpec.test_http
                  (SpeechSamples.configured_client nothing_recognised)
                  (Inserted "65a5" 1704067200000) [] "https://example.com/a.mp3" en_US
                  result _ 1200 60000 [] eq_refl eq_refl Hd Ha
                  ltac:(vm_compute; discriminate))).
Defined.

End SpeechMore.

Module StoreMore.
Import Store StoreSpec StoreFacts Listing.

(** Among records of pairwise different [createdAt], the order newest
    first is unique. *)
Lemma same_createdAt_same_record (l : list ITranscription) (a b : ITranscription) :
  NoDup (map createdAt l) -> In a l -> In b l -> createdAt a = createdAt b -> a = b.
Proof.
  induction l as [| x rest IH]; intros Hnd Ha Hb Heq; [contradiction |].
  cbn in Hnd. inversion Hnd as [| ? ? Hnot Hrest]; subst.
  destruct Ha as [-> | Ha], Hb as [-> | Hb].
  - reflexivity.
  - exfalso. apply Hnot. rewrite Heq. apply in_map, Hb.
  - exfalso. apply Hnot. rewrite <- Heq. apply in_map, Ha.
  - apply IH; assumption.
Qed.

Lemma newest_first_unique (l1 : list ITranscription) : forall l2,
  StronglySorted newer_first l1 -> StronglySorted newer_first l2 ->
  Permutation l1 l2 -> NoDup (map createdAt l1) -> l1 = l2.
Proof.
  induction l1 as [| a rest1 IH]; intros l2 Hs1 Hs2 Hperm Hnd.
  - apply Permutation_nil in Hperm. subst. reflexivity.
  - destruct l2 as [| b rest2];
      [apply Permutation_sym, Permutation_nil in Hperm; discriminate |].
    inversion Hs1 as [| ? ? Hs1' Hall1]; subst.
    inversion Hs2 as [| ? ? Hs2' Hall2]; subst.
    assert (Hab : a = b).
    { assert (Hb : In b (a :: rest1))
        by (eapply Permutation_in; [apply Permutation_sym, Hperm | left; reflexivity]).
      assert (Ha : In a (b :: rest2))
        by (eapply Permutation_in; [exact Hperm | left; reflexivity]).
      apply (same_createdAt_same_record (a :: rest1) a b Hnd (or_introl eq_refl) Hb).
      rewrite Forall_forall in Hall1, Hall2.
      destruct Hb as [-> | Hb]; [reflexivity |].
      destruct Ha as [-> | Ha]; [reflexivity |].
      pose proof (Hall1 b Hb) as H1. pose proof (Hall2 a Ha) as H2.
      unfold newer_first in H1, H2. lia. }
    subst b. f_equal.
    apply IH; try assumption.
    + eapply Permutation_cons_inv. exact Hperm.
    + cbn in Hnd. inversion Hnd. assumption.
Qed.

Lemma database_order_unique
  (sort1 sort2 : list ITranscription -> list ITranscription) (l : list ITranscription) :
  sorts_newest_first sort1 -> sorts_newest_first sort2 ->
  NoDup (map createdAt l) -> sort1 l = sort2 l.
Proof.
  intros H1 H2 Hnd.
  destruct (H1 l) as [Hp1 Hs1]. destruct (H2 l) as [Hp2 Hs2].
  apply newest_first_unique; try assumption.
  - eapply perm_trans; [exact Hp1 | apply Permutation_sym, Hp2].
  - eapply Permutation_NoDup; [| exact Hnd].
    apply Permutation_map, Permutation_sym, Hp1.
Qed.

(** X13: pages partition the selected records.  For a valid threshold,
    a page >= 1 and a page size >= 1, the page holds
    min(pageSize, total - (page-1) * pageSize) records, none when that
    is not positive; so every page before the last is full and pages
    past the last are empty.  When the selected records have pairwise
    different [createdAt], every one of them is on one of the pages
    1 .. totalPages, whatever order among equal timestamps the database
    chooses for each query. *)
Theorem pages_partition_the_selection
  (envs : Z -> QueryEnv) (now : Z) (c : collection) (days limit : Z)
  (source : option string) (threshold : Z) :
  (forall k, sorts_newest_first (sort_createdAt_desc (envs k))) ->
  (forall k, Date_days_back (envs k) now days = Some threshold) ->
  1 <= limit ->
  (forall page, 1 <= page ->
     exists p,
       findRecentTranscriptions (envs page) now c days page limit source = Return p /\
       total p = countDocuments (build_query threshold source) c /\
       Z.of_nat (List.length (transcriptions p))
       = Z.max 0 (Z.min limit (total p - (page - 1) * limit))) /\
  (NoDup (map createdAt (find (build_query threshold source) c)) ->
   forall r, In r c -> matches (build_query threshold source) r = true ->
     exists page p,
       1 <= page /\
       (page - 1) * limit < countDocuments (build_query threshold source) c /\
       findRecentTranscriptions (envs page) now c days page limit source = Return p /\
       In r (transcriptions p)).
Proof.
  intros Hsort Hdate Hl. set (q := build_query threshold source). split.
  - intros page Hp. eexists.
    split; [apply (findRecentTranscriptions_page _ _ _ _ _ _ _ threshold);
            [apply Hdate | exact Hp | exact Hl] |].
    cbn [transcriptions total]. fold q. split; [reflexivity |].
    rewrite length_firstn, length_skipn.
    rewrite (Permutation_length (proj1 (Hsort page (find q c)))).
    unfold countDocuments, find.
    assert (Hskip : 0 <= (page - 1) * limit) by nia.
    generalize dependent ((page - 1) * limit). intros skip_by Hskip. lia.
  - intros Hnd r Hin Hm.
    set (sorted := sort_createdAt_desc (envs 1) (find q c)).
    assert (Hsame : forall k, sort_createdAt_desc (envs k) (find q c) = sorted).
    { intros k. apply database_order_unique; [apply Hsort | apply Hsort | exact Hnd]. }
    assert (Hlen : List.length sorted = List.length (filter (matches q) c)).
    { apply Permutation_length, (proj1 (Hsort 1 (find q c))). }
    assert (Hs : In r sorted).
    { eapply Permutation_in;
        [apply Permutation_sym, (proj1 (Hsort 1 (find q c))) |].
      apply filter_In. split; assumption. }
    destruct (In_nth_error _ _ Hs) as [i Hi].
    assert (Hlt : (i < List.length (filter (matches q) c))%nat).
    { rewrite <- Hlen. apply nth_error_Some. rewrite Hi. discriminate. }
    set (k := Z.of_nat i / limit).
    assert (Hk : 0 <= k) by (apply Z.div_pos; lia).
    pose proof (Z.div_mod (Z.of_nat i) limit ltac:(lia)) as Hdm.
    pose proof (Z.mod_pos_bound (Z.of_nat i) limit ltac:(lia)) as Hmod.
    fold k in Hdm.
    exists (k + 1). eexists.
    split; [lia |]. split.
    { unfold countDocuments. replace (k + 1 - 1) with k by lia. nia. }
    split; [apply (findRecentTranscriptions_page _ _ _ _ _ _ _ threshold);
            [apply Hdate | lia | exact Hl] |].
    cbn [transcriptions]. fold q. rewrite Hsame.
    apply (nth_error_In _ (Z.to_nat (Z.of_nat i mod limit))).
    rewrite nth_error_firstn.
    destruct (Z.to_nat (Z.of_nat i mod limit) <? Z.to_nat limit)%nat eqn:E;
      [| apply Nat.ltb_ge in E; lia].
    rewrite nth_error_skipn.
    replace (Z.to_nat ((k + 1 - 1) * limit) + Z.to_nat (Z.of_nat i mod limit))%nat
      with i by nia.
    exact Hi.
Qed.

Lemma pages_partition_the_selection_witness :
  exists p,
    findRecentTranscriptions utc_env sample_now three_records 50 2 2 None = Return p /\
    List.length (transcriptions p) = 1%nat.
Proof.
  destruct (pages_partition_the_selection (fun _ => utc_env) sample_now three_records
              50 2 None (50 * ms_per_day)
              (fun _ => insertion_sort_sorts) (fun _ => eq_refl) ltac:(lia))
    as [Hpages _].
  destruct (Hpages 2 ltac:(lia)) as [p [Hp [Ht Hlen]]].
  exists p. split; [exact Hp |].
  rewrite Ht in Hlen. change (countDocuments _ _) with 3 in Hlen. lia.
Defined.

(** X14: a [source] argument that is not empty and names neither origin
    is not refused: it selects nothing.  For a valid threshold, a page
    >= 1 and a page size >= 1 the answer is an empty page with total 0
    and 0 pages, whatever the collection holds. *)
Theorem unknown_source_selects_nothing
  (env : QueryEnv) (now : Z) (c : collection) (days page limit : Z)
  (source : string) (threshold : Z) :
  sorts_newest_first (sort_createdAt_desc env) ->
  Date_days_back env now days = Some threshold ->
  source <> ""%string -> source <> "mock"%string -> source <> "azure"%string ->
  1 <= page -> 1 <= limit ->
  findRecentTranscriptions env now c days page limit (Some source)
  = Return {| transcriptions := []; total := 0; Store.page := page;
              Store.limit := limit; totalPages := Some 0 |}.
Proof.
  intros Hsort Hdate Hne Hm Ha Hp Hl.
  rewrite (findRecentTranscriptions_page env now c days page limit _ threshold)
    by assumption.
  assert (Hnone : filter (matches (build_query threshold (Some source))) c = []).
  { induction c as [| r rest IH]; [reflexivity |].
    cbn [filter]. rewrite IH.
    unfold matches, build_query. cbn [source_is createdAt_gte].
    destruct (source =? "")%string eqn:E; [apply String.eqb_eq in E; contradiction |].
    destruct (source_str (Store.source r) =? source)%string eqn:Es.
    - apply String.eqb_eq in Es. destruct (Store.source r); cbn in Es; congruence.
    - rewrite andb_false_r. reflexivity. }
  unfold find, countDocuments. rewrite Hnone.
  assert (Hempty : sort_createdAt_desc env [] = []).
  { apply Permutation_nil, Permutation_sym, (proj1 (Hsort [])). }
  rewrite Hempty. cbn [List.length].
  rewrite skipn_nil, firstn_nil.
  unfold Math_ceil_div. destruct (limit =? 0) eqn:E; [apply Z.eqb_eq in E; lia |].
  reflexivity.
Qed.

Lemma unknown_source_selects_nothing_witness :
  findRecentTranscriptions utc_env sample_now three_records 50 1 10 (Some "Azure"%string)
  = Return {| transcriptions := []; total := 0; Store.page := 1;
              Store.limit := 10; totalPages := Some 0 |}.
Proof.
  apply (unknown_source_selects_nothing utc_env sample_now three_records 50 1 10
           "Azure"%string (50 * ms_per_day) insertion_sort_sorts eq_refl);
    try discriminate; lia.
Defined.

Lemma filter_snoc {A : Type} (f : A -> bool) (l : list A) (x : A) :
  filter f (l ++ [x]) = filter f l ++ (if f x then [x] else []).
Proof. rewrite filter_app. reflexivity. Qed.

End StoreMore.

Module RoundTrip.
Import Retry Store StoreSpec StoreFacts Adapters AudioService Response Listing StoreMore.

Section Service.
Variable URL_parse : string -> option Url.URL.
Variable cfg : Config.
Context {H : Type} {H_client : IHttpClient H}.
Variable http : H.

(** X15: a record created by the mock pipeline is found again by the
    list operation.  After [transcribeAudio] has returned, a listing
    whose threshold (the date [days] days before now, when it is a
    valid date) is no later than the record's creation, filtered by
    origin ['mock'], counts one record more than before, shows only
    ['mock'] records and, when the page is large enough for all of them,
    shows the returned record. *)
Theorem created_record_is_listed
  (env : QueryEnv) (timestamp : string) (db : insertion) (c c' : collection)
  (audioUrl : string) (r : TranscriptionResponse) (now days limit threshold : Z) :
  sorts_newest_first (sort_createdAt_desc env) ->
  TranscriptionService.transcribeAudio URL_parse cfg http timestamp db c audioUrl
    = (Return r, c') ->
  Date_days_back env now days = Some threshold ->
  threshold <= Response.createdAt r ->
  Z.of_nat (List.length c') <= limit ->
  exists listing,
    getRecentTranscriptions env now c' days 1 limit (Some "mock"%string)
      = Return listing /\
    count listing
    = countDocuments (build_query threshold (Some "mock"%string)) c + 1 /\
    In r (list_transcriptions listing) /\
    Forall (fun x => Response.source x = mock) (list_transcriptions listing).
Proof.
  intros Hsort Hrun Hdate Hrecent Hlimit.
  unfold TranscriptionService.transcribeAudio in Hrun.
  destruct (downloadAudio URL_parse cfg http audioUrl) as [a | v]; [| discriminate].
  match type of Hrun with context [create db ?d c] =>
    destruct (BatchFacts.create_appends_or_fails db d c)
      as [[doc [Hc [Hsrc [_ [_ Hlang]]]]] | [v Hc]]; rewrite Hc in Hrun
  end; [| discriminate].
  injection Hrun as <- <-. cbn in Hsrc, Hlang, Hrecent.
  assert (Hr : of_doc doc
               = {| Response.id := Store.id doc;
                    Response.audioUrl := Store.audioUrl doc;
                    Response.transcription := Store.transcription doc;
                    Response.source := Store.source doc;
                    Response.language := None;
                    Response.createdAt := Store.createdAt doc |})
    by (unfold of_doc; rewrite Hlang; reflexivity).
  rewrite <- Hr.
  assert (Hlen : 1 <= limit) by (rewrite length_app in Hlimit; cbn in Hlimit; lia).
  set (q := build_query threshold (Some "mock"%string)).
  assert (Hm : matches q doc = true).
  { unfold matches, q, build_query. cbn. rewrite Hsrc. cbn.
    rewrite andb_true_r. apply Z.leb_le. exact Hrecent. }
  unfold getRecentTranscriptions.
  rewrite (findRecentTranscriptions_page env now (c ++ [doc]) days 1 limit
             (Some "mock"%string) threshold Hdate ltac:(lia) Hlen).
  fold q. eexists. split; [reflexivity |].
  cbn [count list_transcriptions transcriptions total].
  replace ((1 - 1) * limit) with 0 by lia. cbn [Z.to_nat skipn].
  destruct (Hsort (find q (c ++ [doc]))) as [Hperm _].
  assert (Hall : firstn (Z.to_nat limit) (sort_createdAt_desc env (find q (c ++ [doc])))
                 = sort_createdAt_desc env (find q (c ++ [doc]))).
  { apply firstn_all2. rewrite (Permutation_length Hperm). unfold find.
    pose proof (filter_length_le (matches q) (c ++ [doc])). lia. }
  rewrite Hall.
  split.
  { unfold countDocuments. rewrite filter_snoc, Hm, length_app. cbn. lia. }
  split.
  { apply in_map.
    eapply Permutation_in; [apply Permutation_sym, Hperm |].
    unfold find. apply filter_In. split; [apply in_or_app; right; left; reflexivity |].
    exact Hm. }
  apply Forall_forall. intros x Hx. apply in_map_iff in Hx.
  destruct Hx as [d [<- Hd]].
  pose proof (Permutation_in _ Hperm Hd) as Hf.
  apply filter_In in Hf. destruct Hf as [_ Hf].
  unfold matches, q, build_query in Hf. cbn in Hf.
  apply andb_true_iff in Hf. destruct Hf as [_ Hf].
  cbn. destruct (Store.source d); [reflexivity | discriminate].
Qed.

End Service.

Lemma created_record_is_listed_witness :
  exists r c' listing,
    TranscriptionService.transcribeAudio Url.sample_URL_parse BatchSpec.test_config
      BatchSpec.test_http "2024-01-01T00:00:00.000Z"
      (Inserted "65b0" (100 * ms_per_day)) three_records
      "https://example.com/test.mp3" = (Return r, c') /\
    getRecentTranscriptions utc_env sample_now c' 30 1 10 (Some "mock"%string)
      = Return listing /\
    count listing = 2.
Proof.
  assert (Hrun : exists r c',
    TranscriptionService.transcribeAudio Url.sample_URL_parse BatchSpec.test_config
      BatchSpec.test_http "2024-01-01T00:00:00.000Z"
      (Inserted "65b0" (100 * ms_per_day)) three_records
      "https://example.com/test.mp3" = (Return r, c')
    /\ Response.createdAt r = 100 * ms_per_day /\ List.length c' = 4%nat)
    by (eexists; eexists; split; [vm_compute; reflexivity | split; reflexivity]).
  destruct Hrun as [r [c' [Hrun [Hat Hlen]]]].
  destruct (created_record_is_listed Url.sample_URL_parse BatchSpec.test_config
              BatchSpec.test_http utc_env "2024-01-01T00:00:00.000Z"
              (Inserted "65b0" (100 * ms_per_day)) three_records c'
              "https://example.com/test.mp3" r sample_now 30 10 (70 * ms_per_day)
              insertion_sort_sorts Hrun eq_refl
              ltac:(rewrite Hat; vm_compute; discriminate)
              ltac:(rewrite Hlen; lia))
    as [listing [Hl [Hc _]]].
  exists r, c', listing. split; [exact Hrun |]. split; [exact Hl |].
  rewrite Hc. reflexivity.
Defined.

End RoundTrip.

Module StreamAccountingFacts.
Import Store Stream StreamSpec StreamFacts StreamAccounting.

#[local] Arguments is_chunk : simpl never.
#[local] Arguments is_last_chunk : simpl never.

Lemma count_chunks_app (h b : list occurrence) :
  count_chunks (h ++ b) = (count_chunks h + count_chunks b)%nat.
Proof. unfold count_chunks. rewrite filter_app, length_app. reflexivity. Qed.

Lemma count_last_app (h b : list occurrence) :
  count_last (h ++ b) = (count_last h + count_last b)%nat.
Proof. unfold count_last. rewrite filter_app, length_app. reflexivity. Qed.

Lemma count_last_le_chunks (h : list occurrence) :
  (count_last h <= count_chunks h)%nat.
Proof.
  unfold count_last, count_chunks.
  induction h as [| o rest IH]; [cbn; lia |].
  destruct o as [p | | | |]; cbn [filter is_received_last is_received_chunk];
    try exact IH.
  destruct (is_last_chunk p) eqn:El.
  - unfold is_last_chunk in El. apply andb_true_iff in El.
    destruct El as [-> _]. cbn. lia.
  - destruct (is_chunk p); cbn; lia.
Qed.

Section Steps.
Variable sessionId : string.
Variable startTime : Z.

Lemma session_record_mono (n m : Z) (d : ITranscription) :
  n <= m -> session_record sessionId n d -> session_record sessionId m d.
Proof.
  intros Hle [Hs [Hl [dur [k [Hm Hk]]]]].
  repeat split; try assumption. exists dur, k. split; [exact Hm | lia].
Qed.

Lemma session_document_mono (n m : Z) (w : NewTranscription * string) :
  n <= m -> session_document_ok sessionId n w -> session_document_ok sessionId m w.
Proof.
  intros Hle [Hs [Hl [Ht [dur [k [Hm Hk]]]]]].
  repeat split; try assumption. exists dur, k. split; [exact Hm | lia].
Qed.

(** A delivery appends a block to the history; the accounting carries
    over when the counters move with the block. *)
Lemma Accounted_append (s s' : session) (b : list occurrence) (docs : list ITranscription) :
  Accounted sessionId s ->
  history s' = history s ++ b ->
  chunkCount s' = chunkCount s + Z.of_nat (count_chunks b) ->
  chunkCount s' = Z.of_nat (List.length (audioChunks s')) ->
  store s' = store s ++ docs ->
  persisted b = docs ->
  Forall (session_record sessionId (chunkCount s')) docs ->
  Forall (session_document_ok sessionId (chunkCount s')) (creating s') ->
  (finalizing s' + List.length (creating s') + List.length docs
   <= finalizing s + List.length (creating s) + count_last b)%nat ->
  (forall t i, In (Sent (Final t i)) b ->
     exists d, In d docs /\ Store.id d = i /\ Store.transcription d = t) ->
  Accounted sessionId s'.
Proof.
  intros [Hlen [Hcnt [Hst [Hrec [Hdoc [Hbal Hfin]]]]]]
         Hh Hcc Hlen' Hst' Hp Hdocs Hcre Hbal' Hfin'.
  unfold Accounted. rewrite Hh, Hst'.
  split; [exact Hlen' |].
  split; [rewrite count_chunks_app, Hcc, Hcnt; lia |].
  split; [rewrite persisted_app, Hst, Hp; reflexivity |].
  split.
  { apply Forall_app. split; [| exact Hdocs].
    eapply Forall_impl; [| exact Hrec].
    intros d. apply session_record_mono. lia. }
  split; [exact Hcre |].
  split; [rewrite count_last_app, length_app; lia |].
  intros t i Hin. apply in_app_or in Hin. destruct Hin as [Hin | Hin].
  - destruct (Hfin t i Hin) as [d [Hd He]]. exists d.
    split; [apply in_or_app; left; exact Hd | exact He].
  - destruct (Hfin' t i Hin) as [d [Hd He]]. exists d.
    split; [apply in_or_app; right; exact Hd | exact He].
Qed.

Ltac account HA docs :=
  eapply (Accounted_append _ _ _ docs);
  [ exact HA
  | cbn; rewrite <- ?app_assoc; cbn;
    first [ reflexivity | symmetry; apply app_nil_r ]
  | .. ].

Lemma on_message_Accounted (s : session) (parsed : option json) :
  Accounted sessionId s -> Accounted sessionId (on_message parsed s).
Proof.
  intros HA.
  pose proof HA as [Hlen [Hcnt [Hst [Hrec [Hdoc [Hbal Hfin]]]]]].
  unfold on_message.
  destruct parsed as [data |].
  2: { unfold send, note; cbn.
       destruct (socket s) eqn:Es; cbn;
         account HA (@nil ITranscription); cbn;
         rewrite ?app_nil_r, ?Z.add_0_r; try reflexivity;
         try assumption; try lia; try constructor;
         try (intros t i [Hx | [Hx | []]]; discriminate);
         try (intros t i [Hx | []]; discriminate). }
  destruct (get_prop data "type") as [ty | v] eqn:Ety.
  2: { unfold send, note; cbn.
       assert (Hd : data = JsonNull) by (destruct data; cbn in Ety; congruence).
       subst data.
       destruct (socket s) eqn:Es; cbn;
         account HA (@nil ITranscription); cbn;
         rewrite ?app_nil_r, ?Z.add_0_r; try reflexivity;
         try assumption; try lia; try constructor;
         try (intros t i [Hx | [Hx | []]]; discriminate);
         try (intros t i [Hx | []]; discriminate). }
  pose proof (StreamInvariant.is_chunk_eq _ _ Ety) as Hic.
  destruct (is_chunk_string ty) eqn:Echunk.
  2: { pose proof (StreamInvariant.not_chunk_not_last _ Hic) as Hnl.
       account HA (@nil ITranscription);
         unfold count_chunks, count_last; cbn;
         rewrite ?Hic, ?Hnl; cbn;
         rewrite ?app_nil_r, ?Z.add_0_r; try reflexivity;
         try assumption; try lia; try constructor.
       intros t i [Hx | []]; discriminate. }
  unfold accept_chunk, processChunks, mark_complete, send, note. cbn.
  rewrite StreamInvariant.pushed_nonempty, andb_true_r.
  destruct (get_prop data "isLast") as [lastv | v] eqn:Elast.
  2: { destruct data; cbn in Elast, Ety; congruence. }
  pose proof (StreamInvariant.is_last_chunk_eq _ _ _ Ety Elast) as Hil.
  rewrite Echunk in Hil. cbn in Hil.
  assert (Hdoc' : Forall (session_document_ok sessionId (chunkCount s + 1)) (creating s)).
  { eapply Forall_impl; [| exact Hdoc]. intros w. apply session_document_mono. lia. }
  assert (Hlen' : chunkCount s + 1
                  = Z.of_nat (List.length (audioChunks s ++ [payload data]))).
  { rewrite length_app. cbn. lia. }
  destruct (chunkCount s + 1 =? 1) eqn:Efirst;
    destruct (isComplete s) eqn:Ec;
    destruct (socket s) eqn:Es;
    destruct (truthy lastv) eqn:Et; cbn;
    account HA (@nil ITranscription);
    unfold count_chunks, count_last; cbn;
    rewrite ?Hic, ?Hil; cbn; rewrite ?app_nil_r;
    try reflexivity; try assumption; try lia; try constructor;
    try (intros t i Hx; repeat (destruct Hx as [Hx | Hx]; try discriminate);
         contradiction).
Qed.

Lemma processChunks_Accounted (s : session) :
  Accounted sessionId s -> Accounted sessionId (processChunks s).
Proof.
  intros HA.
  pose proof HA as [Hlen [Hcnt [Hst [Hrec [Hdoc [Hbal Hfin]]]]]].
  unfold processChunks, send.
  destruct (isComplete s) eqn:Ec;
    destruct (0 <? Z.of_nat (List.length (audioChunks s))) eqn:El;
    destruct (socket s) eqn:Es; cbn;
    account HA (@nil ITranscription);
    unfold count_chunks, count_last; cbn;
    rewrite ?Z.add_0_r, ?app_nil_r;
    try reflexivity; try assumption; try lia; try constructor;
    try (intros t i Hx; repeat (destruct Hx as [Hx | Hx]; try discriminate);
         contradiction).
Qed.

Lemma on_final_timer_Accounted (now : Z) (s s' : session) :
  Accounted sessionId s ->
  on_final_timer sessionId startTime now s = Some s' ->
  Accounted sessionId s'.
Proof.
  intros HA.
  pose proof HA as [Hlen [Hcnt [Hst [Hrec [Hdoc [Hbal Hfin]]]]]].
  unfold on_final_timer.
  destruct (finalizing s) as [| waiting] eqn:Ef; [discriminate |].
  intros H. injection H as <-.
  pose proof (count_last_le_chunks (history s)) as Hle.
  account HA (@nil ITranscription);
    unfold count_chunks, count_last; cbn;
    rewrite ?Z.add_0_r, ?app_nil_r, ?length_app;
    try reflexivity; try assumption; try (cbn; lia); try constructor;
    try (intros t i []).
  apply Forall_app. split; [exact Hdoc |].
  constructor; [| constructor].
  unfold final_document, session_document_ok. cbn.
  repeat split. eexists _, _. split; [reflexivity |]. lia.
Qed.

Lemma on_db_answer_Accounted (db : insertion) (s s' : session) :
  Accounted sessionId s -> on_db_answer db s = Some s' -> Accounted sessionId s'.
Proof.
  intros HA.
  pose proof HA as [Hlen [Hcnt [Hst [Hrec [Hdoc [Hbal Hfin]]]]]].
  unfold on_db_answer.
  destruct (creating s) as [| [doc finalText] waiting] eqn:Ecr; [discriminate |].
  inversion Hdoc as [| ? ? [Hsrc [Hlang [Htext [dur [k [Hmeta Hk]]]]]] Hrest]; subst.
  cbn [fst snd] in *.
  destruct (BatchFacts.create_appends_or_fails db doc (store s))
    as [[stored [Hc [Hs [Ht [Hm Hl]]]]] | [v Hc]]; rewrite Hc;
    intros H; injection H as <-; unfold close, send; cbn.
  - destruct (socket s) eqn:Es; cbn;
      account HA [stored];
      unfold count_chunks, count_last; cbn;
      rewrite ?Z.add_0_r, ?app_nil_r, ?Ecr;
      try reflexivity; try assumption; try (cbn; lia);
      try (constructor; [| constructor]; unfold session_record;
           rewrite Hs, Hl, Hm; repeat split; try assumption;
           exists dur, k; split; [exact Hmeta | lia]);
      try (intros t i Hx; repeat (destruct Hx as [Hx | Hx]; try discriminate);
           try contradiction;
           try (injection Hx as <- <-); exists stored;
           split; [left; reflexivity | split; [reflexivity | congruence]]).
    all: intros t i Hx;
      repeat (destruct Hx as [Hx | Hx]; try discriminate); contradiction.
  - destruct (socket s) eqn:Es; cbn;
      account HA (@nil ITranscription);
      unfold count_chunks, count_last; cbn;
      rewrite ?Z.add_0_r, ?app_nil_r, ?Ecr;
      try reflexivity; try assumption; try (cbn; lia); try constructor;
      try (intros t i Hx; repeat (destruct Hx as [Hx | Hx]; try discriminate);
           contradiction).
Qed.

Lemma mark_complete_Accounted (s : session) :
  Accounted sessionId s -> Accounted sessionId (mark_complete s).
Proof.
  intros HA.
  pose proof HA as [Hlen [Hcnt [Hst [Hrec [Hdoc [Hbal Hfin]]]]]].
  account HA (@nil ITranscription);
    unfold count_chunks, count_last; cbn;
    rewrite ?Z.add_0_r, ?app_nil_r;
    try reflexivity; try assumption; try lia; try constructor.
  intros t i [Hx | []]; discriminate.
Qed.

Lemma on_close_Accounted (s : session) :
  Accounted sessionId s -> Accounted sessionId (on_close s).
Proof.
  intros HA.
  pose proof HA as [Hlen [Hcnt [Hst [Hrec [Hdoc [Hbal Hfin]]]]]].
  account HA (@nil ITranscription);
    unfold count_chunks, count_last; cbn;
    rewrite ?Z.add_0_r, ?app_nil_r;
    try reflexivity; try assumption; try lia; try constructor.
  intros t i [Hx | []]; discriminate.
Qed.

Lemma step_Accounted (s s' : session) (i : input) :
  Accounted sessionId s -> step sessionId startTime s i = Some s' ->
  Accounted sessionId s'.
Proof.
  intros HA. destruct i as [parsed | | now | db | |]; cbn.
  - destruct (socket s); intros H; try discriminate;
      injection H as <-; apply on_message_Accounted, HA.
  - destruct (emitting s); intros H; [| discriminate].
    injection H as <-. apply processChunks_Accounted, HA.
  - apply on_final_timer_Accounted, HA.
  - apply on_db_answer_Accounted, HA.
  - destruct (socket s); intros H; try discriminate;
      injection H as <-; apply on_close_Accounted, HA.
  - intros H. injection H as <-. apply mark_complete_Accounted, HA.
Qed.

Lemma run_Accounted (inputs : list input) : forall s s',
  Accounted sessionId s -> run sessionId startTime s inputs = Some s' ->
  Accounted sessionId s'.
Proof.
  induction inputs as [| i rest IH]; intros s s' HA; cbn.
  - intros H. injection H as <-. exact HA.
  - destruct (step sessionId startTime s i) as [s1 |] eqn:E; [| discriminate].
    apply IH. eapply step_Accounted; eassumption.
Qed.

Lemma Accounted_connected : Accounted sessionId connected.
Proof.
  unfold Accounted. cbn. repeat split; try constructor; try lia.
  intros t i [Hx | []]. discriminate.
Qed.

End Steps.

Lemma final_last_one_final (h : list occurrence) :
  final_last h = true -> (count_finals (outbound h) <= 1)%nat.
Proof.
  unfold count_finals.
  induction h as [| o rest IH]; intros H; [cbn; lia |].
  destruct o as [p | m | | d |]; cbn in H |- *; try (apply IH; exact H).
  destruct m; cbn in H |- *; try (apply IH; exact H).
  pose proof (no_sent_outbound rest H) as Ho. unfold outbound in Ho.
  rewrite Ho. cbn. lia.
Qed.

End StreamAccountingFacts.

Module StreamMore.
Import Store Stream StreamSpec StreamFacts StreamInvariant.
Import StreamAccounting StreamAccountingFacts.

(** X16: at every moment of every session the chunk counter equals the
    number of accumulated chunks and the number of messages received
    that the handler took for chunks; messages of any other kind never
    move it. *)
Theorem chunk_counter_counts_chunk_messages
  (sessionId : string) (startTime : Z) (inputs : list input) (s : session) :
  run sessionId startTime connected inputs = Some s ->
  chunkCount s = Z.of_nat (List.length (audioChunks s)) /\
  chunkCount s = Z.of_nat (count_chunks (history s)).
Proof.
  intros Hrun.
  pose proof (run_Accounted sessionId startTime inputs _ _
                (Accounted_connected sessionId) Hrun)
    as [Hlen [Hcnt _]].
  split; assumption.
Qed.

Lemma chunk_counter_counts_chunk_messages_witness :
  exists s,
    run "s-1" 0 connected
        [Message (chunk "a" false); Message ping; Message None;
         Message (chunk "b" false)] = Some s /\
    chunkCount s = 2.
Proof.
  assert (Hrun : exists s,
    run "s-1" 0 connected
        [Message (chunk "a" false); Message ping; Message None;
         Message (chunk "b" false)] = Some s
    /\ List.length (audioChunks s) = 2%nat)
    by (eexists; split; vm_compute; reflexivity).
  destruct Hrun as [s [Hrun Hlen]]. exists s. split; [exact Hrun |].
  destruct (chunk_counter_counts_chunk_messages "s-1" 0 _ s Hrun) as [H _].
  rewrite H, Hlen. reflexivity.
Defined.

(** X17: partial progress is never persisted.  At every moment of every
    session the store holds exactly the records that the history shows
    persisted, at most one for each last chunk received; each has origin
    ['mock'], no language, and metadata with the session id and a chunk
    count between 1 and the current count.  While no chunk with
    [isLast] has been received the store is empty and no final message
    has been sent. *)
Theorem records_only_after_last_chunks
  (sessionId : string) (startTime : Z) (inputs : list input) (s : session) :
  run sessionId startTime connected inputs = Some s ->
  store s = persisted (history s) /\
  (List.length (store s) <= count_last (history s))%nat /\
  Forall (session_record sessionId (chunkCount s)) (store s) /\
  (count_last (history s) = 0%nat ->
   store s = [] /\ forall t i, ~ In (Final t i) (outbound (history s))).
Proof.
  intros Hrun.
  pose proof (run_Accounted sessionId startTime inputs _ _
                (Accounted_connected sessionId) Hrun)
    as [_ [_ [Hst [Hrec [_ [Hbal Hfin]]]]]].
  split; [exact Hst |]. split; [lia |]. split; [exact Hrec |].
  intros Hnone.
  assert (Hempty : store s = []) by (destruct (store s); [reflexivity | cbn in Hbal; lia]).
  split; [exact Hempty |].
  intros t i Hin.
  assert (Hsent : In (Sent (Final t i)) (history s)).
  { unfold outbound in Hin. apply in_flat_map in Hin.
    destruct Hin as [o [Ho Hm]]. destruct o; cbn in Hm; try contradiction.
    destruct Hm as [-> | []]. exact Ho. }
  destruct (Hfin t i Hsent) as [d [Hd _]]. rewrite Hempty in Hd. contradiction.
Qed.

Lemma records_only_after_last_chunks_witness :
  exists s,
    run "s-1" 0 connected
        [Message (chunk "a" false); EmitTimer; Message (chunk "b" false);
         EmitTimer; SocketClose] = Some s /\
    store s = [].
Proof.
  assert (Hrun : exists s,
    run "s-1" 0 connected
        [Message (chunk "a" false); EmitTimer; Message (chunk "b" false);
         EmitTimer; SocketClose] = Some s
    /\ count_last (history s) = 0%nat)
    by (eexists; split; vm_compute; reflexivity).
  destruct Hrun as [s [Hrun Hnone]]. exists s. split; [exact Hrun |].
  destruct (records_only_after_last_chunks "s-1" 0 _ s Hrun) as [_ [_ [_ H]]].
  exact (proj1 (H Hnone)).
Defined.

(** X18: a session sends at most one final message, however many last
    chunks it receives, and the final message carries the identifier and
    the text of a record that is in the store. *)
Theorem final_message_names_a_stored_record
  (sessionId : string) (startTime : Z) (inputs : list input) (s : session) :
  run sessionId startTime connected inputs = Some s ->
  (count_finals (outbound (history s)) <= 1)%nat /\
  (forall t i, In (Final t i) (outbound (history s)) ->
     exists d, In d (store s) /\ Store.id d = i /\ Store.transcription d = t).
Proof.
  intros Hrun.
  pose proof (run_Inv sessionId startTime inputs _ _ Inv_connected Hrun)
    as [_ [_ [_ [Hfl _]]]].
  pose proof (run_Accounted sessionId startTime inputs _ _
                (Accounted_connected sessionId) Hrun)
    as [_ [_ [_ [_ [_ [_ Hfin]]]]]].
  split; [apply final_last_one_final, Hfl |].
  intros t i Hin. apply Hfin.
  unfold outbound in Hin. apply in_flat_map in Hin.
  destruct Hin as [o [Ho Hm]]. destruct o; cbn in Hm; try contradiction.
  destruct Hm as [-> | []]. exact Ho.
Qed.

Lemma final_message_names_a_stored_record_witness :
  exists s,
    run "s-1" 0 connected
        [Message (chunk "a" true); Message (chunk "b" true);
         FinalTimer 1000; FinalTimer 1001;
         DbAnswer (Inserted "65f1" 1002); DbAnswer (Inserted "65f2" 1003)]
      = Some s /\
    List.length (store s) = 2%nat /\
    (count_finals (outbound (history s)) <= 1)%nat.
Proof.
  assert (Hrun : exists s,
    run "s-1" 0 connected
        [Message (chunk "a" true); Message (chunk "b" true);
         FinalTimer 1000; FinalTimer 1001;
         DbAnswer (Inserted "65f1" 1002); DbAnswer (Inserted "65f2" 1003)]
      = Some s
    /\ List.length (store s) = 2%nat)
    by (eexists; split; vm_compute; reflexivity).
  destruct Hrun as [s [Hrun Hlen]]. exists s. split; [exact Hrun |].
  split; [exact Hlen |].
  exact (proj1 (final_message_names_a_stored_record "s-1" 0 _ s Hrun)).
Defined.

Section Quiet.
Variable sessionId : string.
Variable startTime : Z.

Lemma send_not_open (m : WebSocketMessage) (s : session) :
  socket s <> OPEN -> send m s = s.
Proof. unfold send. destruct (socket s); congruence. Qed.

Lemma step_quiet (s s' : session) (i : input) :
  socket s <> OPEN ->
  step sessionId startTime s i = Some s' ->
  socket s' <> OPEN /\ outbound (history s') = outbound (history s).
Proof.
  intros Hs Hstep.
  destruct i as [parsed | | now | db | |]; cbn in Hstep.
  - destruct (socket s) eqn:Es; try congruence. injection Hstep as <-.
    unfold on_message.
    assert (Hnote : socket (note (Received parsed) s) <> OPEN) by (cbn; congruence).
    assert (Hout : outbound (history (note (Received parsed) s)) = outbound (history s)).
    { cbn. rewrite StreamFacts.outbound_app. cbn. apply app_nil_r. }
    destruct parsed as [data |]; [| rewrite send_not_open by exact Hnote; cbn; split; [congruence | exact Hout]].
    destruct (get_prop data "type") as [ty | v];
      [| rewrite send_not_open by exact Hnote; cbn; split; [congruence | exact Hout]].
    destruct (is_chunk_string ty); [| cbn; split; [congruence | exact Hout]].
    unfold accept_chunk, processChunks, mark_complete, send, note. cbn.
    destruct (match get_prop data "isLast" with Return v => truthy v | Throw _ => false end);
      destruct (chunkCount s + 1 =? 1); cbn;
      try (destruct (negb (isComplete s)); cbn);
      rewrite ?Es; cbn;
      try (destruct (0 <? Z.of_nat (List.length (audioChunks s ++ [payload data]))); cbn);
      unfold outbound; (split; [congruence |]);
      rewrite ?flat_map_app; cbn; rewrite ?app_nil_r; reflexivity.
  - destruct (emitting s); [| discriminate]. injection Hstep as <-.
    unfold processChunks. rewrite send_not_open by exact Hs.
    destruct (negb (isComplete s) && _); cbn; split; try assumption; reflexivity.
  - unfold on_final_timer in Hstep. destruct (finalizing s); [discriminate |].
    injection Hstep as <-. cbn. split; [exact Hs | reflexivity].
  - unfold on_db_answer in Hstep.
    destruct (creating s) as [| [doc finalText] waiting]; [discriminate |].
    destruct (create db doc (store s)) as [[d | v] stored];
      injection Hstep as <-; unfold close, send; cbn;
      destruct (socket s) eqn:Es; try congruence; cbn;
      (split; [congruence |]);
      rewrite ?StreamFacts.outbound_app; cbn; rewrite ?app_nil_r; reflexivity.
  - destruct (socket s) eqn:Es; try congruence; try discriminate.
    injection Hstep as <-. cbn. split; [congruence |].
    rewrite StreamFacts.outbound_app. cbn. apply app_nil_r.
  - injection Hstep as <-. cbn. split; [exact Hs |].
    rewrite StreamFacts.outbound_app. cbn. apply app_nil_r.
Qed.

(** X19: once the socket of a session is no longer open (the server
    has called [close], or the peer has closed), it never opens again
    and nothing more is transmitted, whatever is still delivered to the
    session. *)
Theorem nothing_is_sent_on_a_closed_socket
  (inputs : list input) : forall (s s' : session),
  socket s <> OPEN ->
  run sessionId startTime s inputs = Some s' ->
  socket s' <> OPEN /\ outbound (history s') = outbound (history s).
Proof.
  induction inputs as [| i rest IH]; intros s s' Hs Hrun; cbn in Hrun.
  - injection Hrun as <-. split; [exact Hs | reflexivity].
  - destruct (step sessionId startTime s i) as [s1 |] eqn:E; [| discriminate].
    destruct (step_quiet s s1 i Hs E) as [Hs1 Ho1].
    destruct (IH s1 s' Hs1 Hrun) as [Hs' Ho']. split; [exact Hs' | congruence].
Qed.

(** X20: when the database refuses the insertion at finalization, the
    handler's [catch] answers with one error notification (on an open
    socket) and nothing else happens: no record is stored, no final
    message is sent, the socket is not closed and the session stays
    complete. *)
Theorem refused_insertion_is_reported
  (s : session) (w : NewTranscription * string)
  (waiting : list (NewTranscription * string)) (v : jsval) :
  creating s = w :: waiting ->
  exists s',
    step sessionId startTime s (DbAnswer (InsertFailed v)) = Some s' /\
    store s' = store s /\
    socket s' = socket s /\
    isComplete s' = isComplete s /\
    chunkCount s' = chunkCount s /\
    creating s' = waiting /\
    history s' = history s ++ match socket s with
                              | OPEN => [Sent errorMessage]
                              | _ => []
                              end.
Proof.
  intros Hc. cbn [step]. unfold on_db_answer. rewrite Hc. destruct w as [doc finalText].
  assert (Hcreate : exists thrown, create (InsertFailed v) doc (store s)
                                   = (Throw thrown, store s)).
  { unfold create. destruct (required_failures doc); eexists; reflexivity. }
  destruct Hcreate as [thrown ->].
  eexists. split; [reflexivity |].
  unfold send. cbn. destruct (socket s) eqn:Es; cbn; rewrite ?Es, ?app_nil_r;
    repeat split; reflexivity.
Qed.

End Quiet.

Lemma nothing_is_sent_on_a_closed_socket_witness :
  exists s s',
    run "s-1" 0 connected [Message (chunk "a" false); SocketClose] = Some s /\
    run "s-1" 0 s [EmitTimer] = Some s' /\
    outbound (history s') = outbound (history s).
Proof.
  assert (Hrun : exists s s',
    run "s-1" 0 connected [Message (chunk "a" false); SocketClose] = Some s /\
    run "s-1" 0 s [EmitTimer] = Some s' /\ socket s = CLOSED)
    by (eexists; eexists; split; [vm_compute; reflexivity | split; vm_compute; reflexivity]).
  destruct Hrun as [s [s' [H1 [H2 Hc]]]]. exists s, s'.
  split; [exact H1 |]. split; [exact H2 |].
  refine (proj2 (nothing_is_sent_on_a_closed_socket "s-1" 0 [EmitTimer] s s' _ H2)).
  rewrite Hc. discriminate.
Defined.

Lemma refused_insertion_is_reported_witness :
  exists s s',
    run "s-1" 0 connected [Message (chunk "a" true); FinalTimer 1000] = Some s /\
    step "s-1" 0 s (DbAnswer (InsertFailed (JErr (new_Error "write failed")))) = Some s' /\
    store s' = [] /\ socket s' = OPEN.
Proof.
  assert (Hrun : exists s,
    run "s-1" 0 connected [Message (chunk "a" true); FinalTimer 1000] = Some s /\
    store s = [] /\ socket s = OPEN /\
    exists w, creating s = [w])
    by (eexists; split; [vm_compute; reflexivity |];
        split; [reflexivity |]; split; [reflexivity |]; eexists; reflexivity).
  destruct Hrun as [s [Hrun [Hst [Hso [w Hw]]]]].
  destruct (refused_insertion_is_reported "s-1" 0 s w []
              (JErr (new_Error "write failed")) Hw)
    as [s' [Hstep [Hst' [Hso' _]]]].
  exists s, s'. split; [exact Hrun |]. split; [exact Hstep |].
  split; congruence.
Defined.

End StreamMore.

Module PartialMore.
Import Stream PartialDefs.

Lemma generatePartialTranscription_words (chunks : list (option json)) :
  generatePartialTranscription chunks
  = first_words (Nat.min (2 * List.length chunks) 20).
Proof.
  unfold generatePartialTranscription, first_words. f_equal. f_equal.
  change (Z.of_nat (List.length words)) with 20. lia.
Qed.

Lemma first_words_table :
  forallb (fun a => forallb (fun b => (b <? a)%nat
                                      || String.prefix (first_words a) (first_words b))
                            (seq 0 21))
          (seq 0 21) = true.
Proof. vm_compute. reflexivity. Qed.

Lemma first_words_prefix (a b : nat) :
  (a <= b <= 20)%nat -> String.prefix (first_words a) (first_words b) = true.
Proof.
  intros H. pose proof first_words_table as T.
  rewrite forallb_forall in T.
  assert (Ha : In a (seq 0 21)) by (apply in_seq; lia).
  specialize (T a Ha). rewrite forallb_forall in T.
  assert (Hb : In b (seq 0 21)) by (apply in_seq; lia).
  specialize (T b Hb). apply orb_true_iff in T. destruct T as [T | T]; [| exact T].
  apply Nat.ltb_lt in T. lia.
Qed.

(** X21: the partial results of a session only grow.  With more chunks
    received the partial text extends the earlier one (two more words a
    chunk) until, from ten chunks on, it is the whole twenty-word
    sentence; the confidence rises by 0.05 a chunk and stays at 0.95
    from nine chunks on. *)
Theorem partial_results_grow_and_saturate (earlier later : list (option json)) :
  (List.length earlier <= List.length later)%nat ->
  String.prefix (generatePartialTranscription earlier)
                (generatePartialTranscription later) = true
  /\ 50 <= partial_confidence earlier <= partial_confidence later
  /\ partial_confidence later <= 95
  /\ ((10 <= List.length later)%nat ->
      generatePartialTranscription later = join_space words)
  /\ ((9 <= List.length later)%nat -> partial_confidence later = 95).
Proof.
  intros H. split; [| split; [| split; [| split]]].
  - rewrite !generatePartialTranscription_words. apply first_words_prefix. lia.
  - unfold partial_confidence. lia.
  - unfold partial_confidence. lia.
  - intros H10. rewrite generatePartialTranscription_words.
    replace (Nat.min (2 * List.length later) 20) with 20%nat by lia. reflexivity.
  - intros H9. unfold partial_confidence. lia.
Qed.

Lemma partial_results_grow_and_saturate_witness :
  String.prefix (generatePartialTranscription [None])
                (generatePartialTranscription [None; None]) = true
  /\ generatePartialTranscription [None] = "Hello this"
  /\ generatePartialTranscription [None; None] = "Hello this is a".
Proof.
  split; [| split; reflexivity].
  refine (proj1 (partial_results_grow_and_saturate [None] [None; None] _)).
  cbn. lia.
Defined.

End PartialMore.
